(** * Asset-bundle encoders of xiaozhi-assets-generator

    A shallow embedding of the binary encoders of the repository:
    - [SpiffsGenerator] (the checksummed multi-file container, assets.bin),
    - [WakenetModelPacker] (the indexed wake-word model blob, srmodels.bin),
    - [AssetsBuilder.convertImageToRgb565] (the RGB565 image with its LVGL header),
    - [CBinFont] with its glyph and cmap tables (the CBIN bitmap font).

    JavaScript numbers that the code uses as integers are [Z] (sizes and
    offsets that index buffers are [nat]); typed arrays and ArrayBuffers are
    [list byte]; strings are lists of UTF-16 code units; a thrown exception is
    the [Err] branch of [result]. *)

From Stdlib Require Import ZArith Lia List String Ascii QArith.QArith_base QArith.Qround.
From Stdlib Require Import Init.Byte Strings.Byte DecimalString.
From stdpp Require Import base option list sorting gmap.

Local Open Scope Z_scope.

(** ** Bytes *)

Definition b2z (b : byte) : Z := Z.of_N (Byte.to_N b).

(** Storing a number into a [Uint8Array] slot keeps its low eight bits. *)
Definition u8 (z : Z) : byte := default x00 (Byte.of_N (Z.to_N (z mod 256))).

Definition zeros (n : nat) : list byte := replicate n x00.

(** Unsigned little-endian value of a byte sequence. *)
Fixpoint le_value (bs : list byte) : Z :=
  match bs with
  | [] => 0
  | b :: bs' => b2z b + 256 * le_value bs'
  end.

(** [n] bytes of [z], least significant first, as [DataView.setUintN(.., true)]
    lays them out. *)
Fixpoint le_bytes (n : nat) (z : Z) : list byte :=
  match n with
  | O => []
  | S n' => u8 z :: le_bytes n' (z / 256)
  end.

(** [buf.slice(start, start + len)] *)
Definition slice (start len : nat) (buf : list byte) : list byte :=
  take len (drop start buf).

Definition byte_sum (bs : list byte) : Z := foldr (fun b acc => b2z b + acc) 0 bs.

(** ** JavaScript 32-bit integer operators *)

Definition toInt32 (z : Z) : Z := (z + 2 ^ 31) mod 2 ^ 32 - 2 ^ 31.
Definition js_and (a b : Z) : Z := Z.land (toInt32 a) (toInt32 b).
Definition js_or (a b : Z) : Z := Z.lor (toInt32 a) (toInt32 b).
Definition js_shr (a n : Z) : Z := Z.shiftr (toInt32 a) (n mod 32).
Definition js_shl (a n : Z) : Z := toInt32 (Z.shiftl (toInt32 a) (n mod 32)).

(** ** Exceptions *)

Inductive error : Type :=
  | RangeError
  | TypeError
  | AppError (msg : string)
  | Error (msg : string).

Inductive result (A : Type) : Type :=
  | Ok (a : A)
  | Err (e : error).
Arguments Ok {A} a.
Arguments Err {A} e.

Definition rbind {A B} (r : result A) (k : A -> result B) : result B :=
  match r with
  | Ok a => k a
  | Err e => Err e
  end.

Notation "x <-- r ;; k" := (rbind r (fun x => k))
  (at level 100, r at next level, right associativity).

(** A loop whose body may throw, threading the loop variables. *)
Fixpoint for_each {A S} (body : S -> A -> result S) (xs : list A) (s : S) : result S :=
  match xs with
  | [] => Ok s
  | x :: xs' => s' <-- body s x ;; for_each body xs' s'
  end.

(** ** Typed arrays *)

(** [target.set(src, off)]: throws a RangeError when [src] does not fit. *)
Definition u8array_set (target src : list byte) (off : nat) : result (list byte) :=
  if decide (off + length src <= length target)%nat
  then Ok (take off target ++ src ++ drop (off + length src) target)
  else Err RangeError.

(** [target[i] = v]: an index outside the array is ignored. *)
Definition u8array_store (target : list byte) (i : nat) (v : Z) : list byte :=
  <[i := u8 v]> target.

(** ** Strings *)

(** A JavaScript string: its UTF-16 code units. *)
Definition jsstring : Type := list Z.

Definition js (s : string) : jsstring :=
  map (fun a => Z.of_N (N_of_ascii a)) (list_ascii_of_string s).

Definition utf8_replacement : list byte := [u8 239; u8 191; u8 189].

(** [TextEncoder.encode]: UTF-8 of the string, a surrogate pair giving one
    four-byte sequence and a lone surrogate U+FFFD. *)
Fixpoint utf8_encode (s : jsstring) : list byte :=
  match s with
  | [] => []
  | c :: rest =>
    if c <? 128 then u8 c :: utf8_encode rest
    else if c <? 2048 then
      u8 (Z.lor 192 (Z.shiftr c 6)) :: u8 (Z.lor 128 (Z.land c 63)) :: utf8_encode rest
    else if (55296 <=? c) && (c <=? 56319) then
      match rest with
      | d :: rest' =>
        if (56320 <=? d) && (d <=? 57343) then
          let cp := 65536 + Z.shiftl (c - 55296) 10 + (d - 56320) in
          u8 (Z.lor 240 (Z.shiftr cp 18))
            :: u8 (Z.lor 128 (Z.land (Z.shiftr cp 12) 63))
            :: u8 (Z.lor 128 (Z.land (Z.shiftr cp 6) 63))
            :: u8 (Z.lor 128 (Z.land cp 63)) :: utf8_encode rest'
        else utf8_replacement ++ utf8_encode rest
      | [] => utf8_replacement
      end
    else if (56320 <=? c) && (c <=? 57343) then utf8_replacement ++ utf8_encode rest
    else
      u8 (Z.lor 224 (Z.shiftr c 12))
        :: u8 (Z.lor 128 (Z.land (Z.shiftr c 6) 63))
        :: u8 (Z.lor 128 (Z.land c 63)) :: utf8_encode rest
  end.

Definition DOT : Z := 46.
Definition SLASH : Z := 47.

(** [s.split('.')] *)
Fixpoint split_dot_aux (cur : jsstring) (s : jsstring) : list jsstring :=
  match s with
  | [] => [reverse cur]
  | c :: rest =>
    if c =? DOT then reverse cur :: split_dot_aux [] rest
    else split_dot_aux (c :: cur) rest
  end.
Definition split_dot (s : jsstring) : list jsstring := split_dot_aux [] s.

(** [s.split('.').pop()]; the array is never empty. *)
Definition last_segment (s : jsstring) : jsstring := default [] (last (split_dot s)).

(** Does the regular expression [/\.[^/.]+$/] match at the start of [s]? *)
Definition ext_suffix_matches (s : jsstring) : bool :=
  match s with
  | c :: (_ :: _) as tail =>
    (c =? DOT) && forallb (fun d => negb ((d =? SLASH) || (d =? DOT))) tail
  | _ => false
  end.

(** [s.replace(/\.[^/.]+$/, '')]: the leftmost match is removed. *)
Fixpoint strip_extension (s : jsstring) : jsstring :=
  match s with
  | [] => []
  | c :: rest => if ext_suffix_matches s then [] else c :: strip_extension rest
  end.

(** [s.startsWith(prefix)] *)
Fixpoint startsWith (s prefix : jsstring) {struct prefix} : bool :=
  match prefix, s with
  | [], _ => true
  | p :: prefix', c :: s' => (c =? p) && startsWith s' prefix'
  | _ :: _, [] => false
  end.

(** [Array.prototype.sort] with a comparator: the sort is stable, and for
    a comparator that is a consistent order its result is the one of
    insertion from the right. *)
Fixpoint insert_by {A} (cmp : A -> A -> Z) (x : A) (l : list A) : list A :=
  match l with
  | [] => [x]
  | y :: l' => if cmp x y <=? 0 then x :: l else y :: insert_by cmp x l'
  end.
Definition array_sort {A} (cmp : A -> A -> Z) (l : list A) : list A :=
  foldr (insert_by cmp) [] l.

(** ** Host functions

    What the browser supplies and the repository does not define: the
    collation behind [String.prototype.localeCompare], Unicode lower-casing,
    and the decoder that reports the size of an encoded image (it answers
    0 x 0 when the bytes are not an image). *)

Class Host : Type := {
  localeCompare : jsstring -> jsstring -> Z;
  toLowerCase : jsstring -> jsstring;
  getImageDimensions : list byte -> Z * Z
}.

(** * SpiffsGenerator (assets.bin) *)

Module SpiffsGenerator.

Record FileEntry : Type := {
  filename : jsstring;
  data : list byte;
  size : nat;
  width : Z;
  height : Z
}.

Record FileInfo : Type := {
  fi_filename : jsstring;
  fi_data : list byte;
  fi_size : nat;
  fi_offset : nat;
  fi_width : Z;
  fi_height : Z
}.

(** The optional [{width?, height?}] argument of [addFile]. *)
Record Options : Type := {
  opt_width : option Z;
  opt_height : option Z
}.
Definition no_options : Options := {| opt_width := None; opt_height := None |}.

(** [v || 0] on an optional number *)
Definition or_zero (v : option Z) : Z :=
  match v with
  | Some w => if w =? 0 then 0 else w
  | None => 0
  end.

(** The generator object: its file list, and the names [addFile] warned about. *)
Record t : Type := {
  files : list FileEntry;
  console : list jsstring
}.

Definition new : t := {| files := []; console := [] |}.

Definition addFile (this : t) (name : jsstring) (bytes : list byte) (options : Options) : t :=
  {| files := files this ++
       [ {| filename := name;
            data := bytes;
            size := length bytes;
            width := or_zero (opt_width options);
            height := or_zero (opt_height options) |} ];
     console := if (32 <? Z.of_nat (length name)) then console this ++ [name]
                else console this |}.

Definition packUint32 (value : Z) : list byte :=
  [ u8 (js_and value 255);
    u8 (js_and (js_shr value 8) 255);
    u8 (js_and (js_shr value 16) 255);
    u8 (js_and (js_shr value 24) 255) ].

Definition packUint16 (value : Z) : list byte :=
  [ u8 (js_and value 255);
    u8 (js_and (js_shr value 8) 255) ].

(** [bytes.set(encoded.slice(0, copyLen), 0)] always fits: [copyLen] is
    at most [maxLen]. *)
Definition packString (s : jsstring) (maxLen : nat) : list byte :=
  let bytes := zeros maxLen in
  let encoded := utf8_encode s in
  let copyLen := Nat.min (length encoded) maxLen in
  take 0 bytes ++ take copyLen encoded ++ drop (0 + copyLen) bytes.

Definition computeChecksum (bytes : list byte) : Z :=
  let checksum := foldl (fun acc b => acc + b2z b) 0 bytes in
  js_and checksum 65535.

Section WithHost.
Context `{Host}.

(** The comparator of [sortFiles]. *)
Definition compareFiles (a b : FileEntry) : Z :=
  let extA := last_segment (filename a) in
  let extB := last_segment (filename b) in
  if decide (extA <> extB) then localeCompare extA extB
  else
    let nameA := strip_extension (filename a) in
    let nameB := strip_extension (filename b) in
    localeCompare nameA nameB.

Definition sortFiles (fs : list FileEntry) : list FileEntry :=
  array_sort compareFiles fs.

(** [view.getUint16(pos, true)] on a [DataView] over [bytes] *)
Definition getUint16 (bytes : list byte) (pos : nat) : result Z :=
  if decide (pos + 2 <= length bytes)%nat then Ok (le_value (slice pos 2 bytes))
  else Err RangeError.

Definition parseSpecialImageFormat (name : jsstring) (bytes : list byte) : Z * Z :=
  let ext := last_segment (toLowerCase name) in
  if bool_decide (DOT :: ext ∈ [js ".sjpg"; js ".spng"; js ".sqoi"]) then
    match (w <-- getUint16 bytes 14 ;; h <-- getUint16 bytes 16 ;; Ok (w, h)) with
    | Ok wh => wh
    | Err _ => (0, 0)
    end
  else (0, 0).

(** One turn of the first loop of [generate]: the dimensions of [file]. *)
Definition fileDimensions (file : FileEntry) : Z * Z :=
  if (width file =? 0) && (height file =? 0) then
    let special := parseSpecialImageFormat (filename file) (data file) in
    if (0 <? fst special) || (0 <? snd special) then special
    else
      let ext := last_segment (toLowerCase (filename file)) in
      if bool_decide (ext ∈ [js "png"; js "jpg"; js "jpeg"; js "gif"; js "bmp"; js "webp"])
      then getImageDimensions (data file)
      else (width file, height file)
  else (width file, height file).

(** The first loop: [fileInfoList] and [mergedDataSize]. *)
Fixpoint collectFileInfo (sortedFiles : list FileEntry) (mergedDataSize : nat)
  : list FileInfo * nat :=
  match sortedFiles with
  | [] => ([], mergedDataSize)
  | file :: rest =>
    let '(w, h) := fileDimensions file in
    let info := {| fi_filename := filename file;
                   fi_data := data file;
                   fi_size := size file;
                   fi_offset := mergedDataSize;
                   fi_width := w;
                   fi_height := h |} in
    let '(infos, total) := collectFileInfo rest (mergedDataSize + (2 + size file))%nat in
    (info :: infos, total)
  end.

(** The second loop: one 44-byte row per file, written field by field. *)
Definition writeTableRow (st : list byte * nat) (fileInfo : FileInfo)
  : result (list byte * nat) :=
  let '(mmapTable, mmapOffset) := st in
  t1 <-- u8array_set mmapTable (packString (fi_filename fileInfo) 32) mmapOffset ;;
  let mmapOffset := (mmapOffset + 32)%nat in
  t2 <-- u8array_set t1 (packUint32 (Z.of_nat (fi_size fileInfo))) mmapOffset ;;
  let mmapOffset := (mmapOffset + 4)%nat in
  t3 <-- u8array_set t2 (packUint32 (Z.of_nat (fi_offset fileInfo))) mmapOffset ;;
  let mmapOffset := (mmapOffset + 4)%nat in
  t4 <-- u8array_set t3 (packUint16 (fi_width fileInfo)) mmapOffset ;;
  let mmapOffset := (mmapOffset + 2)%nat in
  t5 <-- u8array_set t4 (packUint16 (fi_height fileInfo)) mmapOffset ;;
  let mmapOffset := (mmapOffset + 2)%nat in
  Ok (t5, mmapOffset).

(** The third loop: the marker 0x5A 0x5A, then the file's bytes. *)
Definition writeFileData (st : list byte * nat) (fileInfo : FileInfo)
  : result (list byte * nat) :=
  let '(mergedData, mergedOffset) := st in
  let m1 := u8array_store mergedData mergedOffset 90 in
  let m2 := u8array_store m1 (mergedOffset + 1) 90 in
  let mergedOffset := (mergedOffset + 2)%nat in
  m3 <-- u8array_set m2 (fi_data fileInfo) mergedOffset ;;
  Ok (m3, (mergedOffset + fi_size fileInfo)%nat).

(** [generate] without a progress callback. *)
Definition generate (this : t) : result (list byte) :=
  if decide (length (files this) = 0%nat) then Err (Error "No files to package") else
  let sortedFiles := sortFiles (files this) in
  let totalFiles := length sortedFiles in
  let '(fileInfoList, mergedDataSize) := collectFileInfo sortedFiles 0 in
  let mmapTableSize := (totalFiles * (32 + 4 + 4 + 2 + 2))%nat in
  tbl <-- for_each writeTableRow fileInfoList (zeros mmapTableSize, 0%nat) ;;
  let mmapTable := fst tbl in
  mrg <-- for_each writeFileData fileInfoList (zeros mergedDataSize, 0%nat) ;;
  let mergedData := fst mrg in
  c1 <-- u8array_set (zeros (mmapTableSize + mergedDataSize)) mmapTable 0 ;;
  combinedData <-- u8array_set c1 mergedData mmapTableSize ;;
  let checksum := computeChecksum combinedData in
  let combinedDataLength := length combinedData in
  let headerSize := (4 + 4 + 4)%nat in
  let totalSize := (headerSize + combinedDataLength)%nat in
  let offset := 0%nat in
  f1 <-- u8array_set (zeros totalSize) (packUint32 (Z.of_nat totalFiles)) offset ;;
  let offset := (offset + 4)%nat in
  f2 <-- u8array_set f1 (packUint32 checksum) offset ;;
  let offset := (offset + 4)%nat in
  f3 <-- u8array_set f2 (packUint32 (Z.of_nat combinedDataLength)) offset ;;
  let offset := (offset + 4)%nat in
  u8array_set f3 combinedData offset.

End WithHost.

(** The generator after a sequence of [addFile] calls on a fresh object. *)
Definition added (inputs : list (jsstring * list byte * Options)) : t :=
  foldl (fun g '(name, bytes, options) => addFile g name bytes options) new inputs.

(** A sequence of [addFile] calls on an object that is in use. *)
Definition addFiles (this : t) (inputs : list (jsstring * list byte * Options)) : t :=
  foldl (fun g '(name, bytes, options) => addFile g name bytes options) this inputs.

(** [clear] empties the file list. *)
Definition clear (this : t) : t := {| files := []; console := console this |}.

(** What [getStats] returns; [fileTypes] is the object made from the
    [Map] of counts. *)
Record Stats : Type := {
  fileCount : nat;
  totalSize : nat;
  fileTypes : gmap jsstring nat;
  averageFileSize : Z
}.

(** [Math.round(a / b)] for a positive divisor. The quotient is a double;
    it rounds as the exact quotient does as long as [a] is below 2^52. *)
Definition round_quotient (a b : nat) : Z :=
  Qfloor ((Z.of_nat a # Pos.of_nat b) + (1 # 2)).

Section Stats.
Context `{Host}.

(** [file.filename.split('.').pop()?.toLowerCase() || 'unknown'] *)
Definition fileType (file : FileEntry) : jsstring :=
  match toLowerCase (last_segment (filename file)) with
  | [] => js "unknown"
  | ext => ext
  end.

Definition getStats (this : t) : Stats :=
  let '(total, types) :=
    foldl (fun '(totalSize, fileTypes) file =>
             let ext := fileType file in
             ((totalSize + size file)%nat,
              <[ext := (default 0%nat (fileTypes !! ext) + 1)%nat]> fileTypes))
          (0%nat, ∅) (files this) in
  {| fileCount := length (files this);
     totalSize := total;
     fileTypes := types;
     averageFileSize :=
       if decide (0 < length (files this))%nat
       then round_quotient total (length (files this)) else 0 |}.

End Stats.

End SpiffsGenerator.

(** * WakenetModelPacker (srmodels.bin) *)

Module WakenetModelPacker.

(** A JavaScript [Map] with string keys: the entries in insertion order, a
    key occurring once. *)
Definition jsmap (V : Type) : Type := list (jsstring * V).

Fixpoint map_get {V} (m : jsmap V) (k : jsstring) : option V :=
  match m with
  | [] => None
  | (k', v) :: m' => if decide (k' = k) then Some v else map_get m' k
  end.

(** [m.set(k, v)]: an existing key keeps its place. *)
Fixpoint map_set {V} (m : jsmap V) (k : jsstring) (v : V) : jsmap V :=
  match m with
  | [] => [(k, v)]
  | (k', v') :: m' => if decide (k' = k) then (k, v) :: m' else (k', v') :: map_set m' k v
  end.

Record t : Type := {
  models : jsmap (jsmap (list byte))
}.

Definition new : t := {| models := [] |}.

Definition addModelFile (this : t) (modelName fileName : jsstring) (fileData : list byte) : t :=
  let models1 :=
    match map_get (models this) modelName with
    | Some _ => models this
    | None => map_set (models this) modelName []
    end in
  let files := default [] (map_get models1 modelName) in
  {| models := map_set models1 modelName (map_set files fileName fileData) |}.

(** One byte per code unit, its low eight bits; no terminator is reserved. *)
Definition packString (s : jsstring) (maxLen : nat) : list byte :=
  let copyLen := Nat.min (length s) maxLen in
  map (fun c => u8 (js_and c 255)) (take copyLen s) ++ zeros (maxLen - copyLen).

Definition packUint32 (value : Z) : list byte :=
  [ u8 (js_and value 255);
    u8 (js_and (js_shr value 8) 255);
    u8 (js_and (js_shr value 16) 255);
    u8 (js_and (js_shr value 24) 255) ].

Record ModelData : Type := {
  name : jsstring;
  files : list (jsstring * list byte)
}.

(** The loop variables of the header pass. *)
Record HeaderState : Type := {
  output : list byte;
  offset : nat;
  dataOffset : nat
}.

Definition writeFileHeader (st : HeaderState) (file : jsstring * list byte)
  : result HeaderState :=
  let '(fileName, fileData) := file in
  o1 <-- u8array_set (output st) (packString fileName 32) (offset st) ;;
  let offset1 := (offset st + 32)%nat in
  o2 <-- u8array_set o1 (packUint32 (Z.of_nat (dataOffset st))) offset1 ;;
  let offset2 := (offset1 + 4)%nat in
  o3 <-- u8array_set o2 (packUint32 (Z.of_nat (length fileData))) offset2 ;;
  let offset3 := (offset2 + 4)%nat in
  Ok {| output := o3; offset := offset3;
        dataOffset := (dataOffset st + length fileData)%nat |}.

Definition writeModelHeader (st : HeaderState) (model : ModelData) : result HeaderState :=
  o1 <-- u8array_set (output st) (packString (name model) 32) (offset st) ;;
  let offset1 := (offset st + 32)%nat in
  o2 <-- u8array_set o1 (packUint32 (Z.of_nat (length (files model)))) offset1 ;;
  let offset2 := (offset1 + 4)%nat in
  for_each writeFileHeader (files model)
    {| output := o2; offset := offset2; dataOffset := dataOffset st |}.

Definition writeFileBytes (st : list byte * nat) (file : jsstring * list byte)
  : result (list byte * nat) :=
  let '(out, off) := st in
  o1 <-- u8array_set out (snd file) off ;;
  Ok (o1, (off + length (snd file))%nat).

Definition writeModelBytes (st : list byte * nat) (model : ModelData)
  : result (list byte * nat) :=
  for_each writeFileBytes (files model) st.

Section WithHost.
Context `{Host}.

Definition compareKeys {V} (a b : jsstring * V) : Z := localeCompare (fst a) (fst b).

Definition modelDataList (this : t) : list ModelData :=
  map (fun '(modelName, fs) => {| name := modelName; files := array_sort compareKeys fs |})
      (array_sort compareKeys (models this)).

Definition packModels (this : t) : result (list byte) :=
  if decide (length (models this) = 0%nat) then Err (Error "没有模型数据可打包") else
  let mdl := modelDataList this in
  let modelNum := length (models this) in
  let headerLen :=
    foldl (fun acc model => (acc + (32 + 4) + length (files model) * (32 + 4 + 4))%nat)
          4%nat mdl in
  let totalSize :=
    (headerLen +
     foldl (fun total fs =>
              (total + foldl (fun fileTotal fileData => (fileTotal + length fileData)%nat)
                             0%nat (map snd fs))%nat)
           0%nat (map snd (models this)))%nat in
  let out0 := zeros totalSize in
  out1 <-- u8array_set out0 (packUint32 (Z.of_nat modelNum)) 0 ;;
  st <-- for_each writeModelHeader mdl
           {| output := out1; offset := 4; dataOffset := headerLen |} ;;
  fin <-- for_each writeModelBytes mdl (output st, offset st) ;;
  Ok (fst fin).

End WithHost.

(** The packer after a sequence of [addModelFile] calls on a fresh object. *)
Definition added (inputs : list (jsstring * jsstring * list byte)) : t :=
  foldl (fun p '(modelName, fileName, fileData) => addModelFile p modelName fileName fileData)
        new inputs.

(** [clear] *)
Definition clear (this : t) : t := {| models := [] |}.

(** The static [isValidModel(modelName, chipModel)] *)
Definition isValidModel (modelName chipModel : jsstring) : bool :=
  let isC3OrC6 :=
    bool_decide (chipModel = js "esp32c3") || bool_decide (chipModel = js "esp32c6") in
  if isC3OrC6 then startsWith modelName (js "wn9s_")
  else startsWith modelName (js "wn9_").

(** What [getStats] returns; [modelNames] is its field [models]. *)
Record Stats : Type := {
  modelCount : nat;
  fileCount : nat;
  totalSize : nat;
  modelNames : list jsstring
}.

Definition getStats (this : t) : Stats :=
  let '(totalFiles, total) :=
    foldl (fun '(totalFiles, totalSize) fs =>
             ((totalFiles + length fs)%nat,
              foldl (fun totalSize fileData => (totalSize + length fileData)%nat)
                    totalSize (map snd fs)))
          (0%nat, 0%nat) (map snd (models this)) in
  {| modelCount := length (models this);
     fileCount := totalFiles;
     totalSize := total;
     modelNames := map fst (models this) |}.

(** [loadModelFromShare]: the three files of a model are fetched from
    [./static/wakenet_model/<modelName>/<fileName>]; [fetch] answers [None]
    when the request fails or the response is not ok. Returns the packer and
    whether all three files were loaded. *)
Definition modelFiles : list jsstring := [js "_MODEL_INFO_"; js "wn9_data"; js "wn9_index"].

Definition loadModelFromShare (fetch : jsstring -> option (list byte))
    (this : t) (modelName : jsstring) : t * bool :=
  let '(this', loadedFiles) :=
    foldl (fun '(p, loadedFiles) fileName =>
             match fetch (js "./static/wakenet_model/" ++ modelName ++ [SLASH] ++ fileName) with
             | Some fileData => (addModelFile p modelName fileName fileData, S loadedFiles)
             | None => (p, loadedFiles)
             end)
          (this, 0%nat) modelFiles in
  (this', bool_decide (loadedFiles = length modelFiles)).

End WakenetModelPacker.

(** * AssetsBuilder.convertImageToRgb565 *)

Module AssetsBuilder.

(** [this.config?.chip?.display]: each dimension may be missing. *)
Record Display : Type := {
  display_width : option nat;
  display_height : option nat
}.

(** [v || d] on an optional canvas dimension *)
Definition or_default (v : option nat) (d : nat) : nat :=
  match v with
  | Some (S n) => S n
  | _ => d
  end.

(** A store into a [Uint16Array] slot keeps the low sixteen bits. *)
Definition u16array_store (view : list Z) (k : nat) (v : Z) : list Z :=
  <[k := v mod 65536]> view.

Definition rgb565 (r8 g8 b8 : Z) : Z :=
  let r := js_shr r8 3 in
  let g := js_shr g8 2 in
  let b := js_shr b8 3 in
  js_or (js_or (js_shl r 11) (js_shl g 5)) b.

(** The pixel loop, [i] advancing by four and [k = i / 4]; a component past
    the end of [pixels] reads as [undefined], which the shifts turn into 0. *)
Fixpoint convertPixels (pixels : list byte) (k : nat) (view : list Z) : list Z :=
  match pixels with
  | [] => view
  | [r] => u16array_store view k (rgb565 (b2z r) 0 0)
  | [r; g] => u16array_store view k (rgb565 (b2z r) (b2z g) 0)
  | [r; g; b] => u16array_store view k (rgb565 (b2z r) (b2z g) (b2z b))
  | r :: g :: b :: _ :: rest =>
    convertPixels rest (S k) (u16array_store view k (rgb565 (b2z r) (b2z g) (b2z b)))
  end.

(** The bytes behind a [Uint16Array] (little-endian hosts). *)
Definition u16array_bytes (view : list Z) : list byte :=
  concat (map (le_bytes 2) view).

(** [view.setUint32(pos, v, true)] *)
Definition setUint32 (buf : list byte) (pos : nat) (v : Z) : result (list byte) :=
  u8array_set buf (le_bytes 4 v) pos.

Definition LV_IMAGE_HEADER_MAGIC : Z := 25.
Definition LV_COLOR_FORMAT_RGB565 : Z := 18.

(** The body of [img.onload], from the canvas pixels that [getImageData]
    returned for a [w] x [h] canvas. *)
Definition encodeCanvas (w h : nat) (pixels : list byte) : result (list byte) :=
  let rgb565View := convertPixels pixels 0 (replicate (w * h) 0) in
  let rgb565Data := u16array_bytes rgb565View in
  let stride := Z.of_nat w * 2 in
  let headerSize := 28%nat in
  let totalSize := (headerSize + length rgb565Data)%nat in
  let finalData := zeros totalSize in
  let offset := 0%nat in
  let headerWord1 :=
    js_or (js_or (js_or (js_shl 0 24) (js_shl 0 16)) (js_shl LV_COLOR_FORMAT_RGB565 8))
          LV_IMAGE_HEADER_MAGIC in
  d1 <-- setUint32 finalData offset headerWord1 ;;
  let offset := (offset + 4)%nat in
  let sizeWord := js_or (js_shl (Z.of_nat h) 16) (Z.of_nat w) in
  d2 <-- setUint32 d1 offset sizeWord ;;
  let offset := (offset + 4)%nat in
  let strideWord := js_or (js_shl 0 16) stride in
  d3 <-- setUint32 d2 offset strideWord ;;
  let offset := (offset + 4)%nat in
  d4 <-- setUint32 d3 offset (Z.of_nat (length rgb565Data)) ;;
  let offset := (offset + 4)%nat in
  d5 <-- setUint32 d4 offset (Z.of_nat headerSize) ;;
  let offset := (offset + 4)%nat in
  d6 <-- setUint32 d5 offset 0 ;;
  let offset := (offset + 4)%nat in
  d7 <-- setUint32 d6 offset 0 ;;
  u8array_set d7 rgb565Data headerSize.

(** The browser's part: decoding [imageData] and drawing it in cover mode on
    a [w] x [h] canvas; [None] when the image does not load. *)
Class Canvas : Type := {
  drawCover : list byte -> nat -> nat -> option (list byte)
}.

Definition convertImageToRgb565 `{Canvas} (display : Display) (imageData : list byte)
  : result (list byte) :=
  let w := or_default (display_width display) 320 in
  let h := or_default (display_height display) 240 in
  match drawCover imageData w h with
  | None => Err (Error "Unable to load image")
  | Some pixels => encodeCanvas w h pixels
  end.

(** *** The configuration object

    What [setConfig] stores and the getters read. A field that may be
    missing is an [option], [None] being [undefined]; the fields hold the
    types that the configuration pages give them: strings, integers and
    [File] objects. *)

Record File : Type := {
  file_name : option jsstring;
  file_type : jsstring;
  file_bytes : list byte
}.

Record DisplayConfig : Type := {
  dsp_width : option Z;
  dsp_height : option Z;
  dsp_color : option jsstring
}.

Record Chip : Type := {
  chip_model : option jsstring;
  chip_display : option DisplayConfig
}.

Record CustomFont : Type := {
  cf_file : option File;
  cf_size : option Z;
  cf_bpp : option Z;
  cf_charset : option jsstring;
  cf_symbols : option jsstring;
  cf_range : option jsstring
}.

Record Font : Type := {
  font_type : option jsstring;
  font_preset : option jsstring;
  font_custom : option CustomFont
}.

Record Size : Type := {
  sz_width : option Z;
  sz_height : option Z
}.

(** [emotionMap] is given by its entries in the order of [Object.entries];
    [fileMap] by its own properties, a value [None] being [null]. The hashes
    are digests, none of them the name of a property that every object
    inherits. *)
Record EmojiCustom : Type := {
  ec_emotionMap : list (jsstring * jsstring);
  ec_fileMap : gmap jsstring (option File);
  ec_size : option Size
}.

Record Emoji : Type := {
  emoji_type : option jsstring;
  emoji_preset : option jsstring;
  emoji_custom : option EmojiCustom
}.

Record SkinMode : Type := {
  mode_textColor : option jsstring;
  mode_backgroundColor : option jsstring;
  mode_backgroundType : option jsstring;
  mode_backgroundImage : option File
}.

Record Skin : Type := {
  skin_light : option SkinMode;
  skin_dark : option SkinMode
}.

Record Theme : Type := {
  theme_wakeword : option jsstring;
  theme_font : option Font;
  theme_emoji : option Emoji;
  theme_skin : option Skin
}.

Record Config : Type := {
  cfg_chip : option Chip;
  cfg_theme : option Theme
}.

(** Truthiness of a string and of a number that may be missing. *)
Definition truthy_str (s : option jsstring) : bool :=
  match s with
  | Some (_ :: _) => true
  | _ => false
  end.
Definition truthy_num (n : option Z) : bool :=
  match n with
  | Some z => negb (z =? 0)
  | None => false
  end.

(** A value inside a template literal; a number is an integer below
    10^21 in size, which is printed with all its digits. *)
Definition str_of (s : option jsstring) : jsstring := default (js "undefined") s.
Definition num_of (n : option Z) : jsstring :=
  match n with
  | Some z => js (NilZero.string_of_int (Z.to_int z))
  | None => js "undefined"
  end.

(** [s || d] on a string *)
Definition str_or (s : option jsstring) (d : jsstring) : jsstring :=
  match s with
  | Some (c :: rest) => c :: rest
  | _ => d
  end.

Definition validateConfig (config : option Config) : bool :=
  match config with
  | None => false
  | Some config =>
    if negb (truthy_str (chip ← cfg_chip config; chip_model chip)) then false
    else
      let display := chip ← cfg_chip config; chip_display chip in
      if negb (truthy_num (d ← display; dsp_width d))
         || negb (truthy_num (d ← display; dsp_height d)) then false
      else
        let font := theme ← cfg_theme config; theme_font theme in
        let type := f ← font; font_type f in
        if bool_decide (type = Some (js "preset"))
           && negb (truthy_str (f ← font; font_preset f)) then false
        else if bool_decide (type = Some (js "custom"))
                && negb (bool_decide (is_Some (f ← font; c ← font_custom f; cf_file c)))
        then false
        else true
  end.

(** [setConfig(config, { strict })]: the new value of [this.config]. A
    missing configuration is spread into an object without fields. *)
Definition setConfig (config : option Config) (strict : bool) : result Config :=
  if strict && negb (validateConfig config)
  then Err (Error "Configuration object validation failed")
  else Ok (default {| cfg_chip := None; cfg_theme := None |} config).

Record WakewordInfo : Type := {
  ww_name : jsstring;
  ww_type : jsstring;
  ww_filename : jsstring
}.

Definition getWakewordModelInfo (config : option Config) : option WakewordInfo :=
  match config with
  | None => None
  | Some config =>
    match cfg_chip config, cfg_theme config with
    | Some chip, Some theme =>
      let chipModel := chip_model chip in
      match theme_wakeword theme with
      | Some (c :: rest) =>
        let isC3OrC6 :=
          bool_decide (chipModel = Some (js "esp32c3"))
          || bool_decide (chipModel = Some (js "esp32c6")) in
        let modelType := if isC3OrC6 then js "WakeNet9s" else js "WakeNet9" in
        Some {| ww_name := c :: rest; ww_type := modelType; ww_filename := js "srmodels.bin" |}
      | _ => None
      end
    | _, _ => None
    end
  end.

Inductive FontInfo : Type :=
  | PresetFontInfo (filename : jsstring) (source : option jsstring)
  | CustomFontInfo (filename : jsstring) (source : File)
                   (fontSize bpp : option Z) (charset : option jsstring).

Definition fontInfo_filename (info : FontInfo) : jsstring :=
  match info with
  | PresetFontInfo filename _ => filename
  | CustomFontInfo filename _ _ _ _ => filename
  end.

(** [font.custom.file] throws when [font.custom] is missing. *)
Definition getFontInfo (config : option Config) : result (option FontInfo) :=
  match theme ← (config ≫= cfg_theme); theme_font theme with
  | None => Ok None
  | Some font =>
    if bool_decide (font_type font = Some (js "preset")) then
      Ok (Some (PresetFontInfo (str_of (font_preset font) ++ js ".bin") (font_preset font)))
    else if bool_decide (font_type font = Some (js "custom")) then
      match font_custom font with
      | None => Err TypeError
      | Some custom =>
        match cf_file custom with
        | Some file =>
          let filename :=
            js "font_custom_" ++ num_of (cf_size custom) ++ js "_"
              ++ num_of (cf_bpp custom) ++ js ".bin" in
          Ok (Some (CustomFontInfo filename file (cf_size custom) (cf_bpp custom)
                                   (cf_charset custom)))
        | None => Ok None
        end
      end
    else Ok None
  end.

Inductive EmojiSource : Type :=
  | SourcePreset (source : jsstring)
  | SourceFile (file : File).

Record EmojiItem : Type := {
  item_name : jsstring;
  item_file : jsstring;
  item_source : EmojiSource;
  item_fileHash : option jsstring;
  item_size : Size
}.

Definition presetEmojis : list jsstring :=
  map js [ "neutral"; "happy"; "laughing"; "funny"; "sad"; "angry"; "crying";
           "loving"; "embarrassed"; "surprised"; "shocked"; "thinking"; "winking";
           "cool"; "relaxed"; "delicious"; "kissy"; "confident"; "sleepy"; "silly";
           "confused" ]%string.

Definition old_structure_message : string :=
  "Incompatible emoji data structure: Missing fileMap or emotionMap. Please reconfigure emojis.".

Section WithHost.
Context `{Host}.

(** The body of the loop over the entries of [emotionMap]: the loop
    variables are [hashToFilename] and [collection]. *)
Definition fileExtension (file : File) : jsstring :=
  match file_name file with
  | Some (c :: rest) => toLowerCase (last_segment (c :: rest))
  | _ => js "png"
  end.

Definition sharedFilename (fileHash : jsstring) (file : File) : jsstring :=
  js "emoji_" ++ take 8 fileHash ++ [DOT] ++ fileExtension file.

Definition collectEmotion (fileMap : gmap jsstring (option File)) (emojiSize : Size)
    (st : gmap jsstring jsstring * list EmojiItem) (entry : jsstring * jsstring)
  : gmap jsstring jsstring * list EmojiItem :=
  let '(hashToFilename, collection) := st in
  let '(emotionName, fileHash) := entry in
  match fileMap !! fileHash with
  | Some (Some file) =>
    let hashToFilename :=
      match hashToFilename !! fileHash with
      | Some _ => hashToFilename
      | None => <[fileHash := sharedFilename fileHash file]> hashToFilename
      end in
    let sharedFilename := hashToFilename !! fileHash in
    (hashToFilename,
     collection ++ [ {| item_name := emotionName;
                        item_file := str_of sharedFilename;
                        item_source := SourceFile file;
                        item_fileHash := Some fileHash;
                        item_size := emojiSize |} ])
  | _ => (hashToFilename, collection)
  end.

Definition getEmojiCollectionInfo (config : option Config) : result (list EmojiItem) :=
  match theme ← (config ≫= cfg_theme); theme_emoji theme with
  | None => Ok []
  | Some emoji =>
    if bool_decide (emoji_type emoji = Some (js "preset")) then
      let px := if bool_decide (emoji_preset emoji = Some (js "twemoji32")) then 32 else 64 in
      Ok (map (fun name =>
                 {| item_name := name;
                    item_file := name ++ js ".png";
                    item_source := SourcePreset (js "preset:" ++ str_of (emoji_preset emoji));
                    item_fileHash := None;
                    item_size := {| sz_width := Some px; sz_height := Some px |} |})
              presetEmojis)
    else if bool_decide (emoji_type emoji = Some (js "custom")) then
      match emoji_custom emoji with
      | None => Err TypeError
      | Some custom =>
        let emotionMap := ec_emotionMap custom in
        let fileMap := ec_fileMap custom in
        let emojiSize := default {| sz_width := Some 64; sz_height := Some 64 |} (ec_size custom) in
        if bool_decide (length emotionMap = 0%nat) || bool_decide (size fileMap = 0%nat)
        then Err (Error old_structure_message)
        else Ok (snd (foldl (collectEmotion fileMap emojiSize) (∅, []) emotionMap))
      end
    else Ok []
  end.

Record ModeInfo : Type := {
  text_color : jsstring;
  background_color : jsstring;
  background_image : option jsstring
}.

Record SkinInfo : Type := {
  info_light : option ModeInfo;
  info_dark : option ModeInfo
}.

(** [mode.backgroundType === 'image' && mode.backgroundImage] *)
Definition hasBackgroundImage (mode : SkinMode) : bool :=
  bool_decide (mode_backgroundType mode = Some (js "image"))
  && bool_decide (is_Some (mode_backgroundImage mode)).

Definition getSkinInfo (config : option Config) : SkinInfo :=
  match theme ← (config ≫= cfg_theme); theme_skin theme with
  | None => {| info_light := None; info_dark := None |}
  | Some skin =>
    {| info_light :=
         light ← skin_light skin;
         Some {| text_color := str_or (mode_textColor light) (js "#000000");
                 background_color := str_or (mode_backgroundColor light) (js "#ffffff");
                 background_image :=
                   if hasBackgroundImage light then Some (js "background_light.raw")
                   else None |};
       info_dark :=
         dark ← skin_dark skin;
         Some {| text_color := str_or (mode_textColor dark) (js "#ffffff");
                 background_color := str_or (mode_backgroundColor dark) (js "#121212");
                 background_image :=
                   if hasBackgroundImage dark then Some (js "background_dark.raw")
                   else None |} |}
  end.

Record IndexJson : Type := {
  ij_version : Z;
  ij_chip_model : option jsstring;
  ij_display_width : option Z;
  ij_display_height : option Z;
  ij_display_monochrome : bool;
  ij_display_color : jsstring;
  ij_srmodels : option jsstring;
  ij_text_font : option jsstring;
  ij_skin : option SkinInfo;
  ij_emoji_collection : option (list (jsstring * jsstring))
}.

Definition generateIndexJson (config : option Config) : result IndexJson :=
  match config with
  | None => Err (Error "Configuration object not set")
  | Some cfg =>
    match cfg_chip cfg with
    | None => Err TypeError
    | Some chip =>
      match chip_display chip with
      | None => Err TypeError
      | Some display =>
        let wakewordInfo := getWakewordModelInfo config in
        fontInfo <-- getFontInfo config ;;
        let skinInfo := getSkinInfo config in
        emojiCollection <-- getEmojiCollectionInfo config ;;
        Ok {| ij_version := 1;
              ij_chip_model := chip_model chip;
              ij_display_width := dsp_width display;
              ij_display_height := dsp_height display;
              ij_display_monochrome := false;
              ij_display_color := str_or (dsp_color display) (js "RGB565");
              ij_srmodels := ww_filename <$> wakewordInfo;
              ij_text_font := fontInfo_filename <$> fontInfo;
              ij_skin :=
                match info_light skinInfo, info_dark skinInfo with
                | None, None => None
                | _, _ => Some skinInfo
                end;
              ij_emoji_collection :=
                match emojiCollection with
                | [] => None
                | _ => Some (map (fun emoji => (item_name emoji, item_file emoji))
                                 emojiCollection)
                end |}
      end
    end
  end.

Inductive Resource : Type :=
  | WakewordResource (name filename modelType : jsstring)
  | FontResource (info : FontInfo)
  | EmojiResource (emoji : EmojiItem)
  | BackgroundResource (filename : jsstring) (source : File) (mode : jsstring).

Definition resource_filename (r : Resource) : jsstring :=
  match r with
  | WakewordResource _ filename _ => filename
  | FontResource info => fontInfo_filename info
  | EmojiResource emoji => item_file emoji
  | BackgroundResource filename _ _ => filename
  end.

Record Resources : Type := {
  res_files : list Resource;
  res_indexJson : IndexJson;
  res_config : Config
}.

(** The loop over the emoji collection: [addedFileHashes] and the files
    pushed. An empty hash is falsy, such an emoji is always added. *)
Definition addEmojiFile (st : gset jsstring * list Resource) (emoji : EmojiItem)
  : gset jsstring * list Resource :=
  let '(addedFileHashes, files) := st in
  match item_fileHash emoji with
  | Some (c :: rest) =>
    if bool_decide (c :: rest ∈ addedFileHashes) then (addedFileHashes, files)
    else ({[ c :: rest ]} ∪ addedFileHashes, files ++ [EmojiResource emoji])
  | _ => (addedFileHashes, files ++ [EmojiResource emoji])
  end.

Definition backgroundFile (mode : option SkinMode) (filename modeName : jsstring)
  : list Resource :=
  match mode with
  | Some m =>
    if bool_decide (mode_backgroundType m = Some (js "image")) then
      match mode_backgroundImage m with
      | Some image => [BackgroundResource filename image modeName]
      | None => []
      end
    else []
  | None => []
  end.

Definition preparePackageResources (config : option Config) : result Resources :=
  indexJson <-- generateIndexJson config ;;
  let files0 :=
    match getWakewordModelInfo config with
    | Some info =>
      match ww_name info with
      | _ :: _ => [WakewordResource (ww_name info) (ww_filename info) (ww_type info)]
      | [] => []
      end
    | None => []
    end in
  fontInfo <-- getFontInfo config ;;
  let files1 :=
    match fontInfo with
    | Some info => files0 ++ [FontResource info]
    | None => files0
    end in
  emojiCollection <-- getEmojiCollectionInfo config ;;
  let files2 := snd (foldl addEmojiFile (∅, files1) emojiCollection) in
  let skin := theme ← (config ≫= cfg_theme); theme_skin theme in
  let files3 :=
    files2 ++ backgroundFile (skin ≫= skin_light) (js "background_light.raw") (js "light")
           ++ backgroundFile (skin ≫= skin_dark) (js "background_dark.raw") (js "dark") in
  Ok {| res_files := files3;
        res_indexJson := indexJson;
        res_config := default {| cfg_chip := None; cfg_theme := None |} config |}.

(** *** preprocessCustomFonts: the request to the font converter

    [String.prototype.replace] with the pattern [/\.bin$/]. *)
Definition replace_bin_suffix (s : jsstring) : jsstring :=
  let n := (length s - 4)%nat in
  if (4 <=? length s)%nat && bool_decide (drop n s = js ".bin") then take n s else s.

Record ConvertOptions : Type := {
  co_fontFile : File;
  co_fontName : jsstring;
  co_fontSize : option Z;
  co_bpp : option Z;
  co_charset : option jsstring;
  co_symbols : jsstring;
  co_range : jsstring;
  co_compression : bool
}.

(** The [config] of a font information has the properties [size], [bpp]
    and [charset] and no others, so that [config.symbols] and
    [config.range] are [undefined]. The request is made when the font is
    a custom one that has not been converted yet. *)
Definition convertOptions (config : option Config) (converted : gset jsstring)
  : result (option ConvertOptions) :=
  fontInfo <-- getFontInfo config ;;
  match fontInfo with
  | Some (CustomFontInfo filename source fontSize bpp charset) =>
    if bool_decide (filename ∈ converted) then Ok None
    else
      Ok (Some {| co_fontFile := source;
                  co_fontName := replace_bin_suffix filename;
                  co_fontSize := fontSize;
                  co_bpp := bpp;
                  co_charset := charset;
                  co_symbols := str_or None (js "");
                  co_range := str_or None (js "");
                  co_compression := false |})
  | _ => Ok None
  end.

End WithHost.

End AssetsBuilder.

(** * CBinFont (the CBIN font writer) *)

(** [cmap_build_subtables], imported by CBinFont.js from a file that is not
    part of the sources at hand: from the code points of the font to the
    plan, a list of [format, codepoints] pairs. *)
Class CmapPlanner : Type := {
  cmap_build_subtables : list Z -> list (string * list Z)
}.

Module CBinFont.

Record BBox : Type := {
  bbox_x : Z;
  bbox_y : Z;
  bbox_width : Z;
  bbox_height : Z
}.

Record Glyph : Type := {
  code : Z;
  advanceWidth : Q;
  bbox : BBox;
  pixels : list (list Z)
}.

Record FontData : Type := {
  glyphs : option (list Glyph);
  ascent : Z;
  descent : Z;
  subpixels_mode : option Z;
  underlinePosition : option Z;
  underlineThickness : option Z
}.

Record Options : Type := {
  bpp : Z;
  no_compress : bool;
  no_prefilter : bool;
  lv_font_name : option string;
  output : option string
}.

(** The font object; [glyph_id] is filled in by the constructor of the
    cmap table. *)
Record t : Type := {
  src : FontData;
  opts : Options;
  font_name : string;
  glyph_id : gmap Z nat
}.

Definition ptr_size : nat := 4.

Definition truthy_string (s : option string) : option string :=
  match s with
  | Some EmptyString => None
  | other => other
  end.

Definition quote : string := String (ascii_of_nat 34) EmptyString.

Definition bpp3_message : string :=
  ("LVGL supports " ++ quote ++ "--bpp 3" ++ quote ++ " with compression only")%string.

(** [f.glyph_id[glyph.code] = index + 1] for each glyph in array order *)
Fixpoint assignGlyphIds (gs : list Glyph) (index : nat) (ids : gmap Z nat) : gmap Z nat :=
  match gs with
  | [] => ids
  | glyph :: rest => assignGlyphIds rest (S index) (<[code glyph := (index + 1)%nat]> ids)
  end.

Definition buildGlyphIdMap (fontData : FontData) : gmap Z nat :=
  match glyphs fontData with
  | Some gs => assignGlyphIds gs 0 ∅
  | None => ∅
  end.

Definition constructor (fontData : FontData) (options : Options) : result t :=
  let name :=
    match truthy_string (lv_font_name options) with
    | Some n => n
    | None => default "font"%string (truthy_string (output options))
    end in
  if (bpp options =? 3) && no_compress options then Err (AppError bpp3_message)
  else Ok {| src := fontData; opts := options; font_name := name;
             glyph_id := buildGlyphIdMap fontData |}.

(** *** DataView writes, little-endian *)

Definition setUint8 (buf : list byte) (pos : nat) (v : Z) : result (list byte) :=
  u8array_set buf (le_bytes 1 v) pos.
Definition setInt8 := setUint8.
Definition setUint16 (buf : list byte) (pos : nat) (v : Z) : result (list byte) :=
  u8array_set buf (le_bytes 2 v) pos.
Definition setInt16 := setUint16.
Definition setUint32 (buf : list byte) (pos : nat) (v : Z) : result (list byte) :=
  u8array_set buf (le_bytes 4 v) pos.
Definition setInt32 := setUint32.

Definition writePTR (buf : list byte) (val : Z) (pos : nat) : result (list byte) :=
  if decide (ptr_size = 4%nat) then setUint32 buf pos val
  else (b <-- setUint32 buf pos val ;; setUint32 b (pos + 4) 0).

Definition concatArrayBuffers (buffers : list (list byte)) : list byte := concat buffers.

Definition balign4 (buf : list byte) : list byte :=
  let remainder := (length buf mod 4)%nat in
  if decide (remainder = 0%nat) then buf
  else concatArrayBuffers [buf; zeros (4 - remainder)].

Definition align4 := balign4.

(** *** SimpleBitStream *)

Record SimpleBitStream : Type := {
  buffer : list byte;
  byteIndex : nat;
  bitIndex : Z;
  bigEndian : bool
}.

Definition newBitStream (buf : list byte) : SimpleBitStream :=
  {| buffer := buf; byteIndex := 0; bitIndex := 0; bigEndian := true |}.

(** [buffer[i] |= v]; an index past the end reads [undefined] and the store
    is dropped. *)
Definition or_into (buf : list byte) (i : nat) (v : Z) : list byte :=
  let old := match buf !! i with Some b => b2z b | None => 0 end in
  u8array_store buf i (js_or old v).

(** The [while (bits > 0)] loop; every turn writes at least one bit, so
    [bits] turns are enough. *)
Fixpoint writeBits_loop (fuel : nat) (bs : SimpleBitStream) (value bits : Z)
  : SimpleBitStream :=
  match fuel with
  | O => bs
  | S fuel' =>
    if 0 <? bits then
      let bitsToWrite := Z.min (8 - bitIndex bs) bits in
      let mask := js_shl 1 bitsToWrite - 1 in
      let bitValue := js_and (js_shr value (bits - bitsToWrite)) mask in
      let buf :=
        if bigEndian bs
        then or_into (buffer bs) (byteIndex bs)
                     (js_shl bitValue (8 - bitIndex bs - bitsToWrite))
        else or_into (buffer bs) (byteIndex bs) (js_shl bitValue (bitIndex bs)) in
      let bitIndex1 := bitIndex bs + bitsToWrite in
      let bs1 :=
        if 8 <=? bitIndex1
        then {| buffer := buf; byteIndex := S (byteIndex bs); bitIndex := 0;
                bigEndian := bigEndian bs |}
        else {| buffer := buf; byteIndex := byteIndex bs; bitIndex := bitIndex1;
                bigEndian := bigEndian bs |} in
      writeBits_loop fuel' bs1 value (bits - bitsToWrite)
    else bs
  end.

Definition writeBits (bs : SimpleBitStream) (value bits : Z) : SimpleBitStream :=
  writeBits_loop (Z.to_nat bits) bs value bits.

Definition getUsedBytes (bs : SimpleBitStream) : nat :=
  if 0 <? bitIndex bs then (byteIndex bs + 1)%nat else byteIndex bs.

(** *** The glyf table *)

(** [p >>> n] *)
Definition js_ushr (p n : Z) : Z := Z.shiftr (p mod 2 ^ 32) (n mod 32).

Definition getCompressionCode (options : Options) : Z :=
  if no_compress options then 0
  else if bpp options =? 1 then 0
  else if no_prefilter options then 2
  else 1.

Definition pixelsToBpp (options : Options) (px : list (list Z)) : list (list Z) :=
  map (fun line => map (fun p => js_ushr p (8 - bpp options)) line) px.

Definition storePixelsRaw (options : Options) (bitStream : SimpleBitStream)
    (px : list (list Z)) : SimpleBitStream :=
  foldl (fun bs line => foldl (fun bs' p => writeBits bs' p (bpp options)) bs line)
        bitStream px.

Definition storePixelsCompressed := storePixelsRaw.

Definition storePixels (options : Options) (bitStream : SimpleBitStream)
    (px : list (list Z)) : SimpleBitStream :=
  if getCompressionCode options =? 0 then storePixelsRaw options bitStream px
  else storePixelsCompressed options bitStream px.

(** [new ArrayBuffer(n)] throws on a negative length. *)
Definition newArrayBuffer (n : Z) : result (list byte) :=
  if n <? 0 then Err RangeError else Ok (zeros (Z.to_nat n)).

Definition lv_bitmap (options : Options) (glyph : Glyph) : result (list byte) :=
  let bufSize := 100 + bbox_width (bbox glyph) * bbox_height (bbox glyph) * 4 in
  buf <-- newArrayBuffer bufSize ;;
  let bs := newBitStream buf in
  let px := pixelsToBpp options (pixels glyph) in
  let bs := storePixels options bs px in
  let glyph_bitmap := zeros (getUsedBytes bs) in
  u8array_set glyph_bitmap (take (getUsedBytes bs) (buffer bs)) 0.

Record LvData : Type := {
  bin : list byte;
  offset : nat;
  glyph : Glyph
}.

(** [arr[i] = v] on an array that may have holes: it grows to reach [i]. *)
Definition array_assign {A} (arr : list (option A)) (i : nat) (v : A) : list (option A) :=
  if decide (i < length arr)%nat then <[i := Some v]> arr
  else arr ++ replicate (i - length arr) None ++ [Some v].

Definition compileGlyph (f : t) (st : list (option LvData) * nat) (g : Glyph)
  : result (list (option LvData) * nat) :=
  let '(lv_data, off) := st in
  b <-- lv_bitmap (opts f) g ;;
  let lv_data' :=
    match glyph_id f !! code g with
    | Some id => array_assign lv_data id {| bin := b; offset := off; glyph := g |}
    | None => lv_data
    end in
  Ok (lv_data', (off + length b)%nat).

Definition lv_compile (f : t) : result (list (option LvData)) :=
  match glyphs (src f) with
  | None => Err TypeError
  | Some gs => st <-- for_each (compileGlyph f) gs ([], 0%nat) ;; Ok (fst st)
  end.

(** [Math.round]: the nearest integer, a tie going up. A finite double is
    a rational number, and scaling it by 16 is exact. *)
Definition Math_round (q : Q) : Z := Qfloor (q + (1 # 2)).

Definition writeGlyphDsc (st : list byte * nat) (d : LvData) : result (list byte * nat) :=
  let '(view, i) := st in
  let adv_w := Math_round (advanceWidth (glyph d) * (16 # 1)) in
  v1 <-- setUint32 view (i * 16) (Z.of_nat (offset d)) ;;
  v2 <-- setUint32 v1 (i * 16 + 4) adv_w ;;
  v3 <-- setUint16 v2 (i * 16 + 8) (bbox_width (bbox (glyph d))) ;;
  v4 <-- setUint16 v3 (i * 16 + 10) (bbox_height (bbox (glyph d))) ;;
  v5 <-- setInt16 v4 (i * 16 + 12) (bbox_x (bbox (glyph d))) ;;
  v6 <-- setInt16 v5 (i * 16 + 14) (bbox_y (bbox (glyph d))) ;;
  Ok (v6, S i).

(** [GlyfTable.toCBin]: [forEach] visits the entries that are present, in
    index order, and [i] counts the visits from 1. *)
Definition glyf_toCBin (f : t) : result (list byte * list byte) :=
  lv_data <-- lv_compile f ;;
  let validBins := map bin (omap id (drop 1 lv_data)) in
  let bitmap_buf := balign4 (concatArrayBuffers validBins) in
  let glyph_dsc_buf := zeros (length lv_data * 16 + 16) in
  st <-- for_each writeGlyphDsc (omap id lv_data) (glyph_dsc_buf, 1%nat) ;;
  Ok (bitmap_buf, fst st).

(** *** The cmap table *)

Definition lv_format2int (name : string) : Z :=
  if String.eqb name "format0" then 0
  else if String.eqb name "sparse" then 1
  else if String.eqb name "format0_tiny" then 2
  else if String.eqb name "sparse_tiny" then 3
  else -1.

Definition glyphByCode (f : t) (c : Z) : option Glyph :=
  match glyphs (src f) with
  | Some gs => find (fun g => bool_decide (code g = c)) gs
  | None => None
  end.

(** A number that may be [undefined] or NaN ([None]); every typed array and
    [DataView] stores such a value as 0. *)
Definition stored (v : option Z) : Z := default 0 v.

(** [a - b], NaN when an operand is [undefined] *)
Definition js_sub (a b : option Z) : option Z :=
  match a, b with
  | Some x, Some y => Some (x - y)
  | _, _ => None
  end.

(** [f.glyph_id[code] || 0], then the offset from [start_glyph_id] *)
Definition collect_format0_data (f : t) (min_code max_code : Z) (start_glyph_id : option Z)
  : list (option Z) :=
  map (fun c =>
         let gid := Z.of_nat (default 0%nat (glyph_id f !! c)) in
         if gid =? 0 then Some 0 else js_sub (Some gid) start_glyph_id)
      (seqZ min_code (max_code - min_code + 1)).

(** [d < 0 || d > 65535]; false on NaN *)
Definition out_of_u16 (d : option Z) : bool :=
  match d with
  | Some v => (v <? 0) || (65535 <? v)
  | None => false
  end.

Definition collectSparseEntry (f : t) (first : Z) (start_glyph_id : option Z)
    (st : list (option Z) * list (option Z)) (c : Z)
  : result (list (option Z) * list (option Z)) :=
  let '(codepoints_list, ids_list) := st in
  match glyphByCode f c with
  | None => Err TypeError
  | Some g =>
    let gid := Z.of_nat <$> glyph_id f !! code g in
    let code_delta := Some (c - first) in
    let id_delta := js_sub gid start_glyph_id in
    if out_of_u16 code_delta then Err (Error "Codepoint delta out of range")
    else if out_of_u16 id_delta then Err (Error "Glyph ID delta out of range")
    else Ok (codepoints_list ++ [code_delta], ids_list ++ [id_delta])
  end.

Definition collect_sparse_data (f : t) (codepoints : list Z) (start_glyph_id : option Z)
  : result (list (option Z) * list (option Z)) :=
  for_each (collectSparseEntry f (default 0 (head codepoints)) start_glyph_id)
           codepoints ([], []).

Definition uint8ArrayToBuffer (d : list (option Z)) : list byte :=
  map (fun v => u8 (stored v)) d.
Definition uint16ArrayToBuffer (d : list (option Z)) : list byte :=
  concat (map (fun v => le_bytes 2 (stored v)) d).

(** The loop variables of [CmapTable.toCBin]. *)
Record CmapState : Type := {
  cmaps_buf : list byte;
  arr_list : list (list byte);
  total_data_offset : nat;
  idx : nat
}.

(** What one subtable contributes: [unicode_ptr], [glyph_ptr],
    [entries_count], [has_charcodes], [has_ids]. *)
Definition subtablePayload (f : t) (format : string) (codepoints : list Z)
    (min_code max_code : Z) (start_glyph_id : option Z)
  : result (list byte * list byte * nat * bool * bool) :=
  if String.eqb format "format0_tiny" then Ok ([], [], 0%nat, false, false)
  else if String.eqb format "format0" then
    let d := collect_format0_data f min_code max_code start_glyph_id in
    Ok ([], balign4 (uint8ArrayToBuffer d), length d, false, true)
  else if String.eqb format "sparse_tiny" then
    d <-- collect_sparse_data f codepoints start_glyph_id ;;
    Ok (balign4 (uint16ArrayToBuffer (fst d)), [], length (fst d), true, false)
  else
    d <-- collect_sparse_data f codepoints start_glyph_id ;;
    Ok (balign4 (uint16ArrayToBuffer (fst d)), align4 (uint16ArrayToBuffer (snd d)),
        length (fst d), true, true).

Definition cmap_size (ptr : nat) : nat :=
  (12 + ptr * 2 + (if decide (ptr = 4%nat) then 0 else 4))%nat.

Definition writeSubtable (f : t) (st : CmapState) (entry : string * list Z)
  : result CmapState :=
  let '(format, codepoints) := entry in
  match codepoints with
  | [] => Err TypeError
  | min_code :: _ =>
    match glyphByCode f min_code with
    | None => Err TypeError
    | Some g =>
      let start_glyph_id := Z.of_nat <$> glyph_id f !! code g in
      let max_code := default min_code (last codepoints) in
      p <-- subtablePayload f format codepoints min_code max_code start_glyph_id ;;
      let '(unicode_ptr, glyph_ptr, entries_count, has_charcodes, has_ids) := p in
      let ofs := (idx st * cmap_size ptr_size)%nat in
      b1 <-- setUint32 (cmaps_buf st) ofs min_code ;;
      let ofs := (ofs + 4)%nat in
      b2 <-- setUint16 b1 ofs (max_code - min_code + 1) ;;
      let ofs := (ofs + 2)%nat in
      b3 <-- setUint16 b2 ofs (stored start_glyph_id) ;;
      let ofs := (ofs + 2)%nat in
      b4 <-- writePTR b3 (if has_charcodes then Z.of_nat (total_data_offset st) else 0) ofs ;;
      let ofs := (ofs + ptr_size)%nat in
      let total1 := (total_data_offset st + length unicode_ptr)%nat in
      b5 <-- writePTR b4 (if has_ids then Z.of_nat total1 else 0) ofs ;;
      let ofs := (ofs + ptr_size)%nat in
      let total2 := (total1 + length glyph_ptr)%nat in
      b6 <-- setUint16 b5 ofs (Z.of_nat entries_count) ;;
      let ofs := (ofs + 2)%nat in
      b7 <-- setUint8 b6 ofs (lv_format2int format) ;;
      Ok {| cmaps_buf := b7;
            arr_list := arr_list st ++ [unicode_ptr; glyph_ptr];
            total_data_offset := total2;
            idx := S (idx st) |}
    end
  end.

Section WithPlanner.
Context `{CmapPlanner}.

Definition subtables_plan (f : t) : list (string * list Z) :=
  cmap_build_subtables (map code (default [] (glyphs (src f)))).

Definition getMapNumber (f : t) : nat :=
  match glyphs (src f) with
  | None | Some [] => 0%nat
  | Some _ => length (subtables_plan f)
  end.

Definition cmap_toCBin (f : t) (ptr : nat) : result (list byte) :=
  match glyphs (src f) with
  | None | Some [] => Ok []
  | Some _ =>
    let plan := subtables_plan f in
    let buf := zeros (length plan * cmap_size ptr) in
    st <-- for_each (writeSubtable f) plan
             {| cmaps_buf := buf; arr_list := [];
                total_data_offset := length buf; idx := 0 |} ;;
    Ok (concatArrayBuffers (cmaps_buf st :: arr_list st))
  end.

(** Kerning is not supported: an empty table, and a NULL reference. *)
Definition kern_toCBin (f : t) (ptr : nat) : list byte := [].
Definition kern_scale : Z := 0.
Definition kern_dsc_is_null : bool := true.
Definition kern_classes : Z := 0.

Definition toCBin (f : t) : result (list byte) :=
  gl <-- glyf_toCBin f ;;
  let '(bitmap_buf, glyph_dsc_buf) := gl in
  cmaps <-- cmap_toCBin f ptr_size ;;
  let kern_buf := kern_toCBin f ptr_size in
  let sz_font := (12 + ptr_size * 6 + (if decide (ptr_size = 4%nat) then 0 else 4))%nat in
  let sz_font_dsc := (8 + ptr_size * 4)%nat in
  let head := zeros (sz_font + sz_font_dsc) in
  let pos := 0%nat in
  h <-- writePTR head 0 pos ;; let pos := (pos + ptr_size)%nat in
  h <-- writePTR h 0 pos ;; let pos := (pos + ptr_size)%nat in
  h <-- writePTR h 0 pos ;; let pos := (pos + ptr_size)%nat in
  h <-- setUint32 h pos (ascent (src f) - descent (src f)) ;; let pos := (pos + 4)%nat in
  h <-- setInt32 h pos (- descent (src f)) ;; let pos := (pos + 4)%nat in
  h <-- setUint8 h pos (default 0 (subpixels_mode (src f))) ;; let pos := (pos + 1)%nat in
  h <-- setInt8 h pos (default 0 (underlinePosition (src f))) ;; let pos := (pos + 1)%nat in
  h <-- setInt8 h pos (default 0 (underlineThickness (src f))) ;; let pos := (pos + 1)%nat in
  let pos := (pos + 1 + (if decide (ptr_size = 4%nat) then 0 else 4))%nat in
  h <-- writePTR h (Z.of_nat sz_font) pos ;; let pos := (pos + ptr_size)%nat in
  h <-- writePTR h 0 pos ;; let pos := (pos + ptr_size)%nat in
  h <-- writePTR h 0 pos ;; let pos := (pos + ptr_size)%nat in
  h <-- writePTR h (Z.of_nat (sz_font_dsc + length kern_buf)) pos ;;
  let pos := (pos + ptr_size)%nat in
  h <-- writePTR h (Z.of_nat (sz_font_dsc + length kern_buf + length bitmap_buf)) pos ;;
  let pos := (pos + ptr_size)%nat in
  h <-- writePTR h (Z.of_nat (sz_font_dsc + length kern_buf + length bitmap_buf
                              + length glyph_dsc_buf)) pos ;;
  let pos := (pos + ptr_size)%nat in
  h <-- writePTR h (if kern_dsc_is_null then 0 else Z.of_nat sz_font_dsc) pos ;;
  let pos := (pos + ptr_size)%nat in
  h <-- setUint16 h pos kern_scale ;; let pos := (pos + 2)%nat in
  let cmap_num := Z.of_nat (getMapNumber f) in
  let bitmap_format := getCompressionCode (opts f) in
  h <-- setUint16 h pos
          (js_or (js_or (js_or cmap_num (js_shl (bpp (opts f)) 9))
                        (js_shl kern_classes (9 + 4)))
                 (js_shl bitmap_format (9 + 4 + 1))) ;;
  Ok (concatArrayBuffers [h; kern_buf; bitmap_buf; glyph_dsc_buf; cmaps]).

(** [write_cbin(args, fontData)] of CBinWriter.js *)
Definition write_cbin (args : Options) (fontData : FontData)
  : result (string * list byte) :=
  match truthy_string (output args) with
  | None => Err (AppError ("Output is required for " ++ quote ++ "cbin" ++ quote ++ " writer"))
  | Some out =>
    font <-- constructor fontData args ;;
    bytes <-- toCBin font ;;
    Ok (out, bytes)
  end.

End WithPlanner.

End CBinFont.

(** * Layouts

    The byte layouts that the encoders are proved to produce, and the
    reader of srmodels.bin that the round trip is stated with. *)

(** A comparator read as an order: [cmp a b <= 0]. *)
Definition cmp_le {A : Type} (cmp : A -> A -> Z) (a b : A) : Prop := cmp a b <= 0.

(** The collation compares any two strings one way or the other. *)
Class CollationTotal `{Host} : Prop := {
  lc_total : forall a b, localeCompare a b <= 0 \/ localeCompare b a <= 0
}.


Section SpiffsLayout.
Import SpiffsGenerator.
Context `{Host}.

Definition size_ok (f : FileEntry) : Prop := size f = length (data f).

(** The bytes a file occupies in the data region: marker and data. *)
Definition span (f : FileEntry) : nat := (2 + size f)%nat.

(** One row of the mapping table. *)
Definition tableRow (fi : FileInfo) : list byte :=
  packString (fi_filename fi) 32 ++ le_bytes 4 (Z.of_nat (fi_size fi))
    ++ le_bytes 4 (Z.of_nat (fi_offset fi))
    ++ le_bytes 2 (fi_width fi) ++ le_bytes 2 (fi_height fi).

(** One file of the data region. *)
Definition dataBlock (fi : FileInfo) : list byte := [u8 90; u8 90] ++ fi_data fi.

Definition infoOf (start : nat) (fs : list FileEntry) : list FileInfo :=
  fst (collectFileInfo fs start).

Definition info_ok (fi : FileInfo) : Prop := fi_size fi = length (fi_data fi).

Definition tableBytes (infos : list FileInfo) : list byte := concat (map tableRow infos).

Definition dataRegion (infos : list FileInfo) : list byte := concat (map dataBlock infos).

(** The whole file: three header words, the table, the data region. *)
Definition container (infos : list FileInfo) : list byte :=
  let combined := tableBytes infos ++ dataRegion infos in
  le_bytes 4 (Z.of_nat (length infos))
    ++ le_bytes 4 (byte_sum combined mod 65536)
    ++ le_bytes 4 (Z.of_nat (length combined))
    ++ combined.

(** The sort key of a file: what follows the last dot, and the name
    without its final extension. *)
Definition sortKey (f : FileEntry) : jsstring * jsstring :=
  (last_segment (filename f), strip_extension (filename f)).

(** Two strings that the collation does not tell apart, and two files whose
    sort keys it does not tell apart. *)
Definition collationTie (a b : jsstring) : Prop :=
  localeCompare a b <= 0 /\ localeCompare b a <= 0.

Definition keysTie (f g : FileEntry) : Prop :=
  collationTie (sortKey f).1 (sortKey g).1 /\ collationTie (sortKey f).2 (sortKey g).2.

#[global] Instance keysTie_dec (f g : FileEntry) : Decision (keysTie f g).
Proof. unfold keysTie, collationTie. apply _. Defined.



End SpiffsLayout.

Section WakenetLayout.
Import WakenetModelPacker.

Definition filesSize (fs : list (jsstring * list byte)) : nat :=
  sum_list (map (fun f => length (snd f)) fs).

Definition modelHeaderSize (m : ModelData) : nat :=
  (32 + 4 + length (files m) * (32 + 4 + 4))%nat.

(** The file records of one model, the first file's data at [start]. *)
Fixpoint fileHeaders (start : nat) (fs : list (jsstring * list byte)) : list byte :=
  match fs with
  | [] => []
  | (fileName, fileData) :: rest =>
    packString fileName 32 ++ le_bytes 4 (Z.of_nat start)
      ++ le_bytes 4 (Z.of_nat (length fileData))
      ++ fileHeaders (start + length fileData) rest
  end.

Fixpoint modelHeaders (start : nat) (ms : list ModelData) : list byte :=
  match ms with
  | [] => []
  | m :: rest =>
    packString (name m) 32 ++ le_bytes 4 (Z.of_nat (length (files m)))
      ++ fileHeaders start (files m)
      ++ modelHeaders (start + filesSize (files m)) rest
  end.

Definition modelBytes (ms : list ModelData) : list byte :=
  concat (map (fun m => concat (map snd (files m))) ms).

Definition headerLength (ms : list ModelData) : nat :=
  (4 + sum_list (map modelHeaderSize ms))%nat.

(** The whole blob: count, headers, data. *)
Definition modelBlob (ms : list ModelData) : list byte :=
  le_bytes 4 (Z.of_nat (length ms)) ++ modelHeaders (headerLength ms) ms ++ modelBytes ms.

End WakenetLayout.

(** The reader follows the documented layout of srmodels.bin: the model
    count, then per model a 32-byte name and a file count, then per file a
    32-byte name, the start offset from the beginning of the blob, and the
    length. A name field is read up to its first zero byte. *)

Fixpoint readName (field : list byte) : jsstring :=
  match field with
  | [] => []
  | b :: rest => if b2z b =? 0 then [] else b2z b :: readName rest
  end.

Definition readU32 (blob : list byte) (pos : nat) : nat :=
  Z.to_nat (le_value (slice pos 4 blob)).

Fixpoint readFiles (blob : list byte) (pos count : nat)
  : list (jsstring * list byte) * nat :=
  match count with
  | O => ([], pos)
  | S count' =>
    let fileName := readName (slice pos 32 blob) in
    let start := readU32 blob (pos + 32) in
    let len := readU32 blob (pos + 36) in
    let '(rest, pos') := readFiles blob (pos + 40) count' in
    ((fileName, slice start len blob) :: rest, pos')
  end.

Fixpoint readModelsFrom (blob : list byte) (pos count : nat)
  : list (jsstring * list (jsstring * list byte)) :=
  match count with
  | O => []
  | S count' =>
    let modelName := readName (slice pos 32 blob) in
    let fileCount := readU32 blob (pos + 32) in
    let '(fs, pos') := readFiles blob (pos + 36) fileCount in
    (modelName, fs) :: readModelsFrom blob pos' count'
  end.

Definition readModels (blob : list byte) : list (jsstring * list (jsstring * list byte)) :=
  readModelsFrom blob 4 (readU32 blob 0).

(** A name that fits its field: at most 32 code units, each a non-zero
    single byte. *)
Definition name_ok (s : jsstring) : Prop :=
  (length s <= 32)%nat /\ Forall (fun c => 1 <= c <= 255) s.

Section WakenetNames.
Import WakenetModelPacker.

Definition file_names_ok (fs : list (jsstring * list byte)) : Prop :=
  Forall (fun f => name_ok (fst f)) fs.

Definition model_names_ok (ms : list ModelData) : Prop :=
  Forall (fun m => name_ok (name m) /\ file_names_ok (files m)) ms.

End WakenetNames.

Section ImageLayout.
Import AssetsBuilder.

(** The colour components of the canvas pixels, four bytes apiece. *)
Fixpoint rgbQuads (pixels : list byte) : list (byte * byte * byte) :=
  match pixels with
  | r :: g :: b :: _ :: rest => (r, g, b) :: rgbQuads rest
  | _ => []
  end.

(** [(r >> 3) << 11 | (g >> 2) << 5 | (b >> 3)] on 8-bit components *)
Definition pack565 (r g b : byte) : Z :=
  Z.lor (Z.lor (Z.shiftl (Z.shiftr (b2z r) 3) 11) (Z.shiftl (Z.shiftr (b2z g) 2) 5))
        (Z.shiftr (b2z b) 3).

(** The 28 bytes of [lv_image_dsc_t] that precede the pixels. *)
Definition imageHeader (w h : nat) : list byte :=
  [u8 LV_IMAGE_HEADER_MAGIC; u8 LV_COLOR_FORMAT_RGB565] ++ le_bytes 2 0
    ++ le_bytes 2 (Z.of_nat w) ++ le_bytes 2 (Z.of_nat h)
    ++ le_bytes 2 (2 * Z.of_nat w) ++ le_bytes 2 0
    ++ le_bytes 4 (2 * Z.of_nat w * Z.of_nat h)
    ++ le_bytes 4 28
    ++ le_bytes 4 0 ++ le_bytes 4 0.

Definition pixelWord (q : byte * byte * byte) : list byte :=
  let '(r, g, b) := q in le_bytes 2 (pack565 r g b).

Definition pixelBytes (pixels : list byte) : list byte :=
  concat (map pixelWord (rgbQuads pixels)).

End ImageLayout.

Section FontLayout.
Import CBinFont.

(** What [collect_format0_data] pushes for the code [c]. *)
Definition format0Delta (f : t) (start c : Z) : Z :=
  let gid := Z.of_nat (default 0%nat (glyph_id f !! c)) in
  if gid =? 0 then 0 else gid - start.

(** The bitmap of a glyph (empty when [lv_bitmap] throws). *)
Definition bitmapOf (options : Options) (g : Glyph) : list byte :=
  match lv_bitmap options g with
  | Ok b => b
  | Err _ => []
  end.

(** The bounding box has a width and a height that are not negative. *)
Definition bbox_ok (g : Glyph) : Prop :=
  0 <= bbox_width (bbox g) /\ 0 <= bbox_height (bbox g).

(** The entries of [lv_data] for the glyphs in array order, the first
    bitmap at [off]. *)
Fixpoint lvEntries (options : Options) (gs : list Glyph) (off : nat) : list LvData :=
  match gs with
  | [] => []
  | g :: rest =>
    {| bin := bitmapOf options g; offset := off; glyph := g |}
      :: lvEntries options rest (off + length (bitmapOf options g))
  end.

(** [lv_data]: index 0 is a hole as soon as there is an entry. *)
Definition sparseArray (es : list LvData) : list (option LvData) :=
  match es with
  | [] => []
  | _ => None :: map Some es
  end.

(** One 16-byte glyph descriptor. *)
Definition dscRecord (d : LvData) : list byte :=
  le_bytes 4 (Z.of_nat (offset d))
    ++ le_bytes 4 (Math_round (advanceWidth (glyph d) * (16 # 1)))
    ++ le_bytes 2 (bbox_width (bbox (glyph d)))
    ++ le_bytes 2 (bbox_height (bbox (glyph d)))
    ++ le_bytes 2 (bbox_x (bbox (glyph d)))
    ++ le_bytes 2 (bbox_y (bbox (glyph d))).

(** The bits of an [n]-bit value, the most significant first. *)
Definition bitsOf (n : nat) (v : Z) : list bool :=
  map (fun i => Z.testbit v (Z.of_nat (n - 1 - i))) (seq 0 n).

(** Bit [k] of a byte sequence, the most significant bit of a byte first. *)
Definition streamBit (bytes : list byte) (k : nat) : bool :=
  match bytes !! (k / 8)%nat with
  | Some b => Z.testbit (b2z b) (7 - Z.of_nat (k mod 8))
  | None => false
  end.

(** The number spelled by the [n] bits from bit [pos] on. *)
Fixpoint readBits (bytes : list byte) (pos n : nat) : Z :=
  match n with
  | O => 0
  | S n' => (if streamBit bytes pos then 2 ^ Z.of_nat n' else 0) + readBits bytes (S pos) n'
  end.

(** The bit stream holds the bits [bl], and nothing but zeros after them. *)
Definition holdsBits (bs : SimpleBitStream) (bl : list bool) : Prop :=
  (8 * byteIndex bs + Z.to_nat (bitIndex bs) = length bl)%nat
  /\ 0 <= bitIndex bs < 8
  /\ bigEndian bs = true
  /\ forall k, streamBit (buffer bs) k = default false (bl !! k).

(** The pixel values of a glyph in the order in which they are stored. *)
Definition pixelValues (options : Options) (g : Glyph) : list Z :=
  concat (pixelsToBpp options (pixels g)).

(** What [CmapTable.toCBin] works out for one subtable of the plan before
    it writes the record: the range, the first glyph id, the two data
    arrays, the number of entries and the format. *)
Record Subtable : Type := {
  st_min : Z;
  st_range : Z;
  st_start : Z;
  st_unicode : list byte;
  st_glyph : list byte;
  st_count : nat;
  st_has_codes : bool;
  st_has_ids : bool;
  st_type : Z
}.

Definition planSubtable (f : t) (entry : string * list Z) : result Subtable :=
  let '(format, codepoints) := entry in
  match codepoints with
  | [] => Err TypeError
  | min_code :: _ =>
    match glyphByCode f min_code with
    | None => Err TypeError
    | Some g =>
      let start_glyph_id := Z.of_nat <$> glyph_id f !! code g in
      let max_code := default min_code (last codepoints) in
      p <-- subtablePayload f format codepoints min_code max_code start_glyph_id ;;
      let '(unicode_ptr, glyph_ptr, entries_count, has_charcodes, has_ids) := p in
      Ok {| st_min := min_code;
            st_range := max_code - min_code + 1;
            st_start := stored start_glyph_id;
            st_unicode := unicode_ptr;
            st_glyph := glyph_ptr;
            st_count := entries_count;
            st_has_codes := has_charcodes;
            st_has_ids := has_ids;
            st_type := lv_format2int format |}
    end
  end.

Fixpoint planSubtables (f : t) (plan : list (string * list Z)) : result (list Subtable) :=
  match plan with
  | [] => Ok []
  | entry :: rest =>
    s <-- planSubtable f entry ;;
    ss <-- planSubtables f rest ;;
    Ok (s :: ss)
  end.

(** The 20-byte record of a subtable whose data starts at [off]. *)
Definition cmapRecord (s : Subtable) (off : nat) : list byte :=
  le_bytes 4 (st_min s) ++ le_bytes 2 (st_range s) ++ le_bytes 2 (st_start s)
    ++ le_bytes 4 (if st_has_codes s then Z.of_nat off else 0)
    ++ le_bytes 4 (if st_has_ids s then Z.of_nat (off + length (st_unicode s)) else 0)
    ++ le_bytes 2 (Z.of_nat (st_count s)) ++ le_bytes 1 (st_type s) ++ zeros 1.

Definition subtableData (s : Subtable) : list byte := st_unicode s ++ st_glyph s.

Fixpoint cmapRecords (ss : list Subtable) (off : nat) : list byte :=
  match ss with
  | [] => []
  | s :: rest => cmapRecord s off ++ cmapRecords rest (off + length (subtableData s))
  end.

(** The last half-word of the head: the number of cmap subtables, the bits
    per pixel, the kerning classes and the bitmap format. *)
Definition formatWord (cmap_num bpp bitmap_format : Z) : Z :=
  js_or (js_or (js_or cmap_num (js_shl bpp 9)) (js_shl kern_classes (9 + 4)))
        (js_shl bitmap_format (9 + 4 + 1)).

(** The 60 bytes of [lv_font_t] and [lv_font_fmt_txt_dsc_t] for 32-bit
    pointers, before a bitmap section and a descriptor section of the given
    lengths. *)
Definition fontHead (f : t) (bitmap_len dsc_len : nat) : list byte :=
  zeros 12
    ++ le_bytes 4 (ascent (src f) - descent (src f))
    ++ le_bytes 4 (- descent (src f))
    ++ le_bytes 1 (default 0 (subpixels_mode (src f)))
    ++ le_bytes 1 (default 0 (underlinePosition (src f)))
    ++ le_bytes 1 (default 0 (underlineThickness (src f)))
    ++ zeros 1
    ++ le_bytes 4 36 ++ zeros 8
    ++ le_bytes 4 24
    ++ le_bytes 4 (Z.of_nat (24 + bitmap_len))
    ++ le_bytes 4 (Z.of_nat (24 + bitmap_len + dsc_len))
    ++ le_bytes 4 0
    ++ le_bytes 2 0.

End FontLayout.

(** [this.models.get(modelName)?.get(fileName)] *)
Definition lookupFile (p : WakenetModelPacker.t) (modelName fileName : jsstring)
  : option (list byte) :=
  match WakenetModelPacker.map_get (WakenetModelPacker.models p) modelName with
  | Some fs => WakenetModelPacker.map_get fs fileName
  | None => None
  end.

(** The keys of the model map, and of every file map, are distinct. *)
Definition keys_distinct (p : WakenetModelPacker.t) : Prop :=
  NoDup (map fst (WakenetModelPacker.models p))
  /\ Forall (fun mf => NoDup (map fst (snd mf))) (WakenetModelPacker.models p).

(** The reader of assets.bin follows the format comment at the head of
    SpiffsGenerator: the file count at byte 0, one 44-byte row per file from
    byte 12, and after the rows the data region, in which a row's offset
    points at the two marker bytes that precede the file's data. *)

Record AssetRow : Type := {
  row_name : list byte;
  row_size : nat;
  row_offset : nat;
  row_width : Z;
  row_height : Z
}.

Definition readRow (blob : list byte) (i : nat) : AssetRow :=
  let pos := (12 + 44 * i)%nat in
  {| row_name := slice pos 32 blob;
     row_size := readU32 blob (pos + 32);
     row_offset := readU32 blob (pos + 36);
     row_width := le_value (slice (pos + 40) 2 blob);
     row_height := le_value (slice (pos + 42) 2 blob) |}.

(** The marker and the data of file [i]. *)
Definition readAsset (blob : list byte) (i : nat) : list byte * list byte :=
  let row := readRow blob i in
  let base := (12 + 44 * readU32 blob 0)%nat in
  (slice (base + row_offset row) 2 blob,
   slice (base + row_offset row + 2) (row_size row) blob).

(** The package plan read by its file names: the files that an index.json
    names, and the emoji files that the plan keeps, the first of every file
    hash. *)
Section PlanLayout.
Import AssetsBuilder.
Context `{Host}.

Definition modeFiles (m : option ModeInfo) : list jsstring :=
  match m ≫= background_image with
  | Some f => [f]
  | None => []
  end.

Definition indexFiles (ij : IndexJson) : list jsstring :=
  option_list (ij_srmodels ij)
  ++ option_list (ij_text_font ij)
  ++ map snd (default [] (ij_emoji_collection ij))
  ++ match ij_skin ij with
     | Some s => modeFiles (info_light s) ++ modeFiles (info_dark s)
     | None => []
     end.

(** [emoji.fileHash] where it is truthy *)
Definition truthyHash (e : EmojiItem) : option jsstring :=
  match item_fileHash e with
  | Some (c :: rest) => Some (c :: rest)
  | _ => None
  end.

Fixpoint uniqueEmojis (seen : gset jsstring) (coll : list EmojiItem) : list EmojiItem :=
  match coll with
  | [] => []
  | e :: rest =>
    match truthyHash e with
    | Some h =>
      if bool_decide (h ∈ seen) then uniqueEmojis seen rest
      else e :: uniqueEmojis ({[ h ]} ∪ seen) rest
    | None => e :: uniqueEmojis seen rest
    end
  end.




Definition emotionItem (fileMap : gmap jsstring (option File)) (emojiSize : Size)
    (entry : jsstring * jsstring) : option EmojiItem :=
  match fileMap !! entry.2 with
  | Some (Some file) =>
    Some {| item_name := entry.1;
            item_file := sharedFilename entry.2 file;
            item_source := SourceFile file;
            item_fileHash := Some entry.2;
            item_size := emojiSize |}
  | _ => None
  end.

End PlanLayout.

(** * Examples *)

(** A host for running examples: code-unit order as the collation, ASCII
    lower-casing, and a decoder that recognises nothing. *)
Fixpoint codeUnitCompare (a b : jsstring) : Z :=
  match a, b with
  | [], [] => 0
  | [], _ :: _ => -1
  | _ :: _, [] => 1
  | x :: a', y :: b' =>
    if x <? y then -1 else if y <? x then 1 else codeUnitCompare a' b'
  end.

Definition asciiLower (s : jsstring) : jsstring :=
  map (fun c => if (65 <=? c) && (c <=? 90) then c + 32 else c) s.

Definition exampleHost : Host := {|
  localeCompare := codeUnitCompare;
  toLowerCase := asciiLower;
  getImageDimensions := fun _ => (0, 0)
|}.



(** A container of three files, one of them empty. *)
Definition ex_inputs : list (jsstring * list byte * SpiffsGenerator.Options) :=
  [ (js "index.json", [u8 123; u8 125], SpiffsGenerator.no_options);
    (js "b.png", [u8 1; u8 2; u8 3], SpiffsGenerator.no_options);
    (js "a.png", [], SpiffsGenerator.no_options) ].

Definition ex_b_png : SpiffsGenerator.FileEntry :=
  {| SpiffsGenerator.filename := js "b.png";
     SpiffsGenerator.data := [u8 1; u8 2; u8 3];
     SpiffsGenerator.size := 3;
     SpiffsGenerator.width := 0;
     SpiffsGenerator.height := 0 |}.

Definition cjk_name (lastUnit : Z) : jsstring := replicate 10 20013 ++ [lastUnit].

(** Two names of eleven code units each, 33 bytes in UTF-8, that differ in
    the last byte only. *)
Definition ex_long_inputs : list (jsstring * list byte * SpiffsGenerator.Options) :=
  [ (cjk_name 20013, [u8 7], SpiffsGenerator.no_options);
    (cjk_name 20014, [u8 8], SpiffsGenerator.no_options) ].

Definition ex_long_1 : SpiffsGenerator.FileEntry :=
  {| SpiffsGenerator.filename := cjk_name 20013;
     SpiffsGenerator.data := [u8 7];
     SpiffsGenerator.size := 1;
     SpiffsGenerator.width := 0;
     SpiffsGenerator.height := 0 |}.


(** A file in the special format: 18 bytes, the size 3 x 2 at bytes 14..17. *)
Definition ex_sjpg : SpiffsGenerator.FileEntry :=
  {| SpiffsGenerator.filename := js "logo.SJPG";
     SpiffsGenerator.data := zeros 14 ++ [u8 3; u8 0; u8 2; u8 0];
     SpiffsGenerator.size := 18;
     SpiffsGenerator.width := 0;
     SpiffsGenerator.height := 0 |}.

(** Two models of three files each, added out of order. *)
Definition ex_models : list (jsstring * jsstring * list byte) :=
  [ (js "wn9_b", js "wn9_index", [u8 1; u8 2]);
    (js "wn9_a", js "wn9_data", [u8 3]);
    (js "wn9_b", js "_MODEL_INFO_", [u8 4; u8 5; u8 6]);
    (js "wn9_a", js "wn9_index", []);
    (js "wn9_b", js "wn9_data", [u8 7]);
    (js "wn9_a", js "_MODEL_INFO_", [u8 8; u8 9]) ].

(** A canvas for running examples: the image bytes are taken as the RGBA
    pixels when there are exactly as many as the canvas holds. *)
Definition rawCanvas : AssetsBuilder.Canvas := {|
  AssetsBuilder.drawCover := fun imageData w h =>
    if decide (length imageData = (4 * (w * h))%nat) then Some imageData else None
|}.

Definition ex_display : AssetsBuilder.Display :=
  {| AssetsBuilder.display_width := Some 2%nat; AssetsBuilder.display_height := Some 1%nat |}.

Definition ex_pixels : list byte :=
  [u8 255; u8 0; u8 0; u8 255; u8 8; u8 132; u8 248; u8 255].

Definition ex_glyph (c : Z) : CBinFont.Glyph :=
  {| CBinFont.code := c;
     CBinFont.advanceWidth := 17 # 2;
     CBinFont.bbox := {| CBinFont.bbox_x := 1; CBinFont.bbox_y := -2;
                         CBinFont.bbox_width := 2; CBinFont.bbox_height := 2 |};
     CBinFont.pixels := [[255; 128]; [0; 64]] |}.

Definition ex_fontData (codes : list Z) : CBinFont.FontData :=
  {| CBinFont.glyphs := Some (map ex_glyph codes);
     CBinFont.ascent := 12;
     CBinFont.descent := -3;
     CBinFont.subpixels_mode := None;
     CBinFont.underlinePosition := Some (-1);
     CBinFont.underlineThickness := Some 1 |}.

(** A plan of a single format0 subtable over all the code points. *)
Definition oneFormat0 : CmapPlanner := {|
  cmap_build_subtables := fun codes => [("format0"%string, codes)]
|}.

Definition ex_options : CBinFont.Options :=
  {| CBinFont.bpp := 4; CBinFont.no_compress := true; CBinFont.no_prefilter := false;
     CBinFont.lv_font_name := None; CBinFont.output := Some "font.bin"%string |}.

Definition ex_font (codes : list Z) : CBinFont.t :=
  {| CBinFont.src := ex_fontData codes;
     CBinFont.opts := ex_options;
     CBinFont.font_name := "font.bin";
     CBinFont.glyph_id := CBinFont.buildGlyphIdMap (ex_fontData codes) |}.


(** A configuration with a custom font, three emotions on two image files
    and a background image for the light mode. *)
Definition ex_file (name : string) (b : Z) : AssetsBuilder.File :=
  {| AssetsBuilder.file_name := Some (js name);
     AssetsBuilder.file_type := js "application/octet-stream";
     AssetsBuilder.file_bytes := [u8 b] |}.

Definition ex_emojiCustom : AssetsBuilder.EmojiCustom :=
  {| AssetsBuilder.ec_emotionMap :=
       [ (js "neutral", js "0123456789ab"); (js "happy", js "fedcba987654");
         (js "sad", js "0123456789ab") ];
     AssetsBuilder.ec_fileMap :=
       {[ js "0123456789ab" := Some (ex_file "Face.PNG" 1);
          js "fedcba987654" := Some (ex_file "smile.gif" 2) ]};
     AssetsBuilder.ec_size := None |}.

Definition ex_customFont : AssetsBuilder.CustomFont :=
  {| AssetsBuilder.cf_file := Some (ex_file "Sans.ttf" 3);
     AssetsBuilder.cf_size := Some 20;
     AssetsBuilder.cf_bpp := Some 4;
     AssetsBuilder.cf_charset := Some (js "latin");
     AssetsBuilder.cf_symbols := Some (js "abc");
     AssetsBuilder.cf_range := Some (js "0x20-0x7F") |}.

Definition ex_fontConfig : AssetsBuilder.Font :=
  {| AssetsBuilder.font_type := Some (js "custom");
     AssetsBuilder.font_preset := None;
     AssetsBuilder.font_custom := Some ex_customFont |}.

Definition ex_emoji : AssetsBuilder.Emoji :=
  {| AssetsBuilder.emoji_type := Some (js "custom");
     AssetsBuilder.emoji_preset := None;
     AssetsBuilder.emoji_custom := Some ex_emojiCustom |}.

Definition ex_config : AssetsBuilder.Config :=
  {| AssetsBuilder.cfg_chip :=
       Some {| AssetsBuilder.chip_model := Some (js "esp32s3");
               AssetsBuilder.chip_display :=
                 Some {| AssetsBuilder.dsp_width := Some 320;
                         AssetsBuilder.dsp_height := Some 240;
                         AssetsBuilder.dsp_color := None |} |};
     AssetsBuilder.cfg_theme :=
       Some {| AssetsBuilder.theme_wakeword := Some (js "wn9_nihaoxiaozhi_tts");
               AssetsBuilder.theme_font := Some ex_fontConfig;
               AssetsBuilder.theme_emoji := Some ex_emoji;
               AssetsBuilder.theme_skin :=
                 Some {| AssetsBuilder.skin_light :=
                           Some {| AssetsBuilder.mode_textColor := None;
                                   AssetsBuilder.mode_backgroundColor := Some (js "#fafafa");
                                   AssetsBuilder.mode_backgroundType := Some (js "image");
                                   AssetsBuilder.mode_backgroundImage :=
                                     Some (ex_file "bg.png" 4) |};
                         AssetsBuilder.skin_dark := None |} |} |}.

(** * Properties *)

(** ** Bytes and little-endian fields *)

Lemma b2z_range (b : byte) : 0 <= b2z b < 256.
Proof.
  unfold b2z. pose proof (Byte.to_N_bounded b). lia.
Qed.

Lemma b2z_u8 (z : Z) : b2z (u8 z) = z mod 256.
Proof.
  unfold u8, b2z.
  assert (Hr : 0 <= z mod 256 < 256) by (apply Z.mod_pos_bound; lia).
  destruct (Byte.of_N (Z.to_N (z mod 256))) as [b|] eqn:E; simpl.
  - apply Byte.to_of_N in E. rewrite E. lia.
  - apply Byte.of_N_None_iff in E. lia.
Qed.

Lemma u8_b2z (b : byte) : u8 (b2z b) = b.
Proof.
  unfold u8. rewrite Z.mod_small by apply b2z_range.
  unfold b2z. rewrite N2Z.id, Byte.of_to_N. reflexivity.
Qed.

Lemma u8_mod (a b : Z) : a mod 256 = b mod 256 -> u8 a = u8 b.
Proof. unfold u8. intros ->. reflexivity. Qed.

Lemma b2z_inj (a b : byte) : b2z a = b2z b -> a = b.
Proof. intros E. rewrite <- (u8_b2z a), <- (u8_b2z b), E. reflexivity. Qed.

Lemma length_le_bytes (n : nat) (z : Z) : length (le_bytes n z) = n.
Proof. revert z. induction n as [|n IH]; intros z; simpl; [reflexivity | now rewrite IH]. Qed.

Lemma le_value_le_bytes (n : nat) (z : Z) :
  le_value (le_bytes n z) = z mod 256 ^ Z.of_nat n.
Proof.
  revert z. induction n as [|n IH]; intros z.
  - simpl. now rewrite Z.mod_1_r.
  - cbn [le_bytes le_value]. rewrite IH, b2z_u8.
    replace (256 ^ Z.of_nat (S n)) with (256 * 256 ^ Z.of_nat n)
      by (rewrite Nat2Z.inj_succ, Z.pow_succ_r by lia; reflexivity).
    assert (0 < 256 ^ Z.of_nat n) by (apply Z.pow_pos_nonneg; lia).
    rewrite Z.rem_mul_r by lia. reflexivity.
Qed.

Lemma le_value_range (bs : list byte) : 0 <= le_value bs < 256 ^ Z.of_nat (length bs).
Proof.
  induction bs as [|b bs IH].
  - simpl. lia.
  - cbn [le_value length]. rewrite Nat2Z.inj_succ, Z.pow_succ_r by lia.
    pose proof (b2z_range b). lia.
Qed.

Lemma le_bytes_mod (n : nat) (a b : Z) :
  a mod 256 ^ Z.of_nat n = b mod 256 ^ Z.of_nat n -> le_bytes n a = le_bytes n b.
Proof.
  revert a b. induction n as [|n IH]; intros a b E; [reflexivity|].
  assert (Hp : 0 < 256 ^ Z.of_nat n) by (apply Z.pow_pos_nonneg; lia).
  replace (256 ^ Z.of_nat (S n)) with (256 * 256 ^ Z.of_nat n) in E
    by (rewrite Nat2Z.inj_succ, Z.pow_succ_r by lia; reflexivity).
  rewrite !Z.rem_mul_r in E by lia.
  assert (0 <= a mod 256 < 256) by (apply Z.mod_pos_bound; lia).
  assert (0 <= b mod 256 < 256) by (apply Z.mod_pos_bound; lia).
  assert (0 <= (a / 256) mod 256 ^ Z.of_nat n < 256 ^ Z.of_nat n)
    by (apply Z.mod_pos_bound; lia).
  assert (0 <= (b / 256) mod 256 ^ Z.of_nat n < 256 ^ Z.of_nat n)
    by (apply Z.mod_pos_bound; lia).
  assert (a mod 256 = b mod 256) by nia.
  assert ((a / 256) mod 256 ^ Z.of_nat n = (b / 256) mod 256 ^ Z.of_nat n) by nia.
  cbn [le_bytes]. f_equal; [now apply u8_mod | now apply IH].
Qed.

Lemma byte_sum_app (a b : list byte) : byte_sum (a ++ b) = byte_sum a + byte_sum b.
Proof.
  unfold byte_sum. induction a as [|x a IH]; simpl; [reflexivity|].
  rewrite IH. lia.
Qed.

Lemma length_zeros (n : nat) : length (zeros n) = n.
Proof. apply length_replicate. Qed.

(** ** The 32-bit operators *)

Lemma toInt32_range (z : Z) : - 2 ^ 31 <= toInt32 z < 2 ^ 31.
Proof.
  unfold toInt32. pose proof (Z.mod_pos_bound (z + 2 ^ 31) (2 ^ 32)). lia.
Qed.

Lemma toInt32_small (z : Z) : - 2 ^ 31 <= z < 2 ^ 31 -> toInt32 z = z.
Proof. intros Hz. unfold toInt32. rewrite Z.mod_small; lia. Qed.

Lemma toInt32_congr (z : Z) : exists m, toInt32 z = z + 2 ^ 32 * m.
Proof.
  exists (- ((z + 2 ^ 31) / 2 ^ 32)). unfold toInt32.
  pose proof (Z.div_mod (z + 2 ^ 31) (2 ^ 32)). lia.
Qed.

Lemma land_255 (z : Z) : Z.land z 255 = z mod 256.
Proof. change 255 with (Z.ones 8). rewrite Z.land_ones by lia. reflexivity. Qed.

(** The [k]-th byte picked by [(value >> 8k) & 0xFF]. *)
Lemma js_byte (value : Z) (k : Z) :
  0 <= k <= 3 ->
  js_and (js_shr value (8 * k)) 255 mod 256 = (value / 256 ^ k) mod 256.
Proof.
  intros Hk. unfold js_and, js_shr.
  rewrite (toInt32_small 255) by lia. rewrite land_255.
  rewrite (Z.mod_small (8 * k) 32) by lia.
  rewrite Z.shiftr_div_pow2 by lia.
  pose proof (toInt32_range value) as Hr.
  assert (H8k : 2 ^ (8 * k) = 256 ^ k).
  { rewrite Z.pow_mul_r by lia. reflexivity. }
  rewrite H8k.
  assert (Hp : 0 < 256 ^ k) by (apply Z.pow_pos_nonneg; lia).
  assert (Hq : - 2 ^ 31 <= toInt32 value / 256 ^ k < 2 ^ 31).
  { split.
    - apply Z.div_le_lower_bound; nia.
    - apply Z.div_lt_upper_bound; nia. }
  rewrite toInt32_small by exact Hq.
  rewrite Z.mod_mod by lia.
  destruct (toInt32_congr value) as [m ->].
  assert (Hs : 2 ^ 32 = 256 ^ k * (256 * 256 ^ (3 - k))).
  { assert (Hc : k = 0 \/ k = 1 \/ k = 2 \/ k = 3) by lia.
    destruct Hc as [-> | [-> | [-> | ->]]]; reflexivity. }
  rewrite Hs.
  replace (value + 256 ^ k * (256 * 256 ^ (3 - k)) * m)
    with (value + (256 * 256 ^ (3 - k) * m) * 256 ^ k) by ring.
  rewrite Z.div_add by lia.
  replace (256 * 256 ^ (3 - k) * m) with ((256 ^ (3 - k) * m) * 256) by ring.
  rewrite Z.mod_add by lia. reflexivity.
Qed.

Lemma js_and_low (value : Z) : js_and value 255 mod 256 = value mod 256.
Proof.
  unfold js_and. rewrite (toInt32_small 255) by lia. rewrite land_255.
  rewrite Z.mod_mod by lia.
  destruct (toInt32_congr value) as [m ->].
  replace (value + 2 ^ 32 * m) with (value + (2 ^ 24 * m) * 256) by ring.
  apply Z.mod_add. lia.
Qed.

Lemma js_and_65535 (value : Z) : js_and value 65535 = value mod 65536.
Proof.
  unfold js_and. rewrite (toInt32_small 65535) by lia.
  change 65535 with (Z.ones 16). rewrite Z.land_ones by lia.
  destruct (toInt32_congr value) as [m ->].
  replace (value + 2 ^ 32 * m) with (value + (2 ^ 16 * m) * 2 ^ 16) by ring.
  apply Z.mod_add. lia.
Qed.

Lemma u8_js_low (value : Z) : u8 (js_and value 255) = u8 value.
Proof. apply u8_mod, js_and_low. Qed.

Lemma u8_js_byte (value k : Z) :
  0 <= k <= 3 -> u8 (js_and (js_shr value (8 * k)) 255) = u8 (value / 256 ^ k).
Proof. intros Hk. now apply u8_mod, js_byte. Qed.

Lemma packUint32_le_bytes (value : Z) :
  SpiffsGenerator.packUint32 value = le_bytes 4 value.
Proof.
  unfold SpiffsGenerator.packUint32. cbn [le_bytes].
  change (js_shr value 8) with (js_shr value (8 * 1)).
  change (js_shr value 16) with (js_shr value (8 * 2)).
  change (js_shr value 24) with (js_shr value (8 * 3)).
  rewrite u8_js_low, !u8_js_byte by lia.
  rewrite !Z.div_div by lia. reflexivity.
Qed.

Lemma packUint16_le_bytes (value : Z) :
  SpiffsGenerator.packUint16 value = le_bytes 2 value.
Proof.
  unfold SpiffsGenerator.packUint16. cbn [le_bytes].
  change (js_shr value 8) with (js_shr value (8 * 1)).
  rewrite u8_js_low, !u8_js_byte by lia. reflexivity.
Qed.

Lemma wakenet_packUint32 (value : Z) :
  WakenetModelPacker.packUint32 value = le_bytes 4 value.
Proof. exact (packUint32_le_bytes value). Qed.

(** ** Typed-array writes into a zero-filled tail

    Every encoder allocates its output at the final size and fills it from
    the front; [done ++ zeros n] is the buffer with [done] written so far. *)

Lemma zeros_add (a b : nat) : zeros (a + b) = zeros a ++ zeros b.
Proof. unfold zeros. apply replicate_add. Qed.

Lemma u8array_set_fill (done src : list byte) (n off : nat) :
  off = length done -> (length src <= n)%nat ->
  u8array_set (done ++ zeros n) src off = Ok ((done ++ src) ++ zeros (n - length src)).
Proof.
  intros -> Hn. unfold u8array_set.
  rewrite length_app, length_zeros.
  destruct (decide _) as [_|Hno]; [|lia].
  f_equal. rewrite take_app_length.
  rewrite drop_app_ge by lia.
  replace (length done + length src - length done)%nat with (length src) by lia.
  unfold zeros. rewrite drop_replicate. now rewrite <- app_assoc.
Qed.

Lemma u8array_set_fill0 (src : list byte) (n : nat) :
  (length src <= n)%nat ->
  u8array_set (zeros n) src 0 = Ok (src ++ zeros (n - length src)).
Proof. intros Hn. exact (u8array_set_fill [] src n 0 eq_refl Hn). Qed.

Lemma u8array_store_fill (done : list byte) (n off : nat) (v : Z) :
  off = length done ->
  u8array_store (done ++ zeros (S n)) off v = (done ++ [u8 v]) ++ zeros n.
Proof.
  intros ->. unfold u8array_store.
  rewrite insert_app_r_alt by lia. rewrite Nat.sub_diag.
  now rewrite <- app_assoc.
Qed.

Lemma slice_middle (pre x post : list byte) (start len : nat) :
  start = length pre -> len = length x -> slice start len (pre ++ x ++ post) = x.
Proof.
  intros -> ->. unfold slice. rewrite drop_app_length. apply take_app_length.
Qed.

Lemma slice_0 (x post : list byte) (len : nat) :
  len = length x -> slice 0 len (x ++ post) = x.
Proof. intros ->. unfold slice. rewrite drop_0. apply take_app_length. Qed.

(** Rows of a fixed width, concatenated: where row [i] sits. *)
Lemma concat_rows_split {A} (row : A -> list byte) (w : nat) (l : list A) (i : nat) (a : A) :
  (forall x, length (row x) = w) -> l !! i = Some a ->
  concat (map row l) =
    concat (map row (take i l)) ++ row a ++ concat (map row (drop (S i) l))
  /\ length (concat (map row (take i l))) = (w * i)%nat.
Proof.
  intros Hw Hi. split.
  - rewrite <- (take_drop_middle l i a Hi) at 1.
    rewrite map_app, concat_app. reflexivity.
  - apply lookup_lt_Some in Hi.
    assert (Hl : length (take i l) = i) by (rewrite length_take; lia).
    revert Hl. generalize (take i l). intros t. revert i Hi.
    induction t as [|x t IH]; intros i Hi Hl; simpl in *.
    + subst. lia.
    + destruct i as [|i]; [discriminate|].
      rewrite length_app, Hw. rewrite (IH i) by lia. lia.
Qed.

Lemma length_concat_rows {A} (row : A -> list byte) (w : nat) (l : list A) :
  (forall x, length (row x) = w) -> length (concat (map row l)) = (w * length l)%nat.
Proof.
  intros Hw. induction l as [|x l IH]; simpl; [lia|].
  rewrite length_app, Hw, IH. lia.
Qed.

(** ** SpiffsGenerator: the layout of assets.bin *)

Section Spiffs.
Import SpiffsGenerator.
Context `{Host}.

Lemma packString_eq (s : jsstring) (n : nat) :
  packString s n = take n (utf8_encode s) ++ zeros (n - length (utf8_encode s)).
Proof.
  unfold packString. rewrite take_0. cbn [app Nat.add].
  destruct (Nat.le_ge_cases (length (utf8_encode s)) n) as [Hle|Hge].
  - rewrite Nat.min_l by lia. rewrite !take_ge by lia.
    unfold zeros. now rewrite drop_replicate.
  - rewrite Nat.min_r by lia. unfold zeros. rewrite drop_replicate.
    do 2 f_equal. lia.
Qed.

Lemma length_packString (s : jsstring) (n : nat) : length (packString s n) = n.
Proof. rewrite packString_eq, length_app, length_take, length_zeros. lia. Qed.

Lemma length_tableRow (fi : FileInfo) : length (tableRow fi) = 44%nat.
Proof.
  unfold tableRow. rewrite !length_app, length_packString, !length_le_bytes. reflexivity.
Qed.

Lemma collectFileInfo_spec (fs : list FileEntry) (start : nat) :
  snd (collectFileInfo fs start) = (start + sum_list (map span fs))%nat
  /\ length (fst (collectFileInfo fs start)) = length fs
  /\ forall i f, fs !! i = Some f ->
       exists fi, fst (collectFileInfo fs start) !! i = Some fi
         /\ fi_filename fi = filename f /\ fi_data fi = data f /\ fi_size fi = size f
         /\ fi_offset fi = (start + sum_list (map span (take i fs)))%nat
         /\ (fi_width fi, fi_height fi) = fileDimensions f.
Proof.
  revert start. induction fs as [|f fs IH]; intros start.
  - simpl. repeat split; [lia|]. intros i f Hi. discriminate.
  - cbn [collectFileInfo].
    destruct (fileDimensions f) as [w h] eqn:Ed.
    specialize (IH (start + (2 + size f))%nat).
    destruct (collectFileInfo fs (start + (2 + size f))) as [infos total].
    cbn [fst snd] in *. destruct IH as (Ht & Hl & Hi).
    repeat split.
    + rewrite Ht. simpl. unfold span. lia.
    + simpl. now rewrite Hl.
    + intros [|i] f' Hf'.
      * injection Hf' as <-. eexists. split; [reflexivity|].
        cbn. rewrite Ed. repeat split. lia.
      * cbn in Hf'. destruct (Hi i f' Hf') as (fi & Hfi & Hn & Hd & Hs & Ho & Hwh).
        exists fi. repeat split; try assumption.
        rewrite Ho. simpl. unfold span. lia.
Qed.

Lemma writeTableRow_fill (done : list byte) (n : nat) (fi : FileInfo) :
  writeTableRow (done ++ zeros (44 + n), length done) fi
  = Ok ((done ++ tableRow fi) ++ zeros n, length (done ++ tableRow fi)).
Proof.
  unfold writeTableRow.
  rewrite u8array_set_fill by (rewrite ?length_packString; lia).
  cbn [rbind]. rewrite length_packString.
  rewrite u8array_set_fill
    by (rewrite ?length_app, ?length_packString, ?packUint32_le_bytes, ?length_le_bytes; lia).
  cbn [rbind]. rewrite packUint32_le_bytes, length_le_bytes.
  rewrite u8array_set_fill
    by (rewrite ?length_app, ?length_packString, ?packUint32_le_bytes, ?length_le_bytes; lia).
  cbn [rbind]. rewrite packUint32_le_bytes, length_le_bytes.
  rewrite u8array_set_fill
    by (rewrite ?length_app, ?length_packString, ?packUint16_le_bytes, ?length_le_bytes; lia).
  cbn [rbind]. rewrite packUint16_le_bytes, length_le_bytes.
  rewrite u8array_set_fill
    by (rewrite ?length_app, ?length_packString, ?packUint16_le_bytes, ?length_le_bytes; lia).
  cbn [rbind]. rewrite packUint16_le_bytes, length_le_bytes.
  replace (44 + n - 32 - 4 - 4 - 2 - 2)%nat with n by lia.
  unfold tableRow. rewrite !length_app, length_packString, !length_le_bytes.
  f_equal. f_equal.
  - now rewrite <- !app_assoc.
  - lia.
Qed.

Lemma table_loop (infos : list FileInfo) (done : list byte) :
  for_each writeTableRow infos (done ++ zeros (44 * length infos), length done)
  = Ok (done ++ concat (map tableRow infos),
        length (done ++ concat (map tableRow infos))).
Proof.
  revert done. induction infos as [|fi infos IH]; intros done.
  - cbn. unfold zeros. cbn. now rewrite !app_nil_r.
  - cbn [for_each length].
    replace (44 * S (length infos))%nat with (44 + 44 * length infos)%nat by lia.
    rewrite writeTableRow_fill. cbn [rbind].
    rewrite IH. cbn [map concat]. now rewrite <- !app_assoc.
Qed.

Lemma writeFileData_fill (done : list byte) (n : nat) (fi : FileInfo) :
  info_ok fi ->
  writeFileData (done ++ zeros (2 + fi_size fi + n), length done) fi
  = Ok ((done ++ dataBlock fi) ++ zeros n, length (done ++ dataBlock fi)).
Proof.
  intros Hok. unfold writeFileData.
  replace (2 + fi_size fi + n)%nat with (S (S (fi_size fi + n))) by lia.
  rewrite u8array_store_fill by reflexivity.
  rewrite u8array_store_fill by (rewrite length_app; simpl; lia).
  rewrite u8array_set_fill by (rewrite ?length_app; simpl; unfold info_ok in Hok; lia).
  cbn [rbind]. unfold dataBlock.
  red in Hok. rewrite <- Hok.
  replace (fi_size fi + n - fi_size fi)%nat with n by lia.
  f_equal. f_equal.
  - now rewrite <- !app_assoc.
  - rewrite !length_app. simpl. lia.
Qed.

Lemma data_loop (infos : list FileInfo) (done : list byte) :
  Forall info_ok infos ->
  for_each writeFileData infos
    (done ++ zeros (sum_list (map (fun fi => 2 + fi_size fi)%nat infos)), length done)
  = Ok (done ++ concat (map dataBlock infos),
        length (done ++ concat (map dataBlock infos))).
Proof.
  intros Hok. revert done. induction Hok as [|fi infos Hfi Hok IH]; intros done.
  - cbn. unfold zeros. cbn. now rewrite !app_nil_r.
  - cbn [for_each map sum_list sum_list_with id].
    rewrite writeFileData_fill by assumption. cbn [rbind].
    rewrite IH. cbn [map concat]. now rewrite <- !app_assoc.
Qed.

Lemma array_sort_perm {A} (cmp : A -> A -> Z) (l : list A) : array_sort cmp l ≡ₚ l.
Proof.
  assert (Hins : forall x l', insert_by cmp x l' ≡ₚ x :: l').
  { intros x l'. induction l' as [|y l' IH]; cbn; [reflexivity|].
    destruct (cmp x y <=? 0); [reflexivity|].
    rewrite IH. apply Permutation_swap. }
  induction l as [|x l IH]; cbn; [reflexivity|].
  rewrite Hins. now rewrite IH.
Qed.

Lemma collect_sizes (fs : list FileEntry) (start : nat) :
  snd (collectFileInfo fs start)
  = (start + sum_list (map (fun fi => 2 + fi_size fi)%nat (fst (collectFileInfo fs start))))%nat.
Proof.
  revert start. induction fs as [|f fs IH]; intros start; cbn [collectFileInfo].
  - cbn. lia.
  - destruct (fileDimensions f) as [w h].
    specialize (IH (start + (2 + size f))%nat).
    destruct (collectFileInfo fs (start + (2 + size f))) as [infos total].
    cbn [fst snd map sum_list sum_list_with id fi_size] in *. lia.
Qed.

Lemma collect_info_ok (fs : list FileEntry) (start : nat) :
  Forall size_ok fs -> Forall info_ok (fst (collectFileInfo fs start)).
Proof.
  intros Hok. revert start. induction Hok as [|f fs Hf Hok IH]; intros start;
    cbn [collectFileInfo].
  - constructor.
  - destruct (fileDimensions f) as [w h].
    specialize (IH (start + (2 + size f))%nat).
    destruct (collectFileInfo fs (start + (2 + size f))) as [infos total].
    cbn [fst] in *. constructor; [exact Hf | exact IH].
Qed.

Lemma checksum_sum (bytes : list byte) : computeChecksum bytes = byte_sum bytes mod 65536.
Proof.
  unfold computeChecksum. rewrite js_and_65535. f_equal.
  assert (Hg : forall acc, foldl (fun a b => a + b2z b) acc bytes = acc + byte_sum bytes).
  { induction bytes as [|b bytes IH]; intros acc; cbn; [lia|].
    rewrite IH. unfold byte_sum. lia. }
  rewrite Hg. lia.
Qed.

Lemma length_tableBytes (infos : list FileInfo) :
  length (tableBytes infos) = (44 * length infos)%nat.
Proof. apply length_concat_rows, length_tableRow. Qed.

Lemma length_dataRegion (infos : list FileInfo) :
  Forall info_ok infos ->
  length (dataRegion infos) = sum_list (map (fun fi => 2 + fi_size fi)%nat infos).
Proof.
  unfold dataRegion. induction 1 as [|fi infos Hfi Hok IH]; [reflexivity|].
  cbn [map concat sum_list sum_list_with id]. rewrite length_app, IH.
  unfold dataBlock. rewrite length_app. red in Hfi. rewrite Hfi. simpl. lia.
Qed.

(** [generate] returns, and what it returns is [container]. *)
Lemma generate_layout (this : t) :
  files this <> [] -> Forall size_ok (files this) ->
  generate this = Ok (container (infoOf 0 (sortFiles (files this)))).
Proof.
  intros Hne Hok. unfold generate.
  destruct (decide (length (files this) = 0%nat)) as [Hz|_].
  { destruct (files this); [congruence | discriminate]. }
  unfold infoOf.
  assert (Hsok : Forall size_ok (sortFiles (files this))).
  { unfold sortFiles. now rewrite array_sort_perm. }
  pose proof (collect_sizes (sortFiles (files this)) 0) as Hsz.
  pose proof (collect_info_ok (sortFiles (files this)) 0 Hsok) as Hiok.
  pose proof (collectFileInfo_spec (sortFiles (files this)) 0) as (_ & Hlen & _).
  destruct (collectFileInfo (sortFiles (files this)) 0) as [infos total].
  cbn [fst snd] in *. rewrite Nat.add_0_l in Hsz. subst total.
  replace (length (sortFiles (files this)) * (32 + 4 + 4 + 2 + 2))%nat
    with (44 * length infos)%nat by lia.
  pose proof (table_loop infos []) as Ht. cbn [app length] in Ht. rewrite Ht.
  cbn [rbind fst].
  pose proof (data_loop infos [] Hiok) as Hd. cbn [app length] in Hd. rewrite Hd.
  cbn [rbind fst].
  fold (tableBytes infos) (dataRegion infos).
  rewrite (u8array_set_fill0 (tableBytes infos)) by (rewrite length_tableBytes; lia).
  cbn [rbind]. rewrite length_tableBytes.
  rewrite Nat.add_comm, Nat.add_sub.
  rewrite u8array_set_fill
    by (rewrite ?length_tableBytes, ?length_dataRegion by assumption; lia).
  cbn [rbind]. rewrite length_dataRegion by assumption.
  rewrite Nat.sub_diag. change (zeros 0) with (@nil byte). rewrite app_nil_r.
  set (combined := tableBytes infos ++ dataRegion infos).
  rewrite checksum_sum, !packUint32_le_bytes.
  rewrite <- Hlen.
  rewrite (u8array_set_fill0 (le_bytes 4 _)) by (rewrite length_le_bytes; lia).
  cbn [rbind]. rewrite length_le_bytes.
  rewrite u8array_set_fill by (rewrite ?length_le_bytes; lia).
  cbn [rbind]. rewrite length_le_bytes.
  rewrite u8array_set_fill by (rewrite ?length_app, ?length_le_bytes; lia).
  cbn [rbind]. rewrite length_le_bytes.
  rewrite u8array_set_fill by (rewrite ?length_app, ?length_le_bytes; lia).
  f_equal. unfold container. fold combined.
  replace (4 + 4 + 4 + length combined - 4 - 4 - 4 - length combined)%nat with 0%nat by lia.
  change (zeros 0) with (@nil byte). rewrite app_nil_r.
  now rewrite <- !app_assoc.
Qed.

Lemma files_added (inputs : list (jsstring * list byte * Options)) :
  files (added inputs)
  = map (fun '(name, bytes, options) =>
           {| filename := name; data := bytes; size := length bytes;
              width := or_zero (opt_width options);
              height := or_zero (opt_height options) |}) inputs.
Proof.
  unfold added.
  assert (Hg : forall g,
    files (foldl (fun g '(name, bytes, options) => addFile g name bytes options) g inputs)
    = files g ++ map (fun '(name, bytes, options) =>
           {| filename := name; data := bytes; size := length bytes;
              width := or_zero (opt_width options);
              height := or_zero (opt_height options) |}) inputs).
  { induction inputs as [|[[name bytes] options] inputs IH]; intros g; cbn [foldl map].
    - now rewrite app_nil_r.
    - rewrite IH. cbn [addFile files]. now rewrite <- app_assoc. }
  rewrite Hg. reflexivity.
Qed.

Lemma added_size_ok (inputs : list (jsstring * list byte * Options)) :
  Forall size_ok (files (added inputs)).
Proof.
  rewrite files_added. apply Forall_forall. intros f Hf.
  apply list_elem_of_fmap in Hf. destruct Hf as ([[name bytes] options] & -> & _).
  reflexivity.
Qed.

Lemma length_sortFiles (fs : list FileEntry) : length (sortFiles fs) = length fs.
Proof. unfold sortFiles. now rewrite array_sort_perm. Qed.

Lemma infoOf_take (fs : list FileEntry) (start i : nat) :
  take i (infoOf start fs) = infoOf start (take i fs).
Proof.
  unfold infoOf. revert start i. induction fs as [|f fs IH]; intros start i.
  - destruct i; reflexivity.
  - destruct i as [|i]; [reflexivity|].
    cbn [take collectFileInfo]. destruct (fileDimensions f) as [w h].
    specialize (IH (start + (2 + size f))%nat i).
    destruct (collectFileInfo fs (start + (2 + size f))) as [infos total].
    destruct (collectFileInfo (take i fs) (start + (2 + size f))) as [infos' total'].
    cbn [fst take] in *. now rewrite IH.
Qed.

Lemma length_dataRegion_infoOf (fs : list FileEntry) (start : nat) :
  Forall size_ok fs ->
  length (dataRegion (infoOf start fs)) = sum_list (map span fs).
Proof.
  intros Hok. unfold infoOf.
  rewrite length_dataRegion by now apply collect_info_ok.
  pose proof (collect_sizes fs start) as Hs.
  pose proof (collectFileInfo_spec fs start) as (Ht & _).
  lia.
Qed.

Lemma dataRegion_split (infos : list FileInfo) (i : nat) (fi : FileInfo) :
  infos !! i = Some fi ->
  dataRegion infos
  = dataRegion (take i infos) ++ dataBlock fi ++ dataRegion (drop (S i) infos).
Proof.
  intros Hi. unfold dataRegion.
  rewrite <- (take_drop_middle infos i fi Hi) at 1.
  rewrite map_app, concat_app. reflexivity.
Qed.

(** A slice read off a buffer that is given as a concatenation. *)
Lemma slice_at (pre x post buf : list byte) (start len : nat) :
  buf = pre ++ x ++ post -> start = length pre -> len = length x ->
  slice start len buf = x.
Proof. intros -> Hs Hl. now apply slice_middle. Qed.

(** The view of one packed entry that the claims speak about. *)
Lemma generate_entry (inputs : list (jsstring * list byte * Options)) (i : nat) (f : FileEntry) :
  let sorted := sortFiles (files (added inputs)) in
  let off := sum_list (map span (take i sorted)) in
  sorted !! i = Some f ->
  exists out, generate (added inputs) = Ok out
    /\ slice (12 + 44 * i) 32 out = packString (filename f) 32
    /\ slice (12 + 44 * i + 32) 4 out = le_bytes 4 (Z.of_nat (size f))
    /\ slice (12 + 44 * i + 36) 4 out = le_bytes 4 (Z.of_nat off)
    /\ slice (12 + 44 * length sorted + off) 2 out = [u8 90; u8 90]
    /\ slice (12 + 44 * length sorted + off + 2) (size f) out = data f.
Proof.
  intros sorted off Hi.
  assert (Hne : files (added inputs) <> []).
  { intros E. apply lookup_lt_Some in Hi. unfold sorted in Hi.
    rewrite length_sortFiles, E in Hi. cbn in Hi. lia. }
  assert (Hsok : Forall size_ok sorted).
  { unfold sorted, sortFiles. rewrite array_sort_perm. apply added_size_ok. }
  eexists. split; [apply generate_layout; [exact Hne | apply added_size_ok]|].
  fold sorted.
  destruct (collectFileInfo_spec sorted 0) as (_ & Hlen & Hspec).
  destruct (Hspec i f Hi) as (fi & Hfi & Hn & Hd & Hs & Ho & _).
  fold (infoOf 0 sorted) in Hfi, Hlen.
  destruct (concat_rows_split tableRow 44 (infoOf 0 sorted) i fi length_tableRow Hfi)
    as (Hsplit & Hpre).
  pose proof (dataRegion_split _ _ _ Hfi) as Hdsplit.
  assert (Hdpre : length (dataRegion (take i (infoOf 0 sorted))) = off).
  { rewrite infoOf_take. apply length_dataRegion_infoOf.
    now apply Forall_take. }
  assert (Hfok : size f = length (data f)).
  { eapply Forall_lookup_1 in Hsok; [exact Hsok | exact Hi]. }
  unfold container. fold (tableBytes (infoOf 0 sorted)).
  set (hdr1 := le_bytes 4 (Z.of_nat (length (infoOf 0 sorted)))).
  set (hdr2 := le_bytes 4 _). set (hdr3 := le_bytes 4 _).
  assert (Hh1 : length hdr1 = 4%nat) by apply length_le_bytes.
  assert (Hh2 : length hdr2 = 4%nat) by apply length_le_bytes.
  assert (Hh3 : length hdr3 = 4%nat) by apply length_le_bytes.
  assert (Htb : length (tableBytes (infoOf 0 sorted)) = (44 * length sorted)%nat).
  { rewrite length_tableBytes, Hlen. reflexivity. }
  rewrite Nat.add_0_l in Ho.
  repeat split.
  - unfold tableBytes. rewrite Hsplit. unfold tableRow. rewrite Hn.
    eapply (slice_at (hdr1 ++ hdr2 ++ hdr3 ++ concat (map tableRow (take i (infoOf 0 sorted))))).
    + rewrite <- !app_assoc. reflexivity.
    + rewrite !length_app, Hh1, Hh2, Hh3, Hpre. lia.
    + now rewrite length_packString.
  - unfold tableBytes. rewrite Hsplit. unfold tableRow. rewrite Hs.
    eapply (slice_at (hdr1 ++ hdr2 ++ hdr3 ++ concat (map tableRow (take i (infoOf 0 sorted)))
                      ++ packString (fi_filename fi) 32)).
    + rewrite <- !app_assoc. reflexivity.
    + rewrite !length_app, Hh1, Hh2, Hh3, Hpre, length_packString. lia.
    + now rewrite length_le_bytes.
  - unfold tableBytes. rewrite Hsplit. unfold tableRow. rewrite Ho. fold off.
    eapply (slice_at (hdr1 ++ hdr2 ++ hdr3 ++ concat (map tableRow (take i (infoOf 0 sorted)))
                      ++ packString (fi_filename fi) 32 ++ le_bytes 4 (Z.of_nat (fi_size fi)))).
    + rewrite <- !app_assoc. reflexivity.
    + rewrite !length_app, Hh1, Hh2, Hh3, Hpre, length_packString, length_le_bytes. lia.
    + now rewrite length_le_bytes.
  - rewrite Hdsplit. unfold dataBlock.
    eapply (slice_at (hdr1 ++ hdr2 ++ hdr3 ++ tableBytes (infoOf 0 sorted)
                      ++ dataRegion (take i (infoOf 0 sorted)))).
    + rewrite <- !app_assoc. reflexivity.
    + rewrite !length_app, Hh1, Hh2, Hh3, Htb, Hdpre. lia.
    + reflexivity.
  - rewrite Hdsplit. unfold dataBlock. rewrite Hd.
    eapply (slice_at (hdr1 ++ hdr2 ++ hdr3 ++ tableBytes (infoOf 0 sorted)
                      ++ dataRegion (take i (infoOf 0 sorted)) ++ [u8 90; u8 90])).
    + rewrite <- !app_assoc. reflexivity.
    + rewrite !length_app, Hh1, Hh2, Hh3, Htb, Hdpre. cbn [length]. lia.
    + exact Hfok.
Qed.

End Spiffs.

(** ** SpiffsGenerator: offsets, checksum and names *)

Section SpiffsClaims.
Import SpiffsGenerator.
Context `{Host}.

(** C1. For a non-empty list of added files, [generate] returns, and the
    mapping-table row of the file at position [i] of the packed order holds,
    as its little-endian offset word, the sum of [2 + size] over the files
    packed before it (the sum fitting the 32-bit field); at that position of
    the data region stands the marker 0x5A 0x5A of the file; the first row
    holds offset 0. *)
Theorem spiffs_table_offsets
    (inputs : list (jsstring * list byte * Options)) (i : nat) (f : FileEntry) :
  let sorted := sortFiles (files (added inputs)) in
  let off := sum_list (map span (take i sorted)) in
  sorted !! i = Some f ->
  Z.of_nat off < 2 ^ 32 ->
  exists out, generate (added inputs) = Ok out
    /\ le_value (slice (12 + 44 * i + 36) 4 out) = Z.of_nat off
    /\ slice (12 + 44 * length sorted + off) 2 out = [u8 90; u8 90]
    /\ (i = 0%nat -> le_value (slice (12 + 36) 4 out) = 0).
Proof.
  intros sorted off Hi Hoff.
  destruct (generate_entry inputs i f Hi) as (out & Hgen & _ & _ & Ho & Hm & _).
  fold sorted in Hm. fold sorted off in Ho.
  exists out. split; [exact Hgen|].
  assert (Hv : le_value (slice (12 + 44 * i + 36) 4 out) = Z.of_nat off).
  { rewrite Ho, le_value_le_bytes. apply Z.mod_small.
    change (256 ^ Z.of_nat 4) with (2 ^ 32). lia. }
  repeat split; [exact Hv | exact Hm |].
  intros ->. rewrite Nat.mul_0_r, Nat.add_0_r in Hv. rewrite Hv.
  unfold off. now rewrite take_0.
Qed.

(** C2. For a non-empty list of added files, the word at byte 4 of the
    container is the sum of all bytes of the mapping table followed by the
    marker-prefixed data region, modulo 65536; its two high bytes are zero;
    and [computeChecksum] over bytes 12.. of the output gives the stored
    word again. Files of length zero are not special. *)
Theorem spiffs_checksum (inputs : list (jsstring * list byte * Options)) :
  inputs <> [] ->
  exists out, generate (added inputs) = Ok out
    /\ drop 12 out
       = tableBytes (infoOf 0 (sortFiles (files (added inputs))))
         ++ dataRegion (infoOf 0 (sortFiles (files (added inputs))))
    /\ le_value (slice 4 4 out) = byte_sum (drop 12 out) mod 65536
    /\ slice 6 2 out = [x00; x00]
    /\ computeChecksum (drop 12 out) = le_value (slice 4 4 out).
Proof.
  intros Hne.
  assert (Hfs : files (added inputs) <> []).
  { rewrite files_added. destruct inputs; [congruence | discriminate]. }
  eexists. split; [apply generate_layout; [exact Hfs | apply added_size_ok]|].
  set (infos := infoOf 0 (sortFiles (files (added inputs)))).
  unfold container.
  set (combined := tableBytes infos ++ dataRegion infos).
  set (hdr1 := le_bytes 4 (Z.of_nat (length infos))).
  set (hdr3 := le_bytes 4 (Z.of_nat (length combined))).
  assert (Hh1 : length hdr1 = 4%nat) by apply length_le_bytes.
  assert (Hc : 0 <= byte_sum combined mod 65536 < 65536)
    by (apply Z.mod_pos_bound; lia).
  assert (Hdrop : drop 12 (hdr1 ++ le_bytes 4 (byte_sum combined mod 65536) ++ hdr3 ++ combined)
                  = combined).
  { rewrite !app_assoc. apply drop_app_length'.
    rewrite !length_app. unfold hdr3. rewrite Hh1, !length_le_bytes. reflexivity. }
  assert (Hw : slice 4 4 (hdr1 ++ le_bytes 4 (byte_sum combined mod 65536) ++ hdr3 ++ combined)
               = le_bytes 4 (byte_sum combined mod 65536)).
  { eapply (slice_at hdr1); [reflexivity | now rewrite Hh1 | now rewrite length_le_bytes]. }
  rewrite Hdrop, Hw. repeat split.
  - rewrite le_value_le_bytes. apply Z.mod_small.
    change (256 ^ Z.of_nat 4) with (2 ^ 32). lia.
  - cbn [le_bytes].
    assert (E2 : byte_sum combined mod 65536 / 256 / 256 = 0).
    { rewrite Z.div_div by lia. apply Z.div_small. lia. }
    rewrite E2. change (0 / 256) with 0. change (u8 0) with x00.
    eapply (slice_at (hdr1 ++ [u8 (byte_sum combined mod 65536);
                               u8 (byte_sum combined mod 65536 / 256)])).
    + rewrite <- !app_assoc. reflexivity.
    + rewrite length_app, Hh1. reflexivity.
    + reflexivity.
  - rewrite checksum_sum, le_value_le_bytes. symmetry. apply Z.mod_small.
    change (256 ^ Z.of_nat 4) with (2 ^ 32). lia.
Qed.

(** C9. A file name whose UTF-8 encoding is longer than 32 bytes does not
    make [generate] fail: the name field of its row holds exactly the first
    32 bytes of the encoding, with no padding and no terminator (a shorter
    name is padded with zeros to 32 bytes); hence two files whose encodings
    agree on the first 32 bytes have equal name fields. *)
Theorem spiffs_long_names
    (inputs : list (jsstring * list byte * Options)) (i : nat) (f : FileEntry) :
  let sorted := sortFiles (files (added inputs)) in
  let name8 := utf8_encode (filename f) in
  sorted !! i = Some f ->
  exists out, generate (added inputs) = Ok out
    /\ slice (12 + 44 * i) 32 out = take 32 name8 ++ zeros (32 - length name8)
    /\ ((32 < length name8)%nat ->
        slice (12 + 44 * i) 32 out = take 32 name8
        /\ forall j g, sorted !! j = Some g ->
             take 32 (utf8_encode (filename g)) = take 32 name8 ->
             slice (12 + 44 * j) 32 out = slice (12 + 44 * i) 32 out).
Proof.
  intros sorted name8 Hi.
  destruct (generate_entry inputs i f Hi) as (out & Hgen & Hname & _).
  exists out. split; [exact Hgen|].
  rewrite packString_eq in Hname. fold name8 in Hname.
  split; [exact Hname|]. intros Hlong.
  assert (Hfield : slice (12 + 44 * i) 32 out = take 32 name8).
  { rewrite Hname. replace (32 - length name8)%nat with 0%nat by lia.
    apply app_nil_r. }
  split; [exact Hfield|]. intros j g Hj Hsame.
  destruct (generate_entry inputs j g Hj) as (out' & Hgen' & Hname' & _).
  assert (out' = out) by congruence. subst out'.
  rewrite Hname', Hfield, packString_eq, Hsame.
  assert (Hlen : length (take 32 (utf8_encode (filename g))) = 32%nat).
  { rewrite Hsame, length_take. lia. }
  rewrite length_take in Hlen.
  replace (32 - length (utf8_encode (filename g)))%nat with 0%nat by lia.
  apply app_nil_r.
Qed.

End SpiffsClaims.

Lemma spiffs_table_offsets_witness :
  exists out, @SpiffsGenerator.generate exampleHost (SpiffsGenerator.added ex_inputs) = Ok out
    /\ le_value (slice (12 + 44 * 2 + 36) 4 out) = 6
    /\ slice (12 + 44 * 3 + 6) 2 out = [u8 90; u8 90]
    /\ (2%nat = 0%nat -> le_value (slice (12 + 36) 4 out) = 0).
Proof.
  apply (@spiffs_table_offsets exampleHost ex_inputs 2 ex_b_png).
  - reflexivity.
  - vm_compute. reflexivity.
Defined.

Lemma spiffs_checksum_witness :
  exists out, @SpiffsGenerator.generate exampleHost (SpiffsGenerator.added ex_inputs) = Ok out
    /\ drop 12 out
       = tableBytes (@infoOf exampleHost 0
                       (@SpiffsGenerator.sortFiles exampleHost
                          (SpiffsGenerator.files (SpiffsGenerator.added ex_inputs))))
         ++ dataRegion (@infoOf exampleHost 0
                          (@SpiffsGenerator.sortFiles exampleHost
                             (SpiffsGenerator.files (SpiffsGenerator.added ex_inputs))))
    /\ le_value (slice 4 4 out) = byte_sum (drop 12 out) mod 65536
    /\ slice 6 2 out = [x00; x00]
    /\ SpiffsGenerator.computeChecksum (drop 12 out) = le_value (slice 4 4 out).
Proof.
  apply (@spiffs_checksum exampleHost ex_inputs). discriminate.
Defined.

Lemma spiffs_long_names_witness :
  let sorted := @SpiffsGenerator.sortFiles exampleHost
                  (SpiffsGenerator.files (SpiffsGenerator.added ex_long_inputs)) in
  let name8 := utf8_encode (cjk_name 20013) in
  sorted !! 0%nat = Some ex_long_1
  /\ (32 < length name8)%nat
  /\ exists out,
       @SpiffsGenerator.generate exampleHost (SpiffsGenerator.added ex_long_inputs) = Ok out
       /\ slice (12 + 44 * 0) 32 out = take 32 name8 ++ zeros (32 - length name8)
       /\ ((32 < length name8)%nat ->
           slice (12 + 44 * 0) 32 out = take 32 name8
           /\ forall j g, sorted !! j = Some g ->
                take 32 (utf8_encode (SpiffsGenerator.filename g)) = take 32 name8 ->
                slice (12 + 44 * j) 32 out = slice (12 + 44 * 0) 32 out).
Proof.
  split; [reflexivity|]. split; [vm_compute; lia|].
  apply (@spiffs_long_names exampleHost ex_long_inputs 0 ex_long_1). reflexivity.
Defined.

(** ** The stable sort *)

Section SortTheory.
Context {A : Type} (cmp : A -> A -> Z).

Lemma insert_by_hd (x y : A) (l : list A) :
  cmp_le cmp y x -> HdRel (cmp_le cmp) y l -> HdRel (cmp_le cmp) y (insert_by cmp x l).
Proof.
  intros Hyx Hl. destruct l as [|z l]; cbn.
  - now constructor.
  - destruct (cmp x z <=? 0); constructor; [exact Hyx|].
    now inversion Hl.
Qed.





Hypothesis cmp_total : forall a b, cmp_le cmp a b \/ cmp_le cmp b a.

Lemma insert_by_sorted (x : A) (l : list A) :
  Sorted (cmp_le cmp) l -> Sorted (cmp_le cmp) (insert_by cmp x l).
Proof.
  induction 1 as [|y l Hs IH Hhd]; cbn [insert_by].
  - repeat constructor.
  - destruct (Z.leb_spec (cmp x y) 0) as [Hle|Hgt].
    + constructor; [now constructor | now constructor].
    + constructor; [exact IH|].
      apply insert_by_hd; [|exact Hhd].
      destruct (cmp_total x y) as [Hxy|Hyx]; [unfold cmp_le in Hxy; lia | exact Hyx].
Qed.

Lemma array_sort_sorted (l : list A) : Sorted (cmp_le cmp) (array_sort cmp l).
Proof.
  induction l as [|x l IH]; cbn [array_sort foldr]; [constructor|].
  now apply insert_by_sorted.
Qed.


End SortTheory.

Section SpiffsOrder.
Import SpiffsGenerator.
Context `{CollationTotal}.





Context `{!CollationPreorder}.




End SpiffsOrder.

(** Code-unit order is a total order, so [exampleHost] has a collation
    of the kind the theorems ask for; it tells any two different strings
    apart. *)
Lemma codeUnitCompare_total (a b : jsstring) :
  codeUnitCompare a b <= 0 \/ codeUnitCompare b a <= 0.
Proof.
  revert b. induction a as [|x a IH]; intros [|y b]; cbn; try lia.
  destruct (Z.ltb_spec x y), (Z.ltb_spec y x); try lia. apply IH.
Qed.



Lemma exampleHost_total : @CollationTotal exampleHost.
Proof. split; cbn. apply codeUnitCompare_total. Qed.




Section SpiffsOrderClaims.
Import SpiffsGenerator.
Context `{CollationPreorder}.


End SpiffsOrderClaims.



(** ** WakenetModelPacker: the layout of srmodels.bin *)

Section Wakenet.
Import WakenetModelPacker.

Lemma wn_length_packString (s : jsstring) (n : nat) : length (packString s n) = n.
Proof.
  unfold packString. rewrite length_app, length_map, length_take, length_zeros. lia.
Qed.

Lemma length_fileHeaders (start : nat) (fs : list (jsstring * list byte)) :
  length (fileHeaders start fs) = (40 * length fs)%nat.
Proof.
  revert start. induction fs as [|[n d] fs IH]; intros start; cbn [fileHeaders length].
  - lia.
  - rewrite !length_app, wn_length_packString, !length_le_bytes, IH. lia.
Qed.

Lemma length_modelBytes_files (fs : list (jsstring * list byte)) :
  length (concat (map snd fs)) = filesSize fs.
Proof.
  unfold filesSize. induction fs as [|[n d] fs IH]; [reflexivity|].
  cbn [map concat snd sum_list sum_list_with id]. rewrite length_app, IH. reflexivity.
Qed.

Lemma writeFileHeader_fill (done : list byte) (n d : nat) (file : jsstring * list byte) :
  writeFileHeader {| output := done ++ zeros (40 + n); offset := length done;
                     dataOffset := d |} file
  = Ok {| output := (done ++ fileHeaders d [file]) ++ zeros n;
          offset := length (done ++ fileHeaders d [file]);
          dataOffset := (d + length (snd file))%nat |}.
Proof.
  destruct file as [fileName fileData]. unfold writeFileHeader. cbn [output offset dataOffset].
  rewrite u8array_set_fill by (rewrite ?wn_length_packString; lia).
  cbn [rbind]. rewrite wn_length_packString.
  rewrite u8array_set_fill
    by (rewrite ?length_app, ?wn_length_packString, ?wakenet_packUint32, ?length_le_bytes; lia).
  cbn [rbind]. rewrite wakenet_packUint32, length_le_bytes.
  rewrite u8array_set_fill
    by (rewrite ?length_app, ?wn_length_packString, ?wakenet_packUint32, ?length_le_bytes; lia).
  cbn [rbind]. rewrite wakenet_packUint32, length_le_bytes.
  replace (40 + n - 32 - 4 - 4)%nat with n by lia.
  cbn [fileHeaders snd]. rewrite app_nil_r.
  rewrite !length_app, wn_length_packString, !length_le_bytes.
  f_equal. f_equal.
  - now rewrite <- !app_assoc.
  - lia.
Qed.

Lemma fileHeaders_app (d : nat) (a b : list (jsstring * list byte)) :
  fileHeaders d (a ++ b) = fileHeaders d a ++ fileHeaders (d + filesSize a) b.
Proof.
  revert d. induction a as [|[n x] a IH]; intros d.
  - cbn. now rewrite Nat.add_0_r.
  - cbn [app fileHeaders]. rewrite IH. unfold filesSize.
    cbn [map snd sum_list sum_list_with id]. rewrite <- !app_assoc.
    rewrite Nat.add_assoc. reflexivity.
Qed.

Lemma fileHeader_loop (fs : list (jsstring * list byte)) (done : list byte) (n d : nat) :
  for_each writeFileHeader fs
    {| output := done ++ zeros (40 * length fs + n); offset := length done; dataOffset := d |}
  = Ok {| output := (done ++ fileHeaders d fs) ++ zeros n;
          offset := length (done ++ fileHeaders d fs);
          dataOffset := (d + filesSize fs)%nat |}.
Proof.
  revert done d. induction fs as [|file fs IH]; intros done d.
  - cbn. rewrite app_nil_r. unfold filesSize. cbn. now rewrite Nat.add_0_r.
  - cbn [for_each length].
    replace (40 * S (length fs) + n)%nat with (40 + (40 * length fs + n))%nat by lia.
    rewrite writeFileHeader_fill. cbn [rbind]. rewrite IH.
    change (file :: fs) with ([file] ++ fs). rewrite fileHeaders_app.
    unfold filesSize. cbn [map sum_list sum_list_with id app]. rewrite !Nat.add_0_r.
    rewrite <- !app_assoc. do 2 f_equal. lia.
Qed.

Lemma writeModelHeader_fill (done : list byte) (n d : nat) (m : ModelData) :
  writeModelHeader {| output := done ++ zeros (modelHeaderSize m + n); offset := length done;
                      dataOffset := d |} m
  = Ok {| output := (done ++ modelHeaders d [m]) ++ zeros n;
          offset := length (done ++ modelHeaders d [m]);
          dataOffset := (d + filesSize (files m))%nat |}.
Proof.
  unfold writeModelHeader, modelHeaderSize. cbn [output offset dataOffset].
  rewrite u8array_set_fill by (rewrite ?wn_length_packString; lia).
  cbn [rbind]. rewrite wn_length_packString.
  rewrite u8array_set_fill
    by (rewrite ?length_app, ?wn_length_packString, ?wakenet_packUint32, ?length_le_bytes; lia).
  cbn [rbind]. rewrite wakenet_packUint32, length_le_bytes.
  replace (32 + 4 + length (files m) * (32 + 4 + 4) + n - 32 - 4)%nat
    with (40 * length (files m) + n)%nat by lia.
  replace (length done + 32 + 4)%nat
    with (length ((done ++ packString (name m) 32)
                  ++ le_bytes 4 (Z.of_nat (length (files m)))))
    by (rewrite !length_app, wn_length_packString, length_le_bytes; lia).
  rewrite fileHeader_loop. cbn [modelHeaders]. rewrite app_nil_r.
  now rewrite <- !app_assoc.
Qed.

Lemma modelHeaders_app (d : nat) (a b : list ModelData) :
  modelHeaders d (a ++ b)
  = modelHeaders d a ++ modelHeaders (d + sum_list (map (fun m => filesSize (files m)) a)) b.
Proof.
  revert d. induction a as [|m a IH]; intros d.
  - cbn. now rewrite Nat.add_0_r.
  - cbn [app modelHeaders map sum_list sum_list_with id]. rewrite IH.
    rewrite <- !app_assoc. rewrite Nat.add_assoc. reflexivity.
Qed.

Lemma modelHeader_loop (ms : list ModelData) (done : list byte) (n d : nat) :
  for_each writeModelHeader ms
    {| output := done ++ zeros (sum_list (map modelHeaderSize ms) + n);
       offset := length done; dataOffset := d |}
  = Ok {| output := (done ++ modelHeaders d ms) ++ zeros n;
          offset := length (done ++ modelHeaders d ms);
          dataOffset := (d + sum_list (map (fun m => filesSize (files m)) ms))%nat |}.
Proof.
  revert done d. induction ms as [|m ms IH]; intros done d.
  - cbn. rewrite app_nil_r. now rewrite Nat.add_0_r.
  - cbn [for_each map sum_list sum_list_with id].
    rewrite <- Nat.add_assoc. rewrite writeModelHeader_fill. cbn [rbind].
    rewrite IH. change (m :: ms) with ([m] ++ ms). rewrite modelHeaders_app.
    cbn [map sum_list sum_list_with id app]. rewrite !Nat.add_0_r.
    rewrite <- !app_assoc. do 2 f_equal. lia.
Qed.

Lemma fileBytes_loop (fs : list (jsstring * list byte)) (done : list byte) (n : nat) :
  for_each writeFileBytes fs (done ++ zeros (filesSize fs + n), length done)
  = Ok ((done ++ concat (map snd fs)) ++ zeros n, length (done ++ concat (map snd fs))).
Proof.
  revert done. induction fs as [|[fn fd] fs IH]; intros done.
  - cbn. now rewrite app_nil_r.
  - cbn [for_each writeFileBytes snd]. unfold filesSize.
    cbn [map snd sum_list sum_list_with id]. fold (filesSize fs).
    rewrite <- Nat.add_assoc.
    rewrite u8array_set_fill by lia. cbn [rbind].
    replace (length fd + (filesSize fs + n) - length fd)%nat with (filesSize fs + n)%nat by lia.
    replace (length done + length fd)%nat with (length (done ++ fd))
      by (rewrite length_app; lia).
    rewrite IH. cbn [concat]. now rewrite <- !app_assoc.
Qed.

Lemma modelBytes_loop (ms : list ModelData) (done : list byte) :
  for_each writeModelBytes ms
    (done ++ zeros (sum_list (map (fun m => filesSize (files m)) ms)), length done)
  = Ok (done ++ modelBytes ms, length (done ++ modelBytes ms)).
Proof.
  revert done. induction ms as [|m ms IH]; intros done.
  - cbn. now rewrite !app_nil_r.
  - cbn [for_each map sum_list sum_list_with id]. unfold writeModelBytes at 1.
    rewrite fileBytes_loop. cbn [rbind]. rewrite IH.
    unfold modelBytes. cbn [map concat]. now rewrite <- !app_assoc.
Qed.

Context `{Host}.

Lemma foldl_add_sum {A} (f : A -> nat) (l : list A) (acc : nat) :
  foldl (fun a x => (a + f x)%nat) acc l = (acc + sum_list (map f l))%nat.
Proof.
  revert acc. induction l as [|x l IH]; intros acc; cbn [foldl map sum_list sum_list_with id].
  - lia.
  - rewrite IH. lia.
Qed.

Lemma foldl_pointwise {A B} (f g : A -> B -> A) (l : list B) (a : A) :
  (forall a x, f a x = g a x) -> foldl f a l = foldl g a l.
Proof.
  intros E. revert a. induction l as [|x l IH]; intros a; cbn; [reflexivity|].
  now rewrite E, IH.
Qed.

Lemma headerLen_eq (ms : list ModelData) :
  foldl (fun acc model => (acc + (32 + 4) + length (files model) * (32 + 4 + 4))%nat) 4%nat ms
  = headerLength ms.
Proof.
  unfold headerLength.
  rewrite <- (foldl_add_sum modelHeaderSize ms 4).
  apply foldl_pointwise. intros acc m. unfold modelHeaderSize. lia.
Qed.

Lemma filesSize_sorted (fs : list (jsstring * list byte)) :
  filesSize (array_sort compareKeys fs) = filesSize fs.
Proof. unfold filesSize. now rewrite array_sort_perm. Qed.

Lemma dataSize_eq (this : t) :
  foldl (fun total fs =>
           (total + foldl (fun fileTotal fileData => (fileTotal + length fileData)%nat)
                          0%nat (map snd fs))%nat)
        0%nat (map snd (models this))
  = sum_list (map (fun m => filesSize (files m)) (modelDataList this)).
Proof.
  rewrite (foldl_pointwise _ (fun total fs => (total + filesSize fs)%nat)).
  2:{ intros total fs. rewrite (foldl_add_sum length). unfold filesSize.
      now rewrite map_map. }
  rewrite foldl_add_sum. cbn [Nat.add].
  unfold modelDataList. rewrite !map_map.
  rewrite <- (array_sort_perm compareKeys (models this)) at 1.
  f_equal. apply map_ext. intros [n fs]. cbn [snd files].
  now rewrite filesSize_sorted.
Qed.

Lemma length_modelDataList (this : t) : length (modelDataList this) = length (models this).
Proof. unfold modelDataList. now rewrite length_map, array_sort_perm. Qed.

Lemma length_modelHeaders (d : nat) (ms : list ModelData) :
  length (modelHeaders d ms) = sum_list (map modelHeaderSize ms).
Proof.
  revert d. induction ms as [|m ms IH]; intros d; [reflexivity|].
  cbn [modelHeaders map sum_list sum_list_with id].
  rewrite !length_app, wn_length_packString, length_le_bytes, length_fileHeaders, IH.
  unfold modelHeaderSize. lia.
Qed.

(** [packModels] returns, and what it returns is [modelBlob]. *)
Lemma packModels_layout (this : t) :
  models this <> [] -> packModels this = Ok (modelBlob (modelDataList this)).
Proof.
  intros Hne. unfold packModels.
  destruct (decide (length (models this) = 0%nat)) as [Hz|_].
  { destruct (models this); [congruence | discriminate]. }
  rewrite headerLen_eq, dataSize_eq.
  set (ms := modelDataList this).
  set (dsz := sum_list (map (fun m => filesSize (files m)) ms)).
  unfold headerLength.
  rewrite <- (length_modelDataList this). fold ms.
  rewrite wakenet_packUint32.
  rewrite u8array_set_fill0 by (rewrite length_le_bytes; lia).
  cbn [rbind]. rewrite length_le_bytes.
  replace (4 + sum_list (map modelHeaderSize ms) + dsz - 4)%nat
    with (sum_list (map modelHeaderSize ms) + dsz)%nat by lia.
  pose proof (modelHeader_loop ms (le_bytes 4 (Z.of_nat (length ms))) dsz
                (4 + sum_list (map modelHeaderSize ms))) as Hh.
  rewrite length_le_bytes in Hh. rewrite Hh. cbn [rbind output offset].
  pose proof (modelBytes_loop ms
                (le_bytes 4 (Z.of_nat (length ms))
                 ++ modelHeaders (4 + sum_list (map modelHeaderSize ms)) ms)) as Hb.
  fold dsz in Hb. rewrite Hb. cbn [rbind fst].
  unfold modelBlob, headerLength. now rewrite <- app_assoc.
Qed.

End Wakenet.


Section WakenetReader.
Import WakenetModelPacker.

Lemma readName_zeros (n : nat) : readName (zeros n) = [].
Proof. destruct n; reflexivity. Qed.

Lemma readName_packString (s : jsstring) : name_ok s -> readName (packString s 32) = s.
Proof.
  intros [Hlen Hunits]. unfold packString.
  rewrite Nat.min_l by lia. rewrite take_ge by lia.
  generalize (32 - length s)%nat as k. intros k.
  induction Hunits as [|c s Hc Hs IH]; cbn [map app readName].
  - apply readName_zeros.
  - rewrite b2z_u8, js_and_low, Z.mod_small by lia.
    destruct (Z.eqb_spec c 0); [lia|]. rewrite IH; [reflexivity|].
    cbn [length] in Hlen. lia.
Qed.

Lemma readU32_le_bytes (blob pre post : list byte) (v pos : nat) :
  blob = pre ++ le_bytes 4 (Z.of_nat v) ++ post -> pos = length pre ->
  Z.of_nat v < 2 ^ 32 -> readU32 blob pos = v.
Proof.
  intros Hb Hp Hv. unfold readU32.
  rewrite (slice_at pre (le_bytes 4 (Z.of_nat v)) post blob pos 4 Hb Hp)
    by now rewrite length_le_bytes.
  rewrite le_value_le_bytes, Z.mod_small; [lia|].
  change (256 ^ Z.of_nat 4) with (2 ^ 32). lia.
Qed.

Lemma readFiles_spec (blob : list byte) (fs : list (jsstring * list byte)) :
  Z.of_nat (length blob) < 2 ^ 32 -> file_names_ok fs ->
  forall (pre post dpre dpost : list byte),
    blob = pre ++ fileHeaders (length dpre) fs ++ post ->
    blob = dpre ++ concat (map snd fs) ++ dpost ->
    readFiles blob (length pre) (length fs) = (fs, (length pre + 40 * length fs)%nat).
Proof.
  intros Hsize Hnames. induction Hnames as [|[fname fdata] fs Hn Hfs IH];
    intros pre post dpre dpost Hh Hd.
  - cbn. f_equal. lia.
  - cbn [length readFiles]. cbn [fileHeaders map snd concat] in Hh, Hd.
    repeat rewrite <- app_assoc in Hh. repeat rewrite <- app_assoc in Hd.
    assert (Hlen : (length dpre + length fdata <= length blob)%nat).
    { rewrite Hd, !length_app. lia. }
    erewrite (slice_at pre (packString fname 32) _ blob _ _ Hh eq_refl)
      by now rewrite wn_length_packString.
    erewrite (readU32_le_bytes blob (pre ++ packString fname 32) _ (length dpre));
      [| repeat rewrite <- app_assoc; exact Hh
       | rewrite length_app, wn_length_packString; lia
       | lia].
    erewrite (readU32_le_bytes blob
               (pre ++ packString fname 32 ++ le_bytes 4 (Z.of_nat (length dpre))) _
               (length fdata));
      [| repeat rewrite <- app_assoc; exact Hh
       | rewrite !length_app, wn_length_packString, length_le_bytes; lia
       | lia].
    erewrite (slice_at dpre fdata _ blob _ _ Hd eq_refl eq_refl).
    specialize (IH (pre ++ packString fname 32 ++ le_bytes 4 (Z.of_nat (length dpre))
                        ++ le_bytes 4 (Z.of_nat (length fdata)))
                   post (dpre ++ fdata) dpost).
    rewrite !length_app, wn_length_packString, !length_le_bytes in IH.
    replace (length pre + 40)%nat with (length pre + (32 + (4 + 4)))%nat by lia.
    rewrite IH.
    + cbn in Hn. rewrite readName_packString by exact Hn. f_equal. lia.
    + repeat rewrite <- app_assoc. exact Hh.
    + repeat rewrite <- app_assoc. exact Hd.
Qed.

Lemma readModels_spec (blob : list byte) (ms : list ModelData) :
  Z.of_nat (length blob) < 2 ^ 32 -> model_names_ok ms ->
  forall (pre post dpre dpost : list byte),
    blob = pre ++ modelHeaders (length dpre) ms ++ post ->
    blob = dpre ++ modelBytes ms ++ dpost ->
    readModelsFrom blob (length pre) (length ms) = map (fun m => (name m, files m)) ms.
Proof.
  intros Hsize Hnames. induction Hnames as [|m ms [Hn Hf] Hms IH];
    intros pre post dpre dpost Hh Hd.
  - reflexivity.
  - cbn [length readModelsFrom map]. cbn [modelHeaders] in Hh.
    unfold modelBytes in Hd. cbn [map concat] in Hd. fold (modelBytes ms) in Hd.
    repeat rewrite <- app_assoc in Hh. repeat rewrite <- app_assoc in Hd.
    assert (Hcount : Z.of_nat (length (files m)) < 2 ^ 32).
    { assert (40 * length (files m) <= length blob)%nat; [|lia].
      rewrite Hh, !length_app, length_fileHeaders. lia. }
    erewrite (slice_at pre (packString (name m) 32) _ blob _ _ Hh eq_refl)
      by now rewrite wn_length_packString.
    erewrite (readU32_le_bytes blob (pre ++ packString (name m) 32) _ (length (files m)));
      [| repeat rewrite <- app_assoc; exact Hh
       | rewrite length_app, wn_length_packString; lia
       | exact Hcount].
    pose proof (readFiles_spec blob (files m) Hsize Hf
                  (pre ++ packString (name m) 32 ++ le_bytes 4 (Z.of_nat (length (files m))))
                  (modelHeaders (length dpre + filesSize (files m)) ms ++ post)
                  dpre (modelBytes ms ++ dpost)) as Hr.
    rewrite !length_app, wn_length_packString, length_le_bytes in Hr.
    replace (length pre + 36)%nat with (length pre + (32 + 4))%nat by lia.
    rewrite Hr.
    + rewrite readName_packString by exact Hn. f_equal.
      specialize (IH (pre ++ packString (name m) 32
                          ++ le_bytes 4 (Z.of_nat (length (files m)))
                          ++ fileHeaders (length dpre) (files m))
                     post (dpre ++ concat (map snd (files m))) dpost).
      rewrite !length_app, wn_length_packString, length_le_bytes, length_fileHeaders,
        length_modelBytes_files in IH.
      replace (length pre + (32 + 4) + 40 * length (files m))%nat
        with (length pre + (32 + (4 + 40 * length (files m))))%nat by lia.
      apply IH.
      * repeat rewrite <- app_assoc. exact Hh.
      * repeat rewrite <- app_assoc. exact Hd.
    + repeat rewrite <- app_assoc. exact Hh.
    + repeat rewrite <- app_assoc. exact Hd.
Qed.

Lemma readModels_modelBlob (ms : list ModelData) :
  Z.of_nat (length (modelBlob ms)) < 2 ^ 32 -> model_names_ok ms ->
  readModels (modelBlob ms) = map (fun m => (name m, files m)) ms.
Proof.
  intros Hsize Hnames. unfold readModels.
  assert (Hcount : Z.of_nat (length ms) < 2 ^ 32).
  { assert (Hle : (length ms <= sum_list (map modelHeaderSize ms))%nat).
    { clear. induction ms as [|m ms IH]; cbn [length map sum_list sum_list_with id]; [lia|].
      unfold modelHeaderSize at 1. lia. }
    unfold modelBlob in Hsize. rewrite !length_app, length_modelHeaders in Hsize. lia. }
  erewrite (readU32_le_bytes (modelBlob ms) [] _ (length ms));
    [|reflexivity|reflexivity|exact Hcount].
  apply (readModels_spec (modelBlob ms) ms Hsize Hnames
           (le_bytes 4 (Z.of_nat (length ms))) (modelBytes ms)
           (le_bytes 4 (Z.of_nat (length ms)) ++ modelHeaders (headerLength ms) ms) []).
  - unfold modelBlob. do 2 f_equal.
    rewrite length_app, length_le_bytes, length_modelHeaders. reflexivity.
  - unfold modelBlob. now rewrite app_nil_r, <- app_assoc.
Qed.

End WakenetReader.

Section WakenetClaims.
Import WakenetModelPacker.
Context `{CollationTotal}.

Lemma map_set_nonempty {V} (m : jsmap V) (k : jsstring) (v : V) : map_set m k v <> [].
Proof.
  destruct m as [|[k' v'] m]; cbn; [discriminate|].
  destruct (decide (k' = k)); discriminate.
Qed.

Lemma added_nonempty (inputs : list (jsstring * jsstring * list byte)) :
  inputs <> [] -> models (added inputs) <> [].
Proof.
  unfold added.
  assert (Hkeep : forall l p, models p <> [] ->
    models (foldl (fun p '(modelName, fileName, fileData) =>
                     addModelFile p modelName fileName fileData) p l) <> []).
  { induction l as [|[[mn fn] fd] l IH]; intros p Hp; cbn [foldl]; [exact Hp|].
    apply IH. cbn [addModelFile models]. apply map_set_nonempty. }
  destruct inputs as [|[[mn fn] fd] inputs]; [congruence|]. intros _.
  cbn [foldl]. apply Hkeep. cbn [addModelFile models]. apply map_set_nonempty.
Qed.

Lemma compareKeys_total {V} (a b : jsstring * V) :
  cmp_le compareKeys a b \/ cmp_le compareKeys b a.
Proof. unfold cmp_le, compareKeys. apply lc_total. Qed.

Lemma sorted_keys {V} (l : list (jsstring * V)) :
  Sorted (fun a b => localeCompare a b <= 0) (map fst (array_sort compareKeys l)).
Proof.
  apply (Sorted_fmap fst (cmp_le compareKeys)).
  - intros x y Hxy. exact Hxy.
  - apply array_sort_sorted, compareKeys_total.
Qed.

(** C6. For a non-empty sequence of [addModelFile] calls, [packModels]
    returns the blob that starts with the model count as a little-endian
    word, goes on with one header per model in the sorted order of the model
    names (32-byte name, file count, then per file in the sorted order of
    the file names a 32-byte name, the start offset and the length), and ends
    with the bytes of all files in that same order. Each start offset counts
    from the start of the blob: when the blob is shorter than 2^32 bytes and
    every name fits its field, reading the blob by its offset table gives
    back the names and the bytes of every file. *)
Theorem wakenet_layout_roundtrip (inputs : list (jsstring * jsstring * list byte)) :
  inputs <> [] ->
  let this := added inputs in
  let ms := modelDataList this in
  exists out, packModels this = Ok out
    /\ out = le_bytes 4 (Z.of_nat (length ms))
               ++ modelHeaders (headerLength ms) ms ++ modelBytes ms
    /\ Sorted (fun a b => localeCompare a b <= 0) (map name ms)
    /\ Forall (fun m => Sorted (fun a b => localeCompare a b <= 0) (map fst (files m))) ms
    /\ (exists sortedModels, sortedModels ≡ₚ models this
          /\ Forall2 (fun m e => name m = fst e /\ files m ≡ₚ snd e) ms sortedModels)
    /\ (Z.of_nat (length out) < 2 ^ 32 -> model_names_ok ms ->
        readModels out = map (fun m => (name m, files m)) ms).
Proof.
  intros Hne this ms.
  exists (modelBlob ms). split; [apply packModels_layout, added_nonempty, Hne|].
  split; [reflexivity|]. split; [|split; [|split]].
  - unfold ms, modelDataList. rewrite map_map.
    erewrite map_ext; [apply (sorted_keys (models this))|].
    intros [n fs]. reflexivity.
  - unfold ms, modelDataList. apply Forall_forall. intros m Hm.
    apply list_elem_of_fmap in Hm as ([n fs] & -> & _). cbn [files].
    apply sorted_keys.
  - exists (array_sort compareKeys (models this)). split; [apply array_sort_perm|].
    unfold ms, modelDataList.
    induction (array_sort compareKeys (models this)) as [|[n fs] l IH]; cbn [map].
    + constructor.
    + constructor; [|exact IH]. cbn. split; [reflexivity | apply array_sort_perm].
  - intros Hsize Hnames. now apply readModels_modelBlob.
Qed.

End WakenetClaims.

Lemma wakenet_layout_roundtrip_witness :
  exists out,
    @WakenetModelPacker.packModels exampleHost (WakenetModelPacker.added ex_models) = Ok out
    /\ readModels out
       = [ (js "wn9_a", [ (js "_MODEL_INFO_", [u8 8; u8 9]);
                          (js "wn9_data", [u8 3]);
                          (js "wn9_index", []) ]);
           (js "wn9_b", [ (js "_MODEL_INFO_", [u8 4; u8 5; u8 6]);
                          (js "wn9_data", [u8 7]);
                          (js "wn9_index", [u8 1; u8 2]) ]) ].
Proof.
  destruct (@wakenet_layout_roundtrip exampleHost exampleHost_total ex_models)
    as (out & Hp & Hout & _ & _ & _ & Hr); [discriminate|].
  exists out. split; [exact Hp|].
  rewrite Hr.
  - reflexivity.
  - rewrite Hout. vm_compute. reflexivity.
  - repeat constructor; cbn; lia.
Defined.

(** ** convertImageToRgb565: header and pixels *)

Lemma lor_shiftl_small (hi lo n : Z) :
  0 <= n -> 0 <= lo < 2 ^ n -> Z.lor (Z.shiftl hi n) lo = hi * 2 ^ n + lo.
Proof.
  intros Hn Hlo.
  assert (Hland : Z.land (Z.shiftl hi n) lo = 0).
  { apply Z.bits_inj'. intros i Hi. rewrite Z.land_spec, Z.bits_0.
    destruct (Z.lt_ge_cases i n) as [Hlt|Hge].
    - rewrite Z.shiftl_spec_low by lia. reflexivity.
    - rewrite <- (Z.mod_small lo (2 ^ n)) by lia.
      rewrite Z.mod_pow2_bits_high by lia. apply andb_false_r. }
  rewrite <- Z.lxor_lor by exact Hland.
  rewrite <- Z.add_nocarry_lxor by exact Hland.
  now rewrite Z.shiftl_mul_pow2 by lia.
Qed.

Lemma le_bytes_app (a b : nat) (v : Z) :
  le_bytes (a + b) v = le_bytes a v ++ le_bytes b (v / 256 ^ Z.of_nat a).
Proof.
  revert v. induction a as [|a IH]; intros v.
  - cbn [Nat.add le_bytes app]. now rewrite Z.div_1_r.
  - cbn [Nat.add le_bytes app]. rewrite IH. do 3 f_equal.
    rewrite Nat2Z.inj_succ, Z.pow_succ_r by lia.
    rewrite Z.div_div by lia. reflexivity.
Qed.

(** A 32-bit word made of two 16-bit fields. *)
Lemma le_bytes_fields (lo hi : Z) :
  0 <= lo < 65536 -> le_bytes 4 (lo + hi * 65536) = le_bytes 2 lo ++ le_bytes 2 hi.
Proof.
  intros Hlo. change 4%nat with (2 + 2)%nat. rewrite le_bytes_app.
  change (256 ^ Z.of_nat 2) with 65536. f_equal.
  - apply le_bytes_mod. change (256 ^ Z.of_nat 2) with 65536.
    now rewrite Z.mod_add by lia.
  - f_equal. rewrite Z.div_add by lia. rewrite Z.div_small by lia. reflexivity.
Qed.

Lemma toInt32_mod (z : Z) : toInt32 z mod 2 ^ 32 = z mod 2 ^ 32.
Proof.
  destruct (toInt32_congr z) as [m ->].
  replace (z + 2 ^ 32 * m) with (z + m * 2 ^ 32) by ring.
  apply Z.mod_add. lia.
Qed.

Lemma toInt32_toInt32 (z : Z) : toInt32 (toInt32 z) = toInt32 z.
Proof. apply toInt32_small, toInt32_range. Qed.

Section Rgb565.
Import AssetsBuilder.

Lemma pack565_sum (r g b : byte) :
  pack565 r g b = (b2z r / 8) * 2048 + (b2z g / 4) * 32 + b2z b / 8.
Proof.
  unfold pack565. pose proof (b2z_range r). pose proof (b2z_range g). pose proof (b2z_range b).
  rewrite !Z.shiftr_div_pow2 by lia.
  change (2 ^ 3) with 8. change (2 ^ 2) with 4.
  assert (0 <= b2z r / 8 < 32) by (split; [apply Z.div_pos | apply Z.div_lt_upper_bound]; lia).
  assert (0 <= b2z g / 4 < 64) by (split; [apply Z.div_pos | apply Z.div_lt_upper_bound]; lia).
  assert (0 <= b2z b / 8 < 32) by (split; [apply Z.div_pos | apply Z.div_lt_upper_bound]; lia).
  rewrite (Z.shiftl_mul_pow2 (b2z g / 4) 5) by lia.
  rewrite (lor_shiftl_small (b2z r / 8) (b2z g / 4 * 2 ^ 5) 11) by lia.
  replace (b2z r / 8 * 2 ^ 11 + b2z g / 4 * 2 ^ 5)
    with (Z.shiftl (b2z r / 8 * 64 + b2z g / 4) 5)
    by (rewrite Z.shiftl_mul_pow2 by lia; lia).
  rewrite lor_shiftl_small by lia. lia.
Qed.

Lemma pack565_range (r g b : byte) : 0 <= pack565 r g b < 65536.
Proof.
  rewrite pack565_sum.
  pose proof (b2z_range r). pose proof (b2z_range g). pose proof (b2z_range b).
  assert (0 <= b2z r / 8 < 32) by (split; [apply Z.div_pos | apply Z.div_lt_upper_bound]; lia).
  assert (0 <= b2z g / 4 < 64) by (split; [apply Z.div_pos | apply Z.div_lt_upper_bound]; lia).
  assert (0 <= b2z b / 8 < 32) by (split; [apply Z.div_pos | apply Z.div_lt_upper_bound]; lia).
  lia.
Qed.

Lemma js_shr_small (a n : Z) :
  0 <= a < 2 ^ 31 -> 0 <= n < 32 -> js_shr a n = Z.shiftr a n.
Proof.
  intros Ha Hn. unfold js_shr. rewrite toInt32_small by lia.
  now rewrite Z.mod_small by lia.
Qed.

Lemma js_shl_small (a n : Z) :
  0 <= a -> 0 <= n < 32 -> a * 2 ^ n < 2 ^ 31 -> js_shl a n = Z.shiftl a n.
Proof.
  intros Ha Hn Hb. unfold js_shl.
  assert (0 < 2 ^ n) by (apply Z.pow_pos_nonneg; lia).
  rewrite (toInt32_small a) by nia.
  rewrite Z.mod_small by lia.
  rewrite Z.shiftl_mul_pow2 by lia. apply toInt32_small. nia.
Qed.

Lemma js_or_small (a b : Z) :
  - 2 ^ 31 <= a < 2 ^ 31 -> - 2 ^ 31 <= b < 2 ^ 31 -> js_or a b = Z.lor a b.
Proof. intros Ha Hb. unfold js_or. now rewrite !toInt32_small by lia. Qed.

(** The 32-bit operators of the pixel loop compute [pack565]. *)
Lemma rgb565_pack565 (r g b : byte) : rgb565 (b2z r) (b2z g) (b2z b) = pack565 r g b.
Proof.
  unfold rgb565.
  pose proof (b2z_range r). pose proof (b2z_range g). pose proof (b2z_range b).
  rewrite !js_shr_small by lia.
  assert (Hr : 0 <= Z.shiftr (b2z r) 3 < 32).
  { rewrite Z.shiftr_div_pow2 by lia.
    split; [apply Z.div_pos | apply Z.div_lt_upper_bound]; lia. }
  assert (Hg : 0 <= Z.shiftr (b2z g) 2 < 64).
  { rewrite Z.shiftr_div_pow2 by lia.
    split; [apply Z.div_pos | apply Z.div_lt_upper_bound]; lia. }
  assert (Hb : 0 <= Z.shiftr (b2z b) 3 < 32).
  { rewrite Z.shiftr_div_pow2 by lia.
    split; [apply Z.div_pos | apply Z.div_lt_upper_bound]; lia. }
  rewrite !js_shl_small by lia.
  assert (Hrs : 0 <= Z.shiftl (Z.shiftr (b2z r) 3) 11 < 65536)
    by (rewrite Z.shiftl_mul_pow2 by lia; lia).
  assert (Hgs : 0 <= Z.shiftl (Z.shiftr (b2z g) 2) 5 < 2048)
    by (rewrite Z.shiftl_mul_pow2 by lia; lia).
  assert (Hrg : 0 <= Z.lor (Z.shiftl (Z.shiftr (b2z r) 3) 11)
                          (Z.shiftl (Z.shiftr (b2z g) 2) 5) < 65536).
  { rewrite (Z.shiftl_mul_pow2 _ 5) by lia.
    rewrite lor_shiftl_small by lia. lia. }
  rewrite (js_or_small (Z.shiftl _ 11) (Z.shiftl _ 5)) by lia.
  rewrite js_or_small by lia. reflexivity.
Qed.

Lemma convertPixels_quads (pixels : list byte) (n : nat) :
  length pixels = (4 * n)%nat ->
  forall (done : list Z) (m : nat),
    convertPixels pixels (length done) (done ++ replicate (n + m) 0)
    = done ++ map (fun '(r, g, b) => pack565 r g b) (rgbQuads pixels) ++ replicate m 0.
Proof.
  revert pixels. induction n as [|n IH]; intros pixels Hlen done m.
  - destruct pixels; [reflexivity | discriminate].
  - destruct pixels as [|r [|g [|b [|a rest]]]]; try (exfalso; cbn in Hlen; lia).
    cbn [convertPixels rgbQuads map app].
    unfold u16array_store. cbn [Nat.add replicate].
    rewrite insert_app_r_alt by lia. rewrite Nat.sub_diag. cbn [insert list_insert].
    rewrite rgb565_pack565, Z.mod_small by apply pack565_range.
    replace (S (length done)) with (length (done ++ [pack565 r g b]))
      by (rewrite length_app; cbn; lia).
    replace (done ++ pack565 r g b :: replicate (n + m) 0)
      with ((done ++ [pack565 r g b]) ++ replicate (n + m) 0)
      by now rewrite <- app_assoc.
    rewrite IH by (cbn in Hlen; lia). now rewrite <- app_assoc.
Qed.

Lemma rgbQuads_lookup (pixels : list byte) (k : nat) (r g b : byte) :
  pixels !! (4 * k)%nat = Some r -> pixels !! (4 * k + 1)%nat = Some g ->
  pixels !! (4 * k + 2)%nat = Some b -> (4 * k + 3 < length pixels)%nat ->
  rgbQuads pixels !! k = Some (r, g, b).
Proof.
  revert pixels. induction k as [|k IH]; intros pixels Hr Hg Hb Hlen.
  - destruct pixels as [|r' [|g' [|b' [|a rest]]]]; cbn in *; try lia.
    congruence.
  - destruct pixels as [|r' [|g' [|b' [|a rest]]]]; cbn [length] in Hlen; try lia.
    cbn [rgbQuads]. rewrite lookup_cons_ne_0 by lia. cbn [pred].
    replace (4 * S k)%nat with (S (S (S (S (4 * k))))) in * by lia.
    apply IH; cbn in *; try assumption. lia.
Qed.

Lemma length_rgbQuads (pixels : list byte) (n : nat) :
  length pixels = (4 * n)%nat -> length (rgbQuads pixels) = n.
Proof.
  revert pixels. induction n as [|n IH]; intros pixels Hlen.
  - destruct pixels; [reflexivity | discriminate].
  - destruct pixels as [|r [|g [|b [|a rest]]]]; try (exfalso; cbn in Hlen; lia).
    cbn [rgbQuads length]. f_equal. apply IH. cbn in Hlen. lia.
Qed.

End Rgb565.

Section Rgb565Layout.
Import AssetsBuilder.

Lemma length_imageHeader (w h : nat) : length (imageHeader w h) = 28%nat.
Proof. unfold imageHeader. rewrite !length_app, !length_le_bytes. reflexivity. Qed.

Lemma sizeWord_bytes (w h : nat) :
  Z.of_nat w < 65536 -> Z.of_nat h < 65536 ->
  le_bytes 4 (js_or (js_shl (Z.of_nat h) 16) (Z.of_nat w))
  = le_bytes 2 (Z.of_nat w) ++ le_bytes 2 (Z.of_nat h).
Proof.
  intros Hw Hh. rewrite <- le_bytes_fields by lia.
  apply le_bytes_mod. change (256 ^ Z.of_nat 4) with (2 ^ 32).
  unfold js_or, js_shl. rewrite toInt32_toInt32.
  rewrite (toInt32_small (Z.of_nat h)) by lia.
  rewrite (toInt32_small (Z.of_nat w)) by lia.
  change (16 mod 32) with 16. rewrite Z.shiftl_mul_pow2 by lia.
  destruct (toInt32_congr (Z.of_nat h * 2 ^ 16)) as [m Hm].
  pose proof (toInt32_range (Z.of_nat h * 2 ^ 16)) as Hr.
  assert (Hsh : toInt32 (Z.of_nat h * 2 ^ 16) = Z.shiftl (Z.of_nat h + 65536 * m) 16).
  { rewrite Z.shiftl_mul_pow2 by lia. rewrite Hm. lia. }
  rewrite Hsh, lor_shiftl_small by lia.
  replace ((Z.of_nat h + 65536 * m) * 2 ^ 16 + Z.of_nat w)
    with (Z.of_nat w + Z.of_nat h * 65536 + m * 2 ^ 32) by lia.
  apply Z.mod_add. lia.
Qed.

Lemma strideWord_bytes (w : nat) :
  Z.of_nat w < 32768 ->
  le_bytes 4 (js_or (js_shl 0 16) (Z.of_nat w * 2))
  = le_bytes 2 (2 * Z.of_nat w) ++ le_bytes 2 0.
Proof.
  intros Hw. rewrite <- le_bytes_fields by lia. f_equal.
  change (js_shl 0 16) with 0. unfold js_or.
  rewrite (toInt32_small 0), (toInt32_small (Z.of_nat w * 2)) by lia.
  rewrite Z.lor_0_l. lia.
Qed.

Lemma length_pixelBytes (pixels : list byte) (n : nat) :
  length pixels = (4 * n)%nat -> length (pixelBytes pixels) = (2 * n)%nat.
Proof.
  intros Hlen. unfold pixelBytes.
  rewrite (length_concat_rows _ 2).
  - now rewrite (length_rgbQuads pixels n).
  - intros [[r g] b]. apply length_le_bytes.
Qed.

(** [encodeCanvas] returns the header followed by the pixels. *)
Lemma encodeCanvas_layout (w h : nat) (pixels : list byte) :
  Z.of_nat w < 32768 -> Z.of_nat h < 65536 -> length pixels = (4 * (w * h))%nat ->
  encodeCanvas w h pixels = Ok (imageHeader w h ++ pixelBytes pixels).
Proof.
  intros Hw Hh Hlen. unfold encodeCanvas.
  pose proof (convertPixels_quads pixels (w * h) Hlen [] 0) as Hc.
  cbn [app length replicate] in Hc. rewrite Nat.add_0_r, app_nil_r in Hc. rewrite Hc.
  assert (Hbytes : u16array_bytes (map (fun '(r, g, b) => pack565 r g b) (rgbQuads pixels))
                   = pixelBytes pixels).
  { unfold u16array_bytes, pixelBytes. rewrite map_map. f_equal.
    apply map_ext. now intros [[r g] b]. }
  rewrite Hbytes.
  pose proof (length_pixelBytes pixels (w * h) Hlen) as Hpb.
  set (body := pixelBytes pixels) in *.
  change (js_or (js_or (js_or (js_shl 0 24) (js_shl 0 16)) (js_shl LV_COLOR_FORMAT_RGB565 8))
                LV_IMAGE_HEADER_MAGIC) with 4633.
  unfold setUint32.
  rewrite sizeWord_bytes, strideWord_bytes by lia.
  rewrite u8array_set_fill0 by (rewrite length_le_bytes; lia). cbn [rbind].
  do 6 (rewrite u8array_set_fill by (rewrite ?length_app, ?length_le_bytes; lia);
        cbn [rbind]).
  rewrite u8array_set_fill by (rewrite ?length_app, ?length_le_bytes; lia).
  f_equal.
  rewrite !length_app, !length_le_bytes.
  replace (28 + length body - 4 - (2 + 2) - (2 + 2) - 4 - 4 - 4 - 4 - length body)%nat
    with 0%nat by lia.
  change (zeros 0) with (@nil byte). rewrite app_nil_r.
  unfold imageHeader. rewrite Hpb.
  replace (Z.of_nat (2 * (w * h))) with (2 * Z.of_nat w * Z.of_nat h) by lia.
  change (Z.of_nat 28) with 28.
  change (le_bytes 4 4633)
    with ([u8 LV_IMAGE_HEADER_MAGIC; u8 LV_COLOR_FORMAT_RGB565] ++ le_bytes 2 0).
  now rewrite <- !app_assoc.
Qed.

End Rgb565Layout.

Section Rgb565Claims.
Import AssetsBuilder.
Context `{Canvas}.

(** C7. When the canvas of the target size [w] x [h] (the configured
    display size, 320 x 240 by default) yields its [4 * w * h] bytes of RGBA
    pixels, [convertImageToRgb565] returns 28 header bytes (magic 0x19,
    colour format 0x12, flags 0, width [w], height [h], stride [2 * w],
    a reserved half-word, data size [2 * w * h], data offset 28, two
    reserved words) and right after them, row by row with no padding, one
    little-endian 16-bit pixel [(r >> 3) << 11 | (g >> 2) << 5 | (b >> 3)] per
    canvas pixel. The width, height and stride are 16-bit fields: [w] is
    below 32768 and [h] below 65536. *)
Theorem rgb565_conversion (display : Display) (imageData pixels : list byte) :
  let w := or_default (display_width display) 320 in
  let h := or_default (display_height display) 240 in
  drawCover imageData w h = Some pixels ->
  length pixels = (4 * (w * h))%nat ->
  Z.of_nat w < 32768 -> Z.of_nat h < 65536 ->
  exists out, convertImageToRgb565 display imageData = Ok out
    /\ length out = (28 + 2 * (w * h))%nat
    /\ slice 0 28 out
       = [u8 25; u8 18] ++ le_bytes 2 0
           ++ le_bytes 2 (Z.of_nat w) ++ le_bytes 2 (Z.of_nat h)
           ++ le_bytes 2 (2 * Z.of_nat w) ++ le_bytes 2 0
           ++ le_bytes 4 (2 * Z.of_nat w * Z.of_nat h)
           ++ le_bytes 4 28 ++ zeros 8
    /\ forall x y r g b, (x < w)%nat -> (y < h)%nat ->
         pixels !! (4 * (y * w + x))%nat = Some r ->
         pixels !! (4 * (y * w + x) + 1)%nat = Some g ->
         pixels !! (4 * (y * w + x) + 2)%nat = Some b ->
         le_value (slice (28 + 2 * (y * w + x)) 2 out)
         = Z.lor (Z.lor (Z.shiftl (Z.shiftr (b2z r) 3) 11) (Z.shiftl (Z.shiftr (b2z g) 2) 5))
                 (Z.shiftr (b2z b) 3).
Proof.
  intros w h Hdraw Hlen Hw Hh.
  exists (imageHeader w h ++ pixelBytes pixels).
  split.
  { unfold convertImageToRgb565. fold w h. rewrite Hdraw.
    now apply encodeCanvas_layout. }
  split.
  { rewrite length_app, length_imageHeader, (length_pixelBytes pixels (w * h)) by exact Hlen.
    reflexivity. }
  split.
  { rewrite slice_0 by now rewrite length_imageHeader. reflexivity. }
  intros x y r g b Hx Hy Hr Hg Hb.
  set (k := (y * w + x)%nat) in *.
  assert (Hk : (k < w * h)%nat) by (unfold k; nia).
  assert (Hq : rgbQuads pixels !! k = Some (r, g, b)).
  { apply rgbQuads_lookup; try assumption. lia. }
  destruct (concat_rows_split pixelWord 2 (rgbQuads pixels) k (r, g, b)) as (Hsplit & Hpre).
  { intros [[r' g'] b']. apply length_le_bytes. }
  { exact Hq. }
  unfold pixelBytes. rewrite Hsplit.
  rewrite (slice_at (imageHeader w h ++ concat (map pixelWord (take k (rgbQuads pixels))))
             (pixelWord (r, g, b))
             (concat (map pixelWord (drop (S k) (rgbQuads pixels))))).
  - cbn [pixelWord]. rewrite le_value_le_bytes. change (256 ^ Z.of_nat 2) with 65536.
    rewrite Z.mod_small by apply pack565_range. reflexivity.
  - rewrite <- !app_assoc. reflexivity.
  - rewrite length_app, length_imageHeader, Hpre. reflexivity.
  - cbn [pixelWord]. now rewrite length_le_bytes.
Qed.

End Rgb565Claims.

Lemma rgb565_conversion_witness :
  exists out,
    @AssetsBuilder.convertImageToRgb565 rawCanvas ex_display ex_pixels = Ok out
    /\ length out = 32%nat
    /\ le_value (slice 28 2 out) = 63488
    /\ le_value (slice 30 2 out) = 3135.
Proof.
  destruct (@rgb565_conversion rawCanvas ex_display ex_pixels ex_pixels)
    as (out & Hc & Hl & _ & Hp); [reflexivity | reflexivity | cbn; lia | cbn; lia |].
  exists out. split; [exact Hc|]. split; [exact Hl|]. split.
  - exact (Hp 0%nat 0%nat (u8 255) (u8 0) (u8 0) ltac:(repeat constructor)
              ltac:(repeat constructor) eq_refl eq_refl eq_refl).
  - exact (Hp 1%nat 0%nat (u8 8) (u8 132) (u8 248) ltac:(repeat constructor)
              ltac:(repeat constructor) eq_refl eq_refl eq_refl).
Defined.

(** ** CBinFont: the constructor's check *)

Section CBinFontConfig.
Import CBinFont.
Context `{CmapPlanner}.

(** C8. With [bpp = 3] and compression switched off the constructor throws
    the AppError about --bpp 3, so that [write_cbin] returns no bytes; in
    every other case, in particular for bpp 1, 2, 4 and 8 whatever the
    compression, and for bpp 3 with compression, the constructor returns the
    font object. *)
Theorem cbin_bpp3_needs_compression (fontData : FontData) (options : Options) :
  (bpp options = 3 /\ no_compress options = true ->
     constructor fontData options = Err (AppError bpp3_message)
     /\ forall r, write_cbin options fontData <> Ok r)
  /\ (~ (bpp options = 3 /\ no_compress options = true) ->
     exists font, constructor fontData options = Ok font
       /\ src font = fontData /\ opts font = options)
  /\ (bpp options ∈ [1; 2; 4; 8] ->
      constructor fontData options <> Err (AppError bpp3_message)).
Proof.
  split; [|split].
  - intros [Hb Hc]. split.
    + unfold constructor. rewrite Hb, Hc. reflexivity.
    + intros r. unfold write_cbin.
      destruct (truthy_string (output options)); [|discriminate].
      unfold constructor. rewrite Hb, Hc. cbn. discriminate.
  - intros Hn. unfold constructor.
    destruct (Z.eqb_spec (bpp options) 3) as [E3|N3]; destruct (no_compress options) eqn:Ec;
      cbn [andb]; try (exfalso; apply Hn; now split); eexists; repeat split.
  - intros Hb. unfold constructor.
    assert (N3 : bpp options <> 3).
    { intros E. rewrite E in Hb.
      repeat (apply elem_of_cons in Hb as [Hb|Hb]; [discriminate|]). inversion Hb. }
    destruct (Z.eqb_spec (bpp options) 3); [contradiction|]. cbn [andb]. discriminate.
Qed.

End CBinFontConfig.

(** ** CBinFont: glyph ids *)

Section GlyphIds.
Import CBinFont.

Lemma assign_other (gs : list Glyph) (index : nat) (ids : gmap Z nat) (c : Z) :
  c ∉ map code gs -> assignGlyphIds gs index ids !! c = ids !! c.
Proof.
  revert index ids. induction gs as [|g gs IH]; intros index ids Hc; [reflexivity|].
  cbn [assignGlyphIds]. cbn [map] in Hc. apply not_elem_of_cons in Hc as [Hne Hc].
  rewrite IH by exact Hc. now rewrite lookup_insert_ne.
Qed.

(** With distinct code points the glyph at array index [i] gets id [i + 1]. *)
Lemma assign_nth (gs : list Glyph) (index : nat) (ids : gmap Z nat) (i : nat) (g : Glyph) :
  NoDup (map code gs) -> gs !! i = Some g ->
  assignGlyphIds gs index ids !! code g = Some (index + i + 1)%nat.
Proof.
  revert index ids i. induction gs as [|g0 gs IH]; intros index ids i Hnd Hi; [discriminate|].
  cbn [map] in Hnd. apply NoDup_cons in Hnd as [Hnotin Hnd].
  cbn [assignGlyphIds]. destruct i as [|i].
  - injection Hi as ->. rewrite assign_other by exact Hnotin.
    rewrite lookup_insert_eq. f_equal. lia.
  - cbn in Hi. rewrite (IH (S index) _ i Hnd Hi). f_equal. lia.
Qed.

Lemma assign_inv (gs : list Glyph) (index : nat) (c : Z) (id : nat) :
  NoDup (map code gs) -> assignGlyphIds gs index ∅ !! c = Some id ->
  exists i g, gs !! i = Some g /\ code g = c /\ id = (index + i + 1)%nat.
Proof.
  intros Hnd Hid.
  destruct (decide (c ∈ map code gs)) as [Hin|Hout].
  - apply list_elem_of_fmap in Hin as (g & -> & Hg).
    apply list_elem_of_lookup in Hg as [i Hi].
    exists i, g. repeat split; [exact Hi|].
    rewrite (assign_nth gs index ∅ i g Hnd Hi) in Hid. congruence.
  - rewrite assign_other in Hid by exact Hout. rewrite lookup_empty in Hid. discriminate.
Qed.

Lemma sorted_codes_lt (gs : list Glyph) (i j : nat) (a b : Glyph) :
  StronglySorted Z.lt (map code gs) -> gs !! i = Some a -> gs !! j = Some b ->
  (i < j)%nat -> code a < code b.
Proof.
  intros Hs Ha Hb Hij.
  assert (Hsplit : map code gs = take j (map code gs) ++ drop j (map code gs))
    by now rewrite take_drop.
  rewrite Hsplit in Hs. apply StronglySorted_app in Hs as (Hlt & _ & _).
  apply Hlt.
  - apply list_elem_of_lookup. exists i. rewrite lookup_take_lt by lia.
    rewrite list_lookup_fmap, Ha. reflexivity.
  - apply list_elem_of_lookup. exists 0%nat. rewrite lookup_drop, Nat.add_0_r.
    rewrite list_lookup_fmap, Hb. reflexivity.
Qed.

Lemma sorted_codes_NoDup (gs : list Glyph) :
  StronglySorted Z.lt (map code gs) -> NoDup (map code gs).
Proof.
  generalize (map code gs). intros l. induction 1 as [|c l Hs IH Hall]; constructor.
  - intros Hin. rewrite Forall_forall in Hall. specialize (Hall c Hin). lia.
  - exact IH.
Qed.

(** C5, as the code has it. [buildGlyphIdMap] numbers the glyphs by their
    position in the glyph array, from 1; it does not sort. When the array
    comes with strictly ascending code points, the ids are 1..N in ascending
    code-point order: the glyph at index [i] has id [i + 1], every assigned
    id lies in 1..N (0 is never assigned), and a smaller code point has a
    smaller id. *)
Theorem glyph_ids_ascending (fontData : FontData) (gs : list Glyph) :
  glyphs fontData = Some gs ->
  StronglySorted Z.lt (map code gs) ->
  let ids := buildGlyphIdMap fontData in
  (forall i g, gs !! i = Some g -> ids !! code g = Some (i + 1)%nat)
  /\ (forall c id, ids !! c = Some id ->
        (1 <= id <= length gs)%nat
        /\ exists g, gs !! (id - 1)%nat = Some g /\ code g = c)
  /\ (forall c1 c2 id1 id2, ids !! c1 = Some id1 -> ids !! c2 = Some id2 ->
        c1 < c2 -> (id1 < id2)%nat).
Proof.
  intros Hgs Hsorted ids. unfold ids, buildGlyphIdMap. rewrite Hgs.
  pose proof (sorted_codes_NoDup gs Hsorted) as Hnd.
  assert (Hinv : forall c id, assignGlyphIds gs 0 ∅ !! c = Some id ->
            exists i g, gs !! i = Some g /\ code g = c /\ id = (i + 1)%nat).
  { intros c id Hid. destruct (assign_inv gs 0 c id Hnd Hid) as (i & g & Hi & Hc & ->).
    exists i, g. repeat split; try assumption. }
  split; [|split].
  - intros i g Hi. now rewrite (assign_nth gs 0 ∅ i g Hnd Hi).
  - intros c id Hid. destruct (Hinv c id Hid) as (i & g & Hi & Hc & ->).
    split.
    + apply lookup_lt_Some in Hi. lia.
    + exists g. split; [|exact Hc]. now replace (i + 1 - 1)%nat with i by lia.
  - intros c1 c2 id1 id2 H1 H2 Hlt.
    destruct (Hinv c1 id1 H1) as (i & a & Hi & <- & ->).
    destruct (Hinv c2 id2 H2) as (j & b & Hj & <- & ->).
    destruct (Nat.lt_trichotomy i j) as [Hij | [-> | Hji]].
    + lia.
    + assert (a = b) by congruence. subst. lia.
    + pose proof (sorted_codes_lt gs j i b a Hsorted Hj Hi Hji). lia.
Qed.

End GlyphIds.

Lemma glyph_ids_ascending_witness :
  CBinFont.buildGlyphIdMap (ex_fontData [65; 66; 97]) !! 97 = Some 3%nat.
Proof.
  destruct (glyph_ids_ascending (ex_fontData [65; 66; 97]) (map ex_glyph [65; 66; 97]))
    as (Hnth & _ & _).
  - reflexivity.
  - cbn. repeat constructor; lia.
  - exact (Hnth 2%nat (ex_glyph 97) eq_refl).
Defined.

(** C5, as the spec words it, fails for a glyph array that is not in
    code-point order: the ids follow the array. *)
Lemma glyph_ids_counterexample :
  let ids := CBinFont.buildGlyphIdMap (ex_fontData [66; 65]) in
  ids !! 65 = Some 2%nat /\ ids !! 66 = Some 1%nat
  /\ ~ (forall c1 c2 id1 id2, ids !! c1 = Some id1 -> ids !! c2 = Some id2 ->
          c1 < c2 -> (id1 < id2)%nat).
Proof.
  assert (H65 : CBinFont.buildGlyphIdMap (ex_fontData [66; 65]) !! 65 = Some 2%nat)
    by (vm_compute; reflexivity).
  assert (H66 : CBinFont.buildGlyphIdMap (ex_fontData [66; 65]) !! 66 = Some 1%nat)
    by (vm_compute; reflexivity).
  cbv zeta. split; [exact H65 | split; [exact H66 |]].
  intros Hmono. specialize (Hmono 65 66 2%nat 1%nat H65 H66 ltac:(lia)). lia.
Qed.

(** ** CBinFont: the glyph ids of a format0 subtable *)

Section Format0.
Import CBinFont.

Lemma format0_buffer (f : t) (min_code max_code start : Z) :
  uint8ArrayToBuffer (collect_format0_data f min_code max_code (Some start))
  = map (fun c => u8 (format0Delta f start c)) (seqZ min_code (max_code - min_code + 1)).
Proof.
  unfold uint8ArrayToBuffer, collect_format0_data. rewrite map_map.
  apply map_ext. intros c. unfold format0Delta. cbn zeta.
  destruct (Z.of_nat (default 0%nat (glyph_id f !! c)) =? 0); reflexivity.
Qed.

Lemma for_each_stops {A S} (body : S -> A -> result S) (xs : list A) (x : A) :
  x ∈ xs -> (forall st, exists e, body st x = Err e) ->
  forall st, exists e, for_each body xs st = Err e.
Proof.
  intros Hin Hx. induction xs as [|y xs IH]; intros st; [inversion Hin|].
  cbn [for_each]. apply elem_of_cons in Hin as [<-|Hin].
  - destruct (Hx st) as [e ->]. now exists e.
  - destruct (body st y) as [st'|e]; cbn [rbind]; [now apply IH | now exists e].
Qed.

(** C10. A format0 subtable stores one byte per code of its range, the low
    eight bits of [glyphId - startGlyphId] (0 for a code with no glyph), and
    raises no error for any difference; with 257 glyphs in one subtable the
    last code has difference 256 and is stored as 0. The sparse formats
    throw when a difference exceeds 65535. *)
Theorem format0_ids_wrap :
  (forall f codepoints min_code max_code start,
     subtablePayload f "format0" codepoints min_code max_code (Some start)
     = Ok ([],
           balign4 (map (fun c => u8 (format0Delta f start c))
                        (seqZ min_code (max_code - min_code + 1))),
           length (seqZ min_code (max_code - min_code + 1)), false, true)
     /\ forall c, b2z (u8 (format0Delta f start c)) = format0Delta f start c mod 256)
  /\ (let f := ex_font (seqZ 32 257) in
      glyph_id f !! 32 = Some 1%nat /\ glyph_id f !! 288 = Some 257%nat
      /\ format0Delta f 1 288 = 256
      /\ exists bytes, @cmap_toCBin oneFormat0 f 4 = Ok bytes
           /\ bytes !! (20 + 255)%nat = Some (u8 255)
           /\ bytes !! (20 + 256)%nat = Some (u8 0))
  /\ (forall f codepoints min_code max_code start c g gid format,
        c ∈ codepoints -> glyphByCode f c = Some g -> glyph_id f !! code g = Some gid ->
        65535 < Z.of_nat gid - start ->
        format = "sparse"%string \/ format = "sparse_tiny"%string ->
        exists e, subtablePayload f format codepoints min_code max_code (Some start) = Err e).
Proof.
  split; [|split].
  - intros f codepoints min_code max_code start. split.
    + unfold subtablePayload. cbn [String.eqb Ascii.eqb Bool.eqb]. cbn.
      rewrite format0_buffer. do 5 f_equal.
      unfold collect_format0_data. now rewrite length_map.
    + intros c. apply b2z_u8.
  - cbv zeta. split; [vm_compute; reflexivity|]. split; [vm_compute; reflexivity|].
    split; [vm_compute; reflexivity|].
    eexists. split; [vm_compute; reflexivity|].
    split; vm_compute; reflexivity.
  - intros f codepoints min_code max_code start c g gid format Hin Hg Hid Hbig Hfmt.
    assert (Hs : exists e, collect_sparse_data f codepoints (Some start) = Err e).
    { unfold collect_sparse_data. apply (for_each_stops _ codepoints c Hin).
      intros [cl il]. unfold collectSparseEntry. rewrite Hg, Hid.
      cbn [fmap option_fmap option_map js_sub out_of_u16].
      destruct ((c - default 0 (head codepoints) <? 0)
                || (65535 <? c - default 0 (head codepoints))); [now eexists|].
      destruct (Z.ltb_spec (Z.of_nat gid - start) 0); [lia|].
      destruct (Z.ltb_spec 65535 (Z.of_nat gid - start)); [|lia].
      cbn [orb]. now eexists. }
    destruct Hs as [e He]. exists e.
    unfold subtablePayload. destruct Hfmt as [-> | ->]; cbn [String.eqb Ascii.eqb Bool.eqb];
      cbn; rewrite He; reflexivity.
Qed.

End Format0.

(** ** CBinFont: the glyph descriptor table *)

Section Glyf.
Import CBinFont.

(** The [while] loop of [writeBits] ends by its own test: past [bits] turns,
    more fuel changes nothing. *)
Lemma writeBits_fuel_enough (fuel extra : nat) (bs : SimpleBitStream) (value bits : Z) :
  0 <= bitIndex bs < 8 -> bits <= Z.of_nat fuel ->
  writeBits_loop (fuel + extra) bs value bits = writeBits_loop fuel bs value bits.
Proof.
  revert bs bits. induction fuel as [|fuel IH]; intros bs bits Hidx Hbits.
  - destruct extra as [|extra]; cbn [Nat.add writeBits_loop]; [reflexivity|].
    destruct (Z.ltb_spec 0 bits); [lia | reflexivity].
  - cbn [Nat.add writeBits_loop]. destruct (Z.ltb_spec 0 bits) as [Hpos|]; [|reflexivity].
    destruct (Z.leb_spec 8 (bitIndex bs + Z.min (8 - bitIndex bs) bits));
      apply IH; cbn [bitIndex]; lia.
Qed.

Lemma writeBits_bitIndex (fuel : nat) (bs : SimpleBitStream) (value bits : Z) :
  0 <= bitIndex bs < 8 -> 0 <= bitIndex (writeBits_loop fuel bs value bits) < 8.
Proof.
  revert bs bits. induction fuel as [|fuel IH]; intros bs bits Hidx; [exact Hidx|].
  cbn [writeBits_loop]. destruct (Z.ltb_spec 0 bits) as [Hpos|]; [|exact Hidx].
  destruct (Z.leb_spec 8 (bitIndex bs + Z.min (8 - bitIndex bs) bits));
    apply IH; cbn [bitIndex]; lia.
Qed.

Lemma lv_bitmap_ok (options : Options) (g : Glyph) :
  bbox_ok g -> lv_bitmap options g = Ok (bitmapOf options g).
Proof.
  intros [Hw Hh].
  assert (Hex : exists b, lv_bitmap options g = Ok b).
  { unfold lv_bitmap, newArrayBuffer.
    destruct (Z.ltb_spec (100 + bbox_width (bbox g) * bbox_height (bbox g) * 4) 0); [nia|].
    cbn [rbind]. unfold u8array_set.
    destruct (decide _) as [_|Hn]; [now eexists|].
    exfalso. apply Hn. rewrite length_take, length_zeros. lia. }
  destruct Hex as [b Hb]. unfold bitmapOf. now rewrite Hb.
Qed.

Lemma array_assign_push (es : list LvData) (v : LvData) :
  array_assign (sparseArray es) (length es + 1) v = sparseArray (es ++ [v]).
Proof.
  unfold array_assign. destruct es as [|e es].
  - cbn. reflexivity.
  - cbn [sparseArray app]. cbn [length]. rewrite length_map. cbn [length].
    destruct (decide _) as [Hlt|_]; [lia|].
    replace (S (length es) + 1 - S (S (length es)))%nat with 0%nat by lia.
    cbn [replicate app map]. rewrite map_app. reflexivity.
Qed.

Lemma compile_loop (f : t) (rest : list Glyph) (done : list LvData) (off : nat) :
  Forall bbox_ok rest ->
  (forall j g, rest !! j = Some g -> glyph_id f !! code g = Some (length done + j + 1)%nat) ->
  exists off',
    for_each (compileGlyph f) rest (sparseArray done, off)
    = Ok (sparseArray (done ++ lvEntries (opts f) rest off), off').
Proof.
  intros Hok. revert done off. induction Hok as [|g rest Hg Hrest IH]; intros done off Hids.
  - exists off. cbn. now rewrite app_nil_r.
  - cbn [for_each]. unfold compileGlyph at 1.
    rewrite lv_bitmap_ok by exact Hg. cbn [rbind].
    rewrite (Hids 0%nat g eq_refl). rewrite Nat.add_0_r.
    rewrite array_assign_push.
    destruct (IH (done ++ [{| bin := bitmapOf (opts f) g; offset := off; glyph := g |}])
                 (off + length (bitmapOf (opts f) g))%nat) as [off' Hloop].
    { intros j g' Hj. rewrite (Hids (S j) g' Hj). rewrite length_app. cbn [length].
      f_equal. lia. }
    exists off'. rewrite Hloop. cbn [lvEntries]. now rewrite <- app_assoc.
Qed.

Lemma lvEntries_lookup (options : Options) (gs : list Glyph) (off i : nat) (g : Glyph) :
  gs !! i = Some g ->
  lvEntries options gs off !! i
  = Some {| bin := bitmapOf options g;
            offset := (off + sum_list (map (fun g' => length (bitmapOf options g'))
                                           (take i gs)))%nat;
            glyph := g |}.
Proof.
  revert off i. induction gs as [|g0 gs IH]; intros off i Hi; [discriminate|].
  destruct i as [|i].
  - injection Hi as ->. cbn. now rewrite Nat.add_0_r.
  - cbn in Hi. cbn [lvEntries take map sum_list sum_list_with id].
    rewrite lookup_cons_ne_0 by lia. cbn [pred].
    rewrite (IH _ i Hi). do 2 f_equal. lia.
Qed.

Lemma length_lvEntries (options : Options) (gs : list Glyph) (off : nat) :
  length (lvEntries options gs off) = length gs.
Proof.
  revert off. induction gs as [|g gs IH]; intros off; cbn; [reflexivity | now rewrite IH].
Qed.

Lemma map_bin_lvEntries (options : Options) (gs : list Glyph) (off : nat) :
  map bin (lvEntries options gs off) = map (bitmapOf options) gs.
Proof.
  revert off. induction gs as [|g gs IH]; intros off; [reflexivity|].
  cbn [lvEntries map bin]. f_equal. apply IH.
Qed.

Lemma length_dscRecord (d : LvData) : length (dscRecord d) = 16%nat.
Proof. unfold dscRecord. rewrite !length_app, !length_le_bytes. reflexivity. Qed.

Lemma writeGlyphDsc_fill (done : list byte) (n i : nat) (d : LvData) :
  length done = (i * 16)%nat ->
  writeGlyphDsc (done ++ zeros (16 + n), i) d = Ok ((done ++ dscRecord d) ++ zeros n, S i).
Proof.
  intros Hdone. unfold writeGlyphDsc, setUint32, setUint16, setInt16, setUint16.
  do 6 (rewrite u8array_set_fill by (rewrite ?length_app, ?length_le_bytes; lia);
        cbn [rbind]).
  rewrite !length_le_bytes.
  replace (16 + n - 4 - 4 - 2 - 2 - 2 - 2)%nat with n by lia.
  unfold dscRecord. now rewrite <- !app_assoc.
Qed.

Lemma dsc_loop (es : list LvData) (done : list byte) (n i : nat) :
  length done = (i * 16)%nat ->
  for_each writeGlyphDsc es (done ++ zeros (16 * length es + n), i)
  = Ok ((done ++ concat (map dscRecord es)) ++ zeros n, (i + length es)%nat).
Proof.
  revert done i. induction es as [|d es IH]; intros done i Hdone.
  - cbn. now rewrite app_nil_r, Nat.add_0_r.
  - cbn [for_each length].
    replace (16 * S (length es) + n)%nat with (16 + (16 * length es + n))%nat by lia.
    rewrite writeGlyphDsc_fill by exact Hdone. cbn [rbind].
    rewrite IH by (rewrite length_app, length_dscRecord; lia).
    cbn [map concat]. rewrite <- !app_assoc. do 2 f_equal. lia.
Qed.

Lemma omap_sparseArray (es : list LvData) : omap id (sparseArray es) = es.
Proof.
  destruct es as [|e es]; [reflexivity|]. cbn [sparseArray omap list_omap id].
  induction (e :: es) as [|x l IH]; [reflexivity|]. cbn. now rewrite IH.
Qed.

(** [GlyfTable.toCBin] returns, and its descriptor buffer is a zero
    record, the records of the glyphs and, when there is a glyph, one more
    zero record. *)
Lemma glyf_toCBin_layout (fontData : FontData) (options : Options) (f : t) (gs : list Glyph) :
  constructor fontData options = Ok f ->
  glyphs fontData = Some gs ->
  NoDup (map code gs) ->
  Forall bbox_ok gs ->
  glyf_toCBin f
  = Ok (balign4 (concat (map (bitmapOf options) gs)),
        zeros 16 ++ concat (map dscRecord (lvEntries options gs 0))
          ++ (if decide (gs = []) then [] else zeros 16))
  /\ opts f = options
  /\ glyph_id f = buildGlyphIdMap fontData.
Proof.
  intros Hc Hgs Hnd Hok.
  assert (Hf : src f = fontData /\ opts f = options
               /\ glyph_id f = buildGlyphIdMap fontData).
  { unfold constructor in Hc.
    destruct ((bpp options =? 3) && no_compress options); [discriminate|].
    injection Hc as <-. repeat split. }
  destruct Hf as (Hsrc & Hopts & Hid).
  unfold glyf_toCBin, lv_compile. rewrite Hsrc, Hgs.
  destruct (compile_loop f gs [] 0 Hok) as [off' Hloop].
  { intros j g Hj. cbn [length Nat.add]. rewrite Hid. unfold buildGlyphIdMap. rewrite Hgs.
    now rewrite (assign_nth gs 0 ∅ j g Hnd Hj). }
  cbn [app] in Hloop. rewrite Hopts in Hloop.
  change (sparseArray []) with (@nil (option LvData)) in Hloop.
  rewrite Hloop. cbn [rbind fst].
  set (es := lvEntries options gs 0).
  rewrite omap_sparseArray.
  split; [|split; assumption].
  assert (Hbins : map bin (omap id (drop 1 (sparseArray es))) = map (bitmapOf options) gs).
  { assert (Hd : omap id (drop 1 (sparseArray es)) = es).
    { destruct es as [|e es']; [reflexivity|]. cbn [sparseArray].
      change (drop 1 (None :: map Some (e :: es'))) with (map Some (e :: es')).
      generalize (e :: es'). intros l. induction l as [|x l IH]; [reflexivity|].
      cbn. now rewrite IH. }
    rewrite Hd. apply map_bin_lvEntries. }
  unfold concatArrayBuffers. rewrite Hbins.
  destruct (decide (gs = [])) as [->|Hne].
  - cbn. reflexivity.
  - assert (Hes : length (sparseArray es) = (length es + 1)%nat).
    { unfold es. destruct gs as [|g gs]; [congruence|]. cbn [lvEntries sparseArray].
      cbn [length]. rewrite length_map. cbn [length]. lia. }
    rewrite Hes.
    replace ((length es + 1) * 16 + 16)%nat with (16 + (16 * length es + 16))%nat by lia.
    rewrite zeros_add.
    rewrite (dsc_loop es (zeros 16) 16 1) by reflexivity.
    cbn [rbind fst]. now rewrite <- app_assoc.
Qed.

(** C4, as the code has it. For a font whose [N >= 1] glyphs have distinct
    code points (ids 1..N, in array order) and boxes of non-negative width
    and height, the glyph descriptor section is [16 * (N + 2)] bytes long:
    the all-zero record 0, then for each glyph id [i] the record
    {bitmapOffset:u32 (the bitmap bytes of the glyphs before it),
    [round(advanceWidth * 16)]:u32, width:u16, height:u16, bboxX:i16,
    bboxY:i16}, little-endian, and after record [N] one more all-zero
    record. With no glyph the section is the single zero record. *)
Theorem glyph_dsc_table (fontData : FontData) (options : Options) (f : t) (gs : list Glyph) :
  constructor fontData options = Ok f ->
  glyphs fontData = Some gs ->
  NoDup (map code gs) ->
  Forall bbox_ok gs ->
  exists glyph_dsc_buf,
    glyf_toCBin f = Ok (balign4 (concat (map (bitmapOf options) gs)), glyph_dsc_buf)
    /\ length glyph_dsc_buf
       = (if decide (gs = []) then 16 else 16 * (length gs + 2))%nat
    /\ slice 0 16 glyph_dsc_buf = zeros 16
    /\ (gs <> [] -> slice (16 * (length gs + 1)) 16 glyph_dsc_buf = zeros 16)
    /\ forall i g, gs !! i = Some g ->
         glyph_id f !! code g = Some (i + 1)%nat
         /\ slice (16 * (i + 1)) 16 glyph_dsc_buf
            = le_bytes 4 (Z.of_nat (sum_list (map (fun g' => length (bitmapOf options g'))
                                                  (take i gs))))
                ++ le_bytes 4 (Math_round (advanceWidth g * (16 # 1)))
                ++ le_bytes 2 (bbox_width (bbox g)) ++ le_bytes 2 (bbox_height (bbox g))
                ++ le_bytes 2 (bbox_x (bbox g)) ++ le_bytes 2 (bbox_y (bbox g)).
Proof.
  intros Hc Hgs Hnd Hok.
  destruct (glyf_toCBin_layout fontData options f gs Hc Hgs Hnd Hok) as (Hlay & Hopts & Hid).
  eexists. split; [exact Hlay|].
  set (es := lvEntries options gs 0).
  assert (Hrows : length (concat (map dscRecord es)) = (16 * length gs)%nat).
  { rewrite (length_concat_rows dscRecord 16) by apply length_dscRecord.
    unfold es. now rewrite length_lvEntries. }
  split; [|split; [|split]].
  - rewrite !length_app, Hrows, length_zeros.
    destruct (decide (gs = [])) as [->|Hne]; cbn [length]; [reflexivity|].
    rewrite length_zeros. lia.
  - apply slice_0. now rewrite length_zeros.
  - intros Hne. destruct (decide (gs = [])) as [->|_]; [congruence|].
    rewrite <- (app_nil_r (zeros 16)) at 2.
    apply (slice_at (zeros 16 ++ concat (map dscRecord es)) (zeros 16) []).
    + now rewrite <- !app_assoc, app_nil_r.
    + rewrite length_app, Hrows, length_zeros. lia.
    + now rewrite length_zeros.
  - intros i g Hi. split.
    { rewrite Hid. unfold buildGlyphIdMap. rewrite Hgs.
      rewrite (assign_nth gs 0 ∅ i g Hnd Hi). f_equal. }
    pose proof (lvEntries_lookup options gs 0 i g Hi) as He. fold es in He.
    rewrite Nat.add_0_l in He.
    set (rec := {| bin := bitmapOf options g;
                   offset := sum_list (map (fun g' => length (bitmapOf options g'))
                                           (take i gs));
                   glyph := g |}) in He.
    destruct (concat_rows_split dscRecord 16 es i rec length_dscRecord He) as (Hsplit & Hpre).
    rewrite Hsplit.
    rewrite (slice_at (zeros 16 ++ concat (map dscRecord (take i es))) (dscRecord rec)
               (concat (map dscRecord (drop (S i) es))
                ++ (if decide (gs = []) then [] else zeros 16))).
    + reflexivity.
    + now rewrite <- !app_assoc.
    + rewrite length_app, Hpre, length_zeros. lia.
    + now rewrite length_dscRecord.
Qed.

End Glyf.

Lemma glyph_dsc_table_witness :
  exists f glyph_dsc_buf,
    CBinFont.constructor (ex_fontData [65; 66]) ex_options = Ok f
    /\ CBinFont.glyf_toCBin f
       = Ok (CBinFont.balign4
               (concat (map (bitmapOf ex_options) (map ex_glyph [65; 66]))),
             glyph_dsc_buf)
    /\ length glyph_dsc_buf = 64%nat
    /\ slice 32 16 glyph_dsc_buf
       = le_bytes 4 2 ++ le_bytes 4 136 ++ le_bytes 2 2 ++ le_bytes 2 2
           ++ le_bytes 2 1 ++ le_bytes 2 (-2).
Proof.
  eexists. 
  destruct (glyph_dsc_table (ex_fontData [65; 66]) ex_options (ex_font [65; 66])
              (map ex_glyph [65; 66]))
    as (dsc & Hg & Hl & _ & _ & Hrec).
  - reflexivity.
  - reflexivity.
  - apply (bool_decide_unpack _). vm_compute. exact I.
  - repeat constructor; cbn; lia.
  - exists dsc. split; [reflexivity|]. split; [exact Hg|]. split; [exact Hl|].
    exact (proj2 (Hrec 1%nat (ex_glyph 66) eq_refl)).
Defined.

(** C4, as the spec words it, fails on the length: for one glyph the
    section has three records, 48 bytes, not 16 * (1 + 1). *)
Lemma glyph_dsc_counterexample :
  exists f bitmap_buf glyph_dsc_buf,
    CBinFont.constructor (ex_fontData [65]) ex_options = Ok f
    /\ CBinFont.glyf_toCBin f = Ok (bitmap_buf, glyph_dsc_buf)
    /\ length glyph_dsc_buf = 48%nat
    /\ length glyph_dsc_buf <> (16 * (1 + 1))%nat
    /\ slice 32 16 glyph_dsc_buf = zeros 16.
Proof.
  do 3 eexists. split; [reflexivity|]. split; [vm_compute; reflexivity|].
  split; [reflexivity|]. split; [cbn; lia | reflexivity].
Qed.

(** The whole writer on a font of three glyphs: 60 bytes of head, three
    2-byte bitmaps padded to 8, five 16-byte descriptors, one 20-byte cmap
    record and its 3 ids padded to 4. *)
Example write_cbin_runs :
  exists bytes,
    @CBinFont.write_cbin oneFormat0 ex_options (ex_fontData [65; 66; 67])
    = Ok ("font.bin"%string, bytes)
    /\ length bytes = (60 + 8 + 80 + 20 + 4)%nat.
Proof. eexists. split; vm_compute; reflexivity. Qed.

(** * Further properties

    What the code shows beyond the layouts above: its errors and edge
    cases, the reading back of what it writes, and the functions around the
    encoders. *)

(** ** SpiffsGenerator: errors, header words and reading back *)

Lemma slice_slice (a n b m : nat) (l : list byte) :
  (a + n <= m)%nat -> slice a n (slice b m l) = slice (b + a) n l.
Proof.
  intros Hle. unfold slice.
  replace m with (a + (m - a))%nat at 1 by lia.
  rewrite <- take_drop_commute, take_take, drop_drop.
  f_equal. lia.
Qed.

Section SpiffsMore.
Import SpiffsGenerator.
Context `{Host}.

Lemma files_addFiles (this : t) (inputs : list (jsstring * list byte * Options)) :
  files (addFiles this inputs)
  = files this ++ files (added inputs).
Proof.
  rewrite files_added. unfold addFiles. revert this.
  induction inputs as [|[[name bytes] options] inputs IH]; intros this; cbn [foldl map].
  - now rewrite app_nil_r.
  - rewrite IH. cbn [addFile files]. now rewrite <- app_assoc.
Qed.

Lemma generate_files (g1 g2 : t) : files g1 = files g2 -> generate g1 = generate g2.
Proof. intros E. unfold generate. now rewrite E. Qed.

Lemma sum_span_sorted (fs : list FileEntry) :
  sum_list (map span (sortFiles fs)) = sum_list (map span fs).
Proof. unfold sortFiles. now rewrite array_sort_perm. Qed.

Lemma sum_span_added (inputs : list (jsstring * list byte * Options)) :
  sum_list (map span (files (added inputs)))
  = (2 * length inputs + sum_list (map (fun x => length (snd (fst x))) inputs))%nat.
Proof.
  rewrite files_added.
  induction inputs as [|[[name bytes] options] inputs IH]; [reflexivity|].
  cbn [map sum_list sum_list_with id length fst snd]. unfold span at 1. cbn [size].
  rewrite IH. lia.
Qed.

Lemma length_files_added (inputs : list (jsstring * list byte * Options)) :
  length (files (added inputs)) = length inputs.
Proof. now rewrite files_added, length_map. Qed.

(** The three header words and the length of what [generate] returns. *)
Lemma generate_header (this : t) :
  files this <> [] -> Forall size_ok (files this) ->
  let total := (44 * length (files this) + sum_list (map span (files this)))%nat in
  exists out, generate this = Ok out
    /\ length out = (12 + total)%nat
    /\ slice 0 4 out = le_bytes 4 (Z.of_nat (length (files this)))
    /\ slice 8 4 out = le_bytes 4 (Z.of_nat total).
Proof.
  intros Hne Hok total.
  eexists. split; [now apply generate_layout|].
  set (infos := infoOf 0 (sortFiles (files this))).
  assert (Hn : length infos = length (files this)).
  { unfold infos, infoOf.
    destruct (collectFileInfo_spec (sortFiles (files this)) 0) as (_ & Hl & _).
    now rewrite Hl, length_sortFiles. }
  assert (Hc : length (tableBytes infos ++ dataRegion infos) = total).
  { rewrite length_app, length_tableBytes, Hn. unfold infos.
    rewrite length_dataRegion_infoOf.
    - now rewrite sum_span_sorted.
    - unfold sortFiles. now rewrite array_sort_perm. }
  unfold container. fold infos. rewrite Hc, Hn.
  set (h1 := le_bytes 4 (Z.of_nat (length (files this)))).
  set (h2 := le_bytes 4 _). set (h3 := le_bytes 4 (Z.of_nat total)).
  assert (H1 : length h1 = 4%nat) by apply length_le_bytes.
  assert (H2 : length h2 = 4%nat) by apply length_le_bytes.
  assert (H3 : length h3 = 4%nat) by apply length_le_bytes.
  split; [|split].
  - rewrite !length_app, H1, H2, H3, <- length_app, Hc. lia.
  - apply slice_0. now rewrite H1.
  - apply (slice_at (h1 ++ h2) h3 (tableBytes infos ++ dataRegion infos)).
    + now rewrite <- !app_assoc.
    + rewrite length_app, H1, H2. reflexivity.
    + now rewrite H3.
Qed.

(** The 44-byte row of the file at position [i] of the packed order. *)
Lemma generate_row (this : t) (i : nat) (f : FileEntry) :
  Forall size_ok (files this) ->
  sortFiles (files this) !! i = Some f ->
  exists out, generate this = Ok out
    /\ slice (12 + 44 * i) 44 out
       = packString (filename f) 32 ++ le_bytes 4 (Z.of_nat (size f))
           ++ le_bytes 4 (Z.of_nat (sum_list (map span (take i (sortFiles (files this))))))
           ++ le_bytes 2 (fst (fileDimensions f)) ++ le_bytes 2 (snd (fileDimensions f)).
Proof.
  intros Hok Hi.
  assert (Hne : files this <> []).
  { intros E. apply lookup_lt_Some in Hi. rewrite length_sortFiles, E in Hi.
    cbn in Hi. lia. }
  eexists. split; [now apply generate_layout|].
  set (sorted := sortFiles (files this)) in *.
  destruct (collectFileInfo_spec sorted 0) as (_ & Hlen & Hspec).
  destruct (Hspec i f Hi) as (fi & Hfi & Hn & Hd & Hs & Ho & Hwh).
  fold (infoOf 0 sorted) in Hfi, Hlen.
  destruct (concat_rows_split tableRow 44 (infoOf 0 sorted) i fi length_tableRow Hfi)
    as (Hsplit & Hpre).
  unfold container, tableBytes. rewrite Hsplit.
  set (h1 := le_bytes 4 (Z.of_nat (length (infoOf 0 sorted)))).
  set (h2 := le_bytes 4 _). set (h3 := le_bytes 4 _).
  assert (Hrow : tableRow fi
                 = packString (filename f) 32 ++ le_bytes 4 (Z.of_nat (size f))
                     ++ le_bytes 4 (Z.of_nat (sum_list (map span (take i sorted))))
                     ++ le_bytes 2 (fst (fileDimensions f))
                     ++ le_bytes 2 (snd (fileDimensions f))).
  { unfold tableRow. rewrite Hn, Hs, Ho, Nat.add_0_l, <- Hwh. reflexivity. }
  rewrite <- Hrow.
  apply (slice_at (h1 ++ h2 ++ h3 ++ concat (map tableRow (take i (infoOf 0 sorted))))
                  (tableRow fi)
                  (concat (map tableRow (drop (S i) (infoOf 0 sorted)))
                   ++ dataRegion (infoOf 0 sorted))).
  - now rewrite <- !app_assoc.
  - unfold h1, h2, h3. rewrite !length_app, !length_le_bytes, Hpre. lia.
  - now rewrite length_tableRow.
Qed.

End SpiffsMore.

Lemma sum_list_take_le (l : list nat) (i : nat) : (sum_list (take i l) <= sum_list l)%nat.
Proof.
  rewrite <- (take_drop i l) at 2. rewrite sum_list_with_app. lia.
Qed.

Lemma sum_list_lookup_le (l : list nat) (i x : nat) :
  l !! i = Some x -> (sum_list (take i l) + x <= sum_list l)%nat.
Proof.
  intros Hi. rewrite <- (take_drop_middle l i x Hi) at 2.
  rewrite sum_list_with_app. cbn [sum_list sum_list_with id]. lia.
Qed.

Lemma readU32_slice (blob : list byte) (pos v : nat) :
  slice pos 4 blob = le_bytes 4 (Z.of_nat v) -> Z.of_nat v < 2 ^ 32 ->
  readU32 blob pos = v.
Proof.
  intros Hs Hv. unfold readU32. rewrite Hs, le_value_le_bytes.
  change (256 ^ Z.of_nat 4) with (2 ^ 32). rewrite Z.mod_small by lia. apply Nat2Z.id.
Qed.

Section SpiffsErrors.
Import SpiffsGenerator.
Context `{Host}.

(** X1. [generate] fails in one case only: it throws "No files to package"
    exactly when no file was added. With at least one file it returns, and
    the container is 12 header bytes, 44 table bytes and 2 marker bytes per
    file, and the data of the files. *)
Theorem spiffs_generate_total (inputs : list (jsstring * list byte * Options)) :
  match generate (added inputs) with
  | Ok out =>
    inputs <> []
    /\ length out
       = (12 + 46 * length inputs
          + sum_list (map (fun x => length (snd (fst x))) inputs))%nat
  | Err e => inputs = [] /\ e = Error "No files to package"
  end.
Proof.
  destruct inputs as [|x inputs].
  - cbn. split; reflexivity.
  - destruct (generate_header (added (x :: inputs))) as (out & Hgen & Hlen & _).
    + rewrite files_added. discriminate.
    + apply added_size_ok.
    + rewrite Hgen. split; [discriminate|].
      rewrite Hlen, sum_span_added, length_files_added. lia.
Qed.

(** X2. [clear] forgets every file: right after it [generate] throws
    "No files to package", and files added after it are packaged exactly as
    on a fresh generator. *)
Theorem spiffs_clear_reuse (this : t) (inputs : list (jsstring * list byte * Options)) :
  generate (clear this) = Err (Error "No files to package")
  /\ generate (addFiles (clear this) inputs) = generate (added inputs).
Proof.
  split; [reflexivity|].
  apply generate_files. rewrite files_addFiles. reflexivity.
Qed.

(** X3. The header of the container: the word at byte 0 is the number of
    files and the word at byte 8 is the length of everything after the
    12-byte header (table and data region), as long as that length fits 32
    bits. *)
Theorem spiffs_header_words (inputs : list (jsstring * list byte * Options)) :
  inputs <> [] ->
  Z.of_nat (46 * length inputs + sum_list (map (fun x => length (snd (fst x))) inputs))
    < 2 ^ 32 ->
  exists out, generate (added inputs) = Ok out
    /\ le_value (slice 0 4 out) = Z.of_nat (length inputs)
    /\ le_value (slice 8 4 out) = Z.of_nat (length out) - 12
    /\ (length (drop 12 out)
        = 46 * length inputs + sum_list (map (fun x => length (snd (fst x))) inputs))%nat.
Proof.
  intros Hne Hfit.
  destruct (generate_header (added inputs)) as (out & Hgen & Hlen & Hw0 & Hw8).
  { rewrite files_added. destruct inputs; [congruence | discriminate]. }
  { apply added_size_ok. }
  rewrite sum_span_added, length_files_added in *.
  exists out. split; [exact Hgen|].
  split; [|split].
  - rewrite Hw0, le_value_le_bytes. change (256 ^ Z.of_nat 4) with (2 ^ 32).
    apply Z.mod_small. lia.
  - rewrite Hw8, le_value_le_bytes. change (256 ^ Z.of_nat 4) with (2 ^ 32).
    rewrite Z.mod_small by lia. lia.
  - rewrite length_drop. lia.
Qed.

(** X4. Reading a container back. With the count at byte 0 and the row of
    file [i] at byte [12 + 44 * i], the size and offset words of the row
    locate, in the data region that follows the table, the marker 0x5A 0x5A
    and right after it exactly the bytes that were added under that name;
    the row's size is the length of the data. All of it under the one
    condition that the table and the data region fit 32 bits. *)
Theorem spiffs_read_back
    (inputs : list (jsstring * list byte * Options)) (i : nat) (f : FileEntry) :
  sortFiles (files (added inputs)) !! i = Some f ->
  Z.of_nat (46 * length inputs + sum_list (map (fun x => length (snd (fst x))) inputs))
    < 2 ^ 32 ->
  exists out, generate (added inputs) = Ok out
    /\ readAsset out i = ([u8 90; u8 90], data f)
    /\ row_size (readRow out i) = length (data f)
    /\ row_name (readRow out i) = packString (filename f) 32.
Proof.
  intros Hi Hfit.
  set (sorted := sortFiles (files (added inputs))) in *.
  destruct (generate_entry inputs i f Hi) as (out & Hgen & Hname & Hsize & Hoff & Hm & Hd).
  fold sorted in Hoff, Hm, Hd.
  destruct (generate_header (added inputs)) as (out' & Hgen' & _ & Hw0 & _).
  { intros E. apply lookup_lt_Some in Hi. unfold sorted in Hi.
    rewrite length_sortFiles, E in Hi. cbn in Hi. lia. }
  { apply added_size_ok. }
  assert (out' = out) by congruence. subst out'.
  rewrite length_files_added in Hw0.
  assert (Hsok : Forall size_ok sorted).
  { unfold sorted, sortFiles. rewrite array_sort_perm. apply added_size_ok. }
  assert (Hfok : size f = length (data f)).
  { eapply Forall_lookup_1 in Hsok; [exact Hsok | exact Hi]. }
  assert (Hsum : sum_list (map span sorted)
                 = (2 * length inputs + sum_list (map (fun x => length (snd (fst x))) inputs))%nat).
  { unfold sorted. now rewrite sum_span_sorted, sum_span_added. }
  assert (Hle : (sum_list (map span (take i sorted)) + span f <= sum_list (map span sorted))%nat).
  { rewrite fmap_take. apply sum_list_lookup_le.
    rewrite list_lookup_fmap, Hi. reflexivity. }
  unfold span at 2 in Hle.
  assert (Hlen : length sorted = length inputs).
  { unfold sorted. now rewrite length_sortFiles, length_files_added. }
  assert (Rn : readU32 out 0 = length inputs) by (apply readU32_slice; [exact Hw0 | lia]).
  assert (Rs : readU32 out (12 + 44 * i + 32) = size f)
    by (apply readU32_slice; [exact Hsize | lia]).
  assert (Ro : readU32 out (12 + 44 * i + 36) = sum_list (map span (take i sorted)))
    by (apply readU32_slice; [exact Hoff | lia]).
  exists out. split; [exact Hgen|].
  unfold readAsset, readRow. cbn [row_size row_offset row_name].
  rewrite Rn, Rs, Ro, <- Hlen, Hm, Hd. repeat split; assumption.
Qed.

End SpiffsErrors.

Lemma spiffs_header_words_witness :
  exists out, @SpiffsGenerator.generate exampleHost (SpiffsGenerator.added ex_inputs) = Ok out
    /\ le_value (slice 0 4 out) = 3
    /\ le_value (slice 8 4 out) = Z.of_nat (length out) - 12
    /\ length (drop 12 out) = 143%nat.
Proof.
  apply (@spiffs_header_words exampleHost ex_inputs).
  - discriminate.
  - vm_compute. reflexivity.
Defined.

Lemma spiffs_read_back_witness :
  exists out, @SpiffsGenerator.generate exampleHost (SpiffsGenerator.added ex_inputs) = Ok out
    /\ readAsset out 2 = ([u8 90; u8 90], [u8 1; u8 2; u8 3])
    /\ row_size (readRow out 2) = 3%nat
    /\ row_name (readRow out 2) = SpiffsGenerator.packString (js "b.png") 32.
Proof.
  apply (@spiffs_read_back exampleHost ex_inputs 2 ex_b_png).
  - reflexivity.
  - vm_compute. reflexivity.
Defined.

(** ** SpiffsGenerator: the image size of a row *)

Section SpiffsDimensions.
Import SpiffsGenerator.
Context `{Host}.

Lemma special_not_image (ext : jsstring) :
  DOT :: ext ∈ [js ".sjpg"; js ".spng"; js ".sqoi"] ->
  ext ∉ [js "png"; js "jpg"; js "jpeg"; js "gif"; js "bmp"; js "webp"].
Proof.
  intros Hin Himg.
  repeat (apply elem_of_cons in Hin as [Hin|Hin];
          [injection Hin as ->;
           repeat (apply elem_of_cons in Himg as [Himg|Himg]; [discriminate|]);
           inversion Himg|]).
  inversion Hin.
Qed.

(** X5. The width and height words of a row are the low 16 bits of the
    file's dimensions. Dimensions given to [addFile] win as soon as one of
    them is not zero: the file's bytes are not looked at, the other
    dimension is stored as it is, zero included. *)
Theorem spiffs_dimension_fields
    (inputs : list (jsstring * list byte * Options)) (i : nat) (f : FileEntry) :
  sortFiles (files (added inputs)) !! i = Some f ->
  exists out, generate (added inputs) = Ok out
    /\ row_width (readRow out i) = fst (fileDimensions f) mod 65536
    /\ row_height (readRow out i) = snd (fileDimensions f) mod 65536
    /\ (width f <> 0 \/ height f <> 0 -> fileDimensions f = (width f, height f)).
Proof.
  intros Hi.
  destruct (generate_row (added inputs) i f (added_size_ok inputs) Hi) as (out & Hgen & Hrow).
  exists out. split; [exact Hgen|].
  unfold readRow. cbn [row_width row_height].
  set (off := Z.of_nat (sum_list _)) in Hrow.
  assert (Hw : slice (12 + 44 * i + 40) 2 out = le_bytes 2 (fst (fileDimensions f))).
  { rewrite <- (slice_slice 40 2 (12 + 44 * i) 44) by lia. rewrite Hrow.
    apply (slice_at (packString (filename f) 32 ++ le_bytes 4 (Z.of_nat (size f))
                       ++ le_bytes 4 off) (le_bytes 2 (fst (fileDimensions f)))
                    (le_bytes 2 (snd (fileDimensions f)))).
    - now rewrite <- !app_assoc.
    - rewrite !length_app, length_packString, !length_le_bytes. reflexivity.
    - now rewrite length_le_bytes. }
  assert (Hh : slice (12 + 44 * i + 42) 2 out = le_bytes 2 (snd (fileDimensions f))).
  { rewrite <- (slice_slice 42 2 (12 + 44 * i) 44) by lia. rewrite Hrow.
    apply (slice_at (packString (filename f) 32 ++ le_bytes 4 (Z.of_nat (size f))
                       ++ le_bytes 4 off ++ le_bytes 2 (fst (fileDimensions f)))
                    (le_bytes 2 (snd (fileDimensions f))) []).
    - now rewrite <- !app_assoc, app_nil_r.
    - rewrite !length_app, length_packString, !length_le_bytes. reflexivity.
    - now rewrite length_le_bytes. }
  rewrite Hw, Hh, !le_value_le_bytes. change (256 ^ Z.of_nat 2) with 65536.
  split; [reflexivity|]. split; [reflexivity|].
  intros Hnz. unfold fileDimensions.
  destruct (Z.eqb_spec (width f) 0) as [Ew|Nw]; [|reflexivity].
  destruct (Z.eqb_spec (height f) 0) as [Eh|Nh]; [|reflexivity].
  destruct Hnz; contradiction.
Qed.

(** X6. A file added without dimensions whose name ends, in any letter
    case, in .sjpg, .spng or .sqoi: when it has at least 18 bytes and the
    little-endian 16-bit words at bytes 14 and 16 are not both zero, they
    are its width and height; when it is shorter than 18 bytes, or both
    words are zero, its dimensions are 0 x 0. The image decoder is not
    asked in either case, and nothing is thrown. *)
Theorem spiffs_special_format (f : FileEntry) :
  width f = 0 -> height f = 0 ->
  DOT :: last_segment (toLowerCase (filename f)) ∈ [js ".sjpg"; js ".spng"; js ".sqoi"] ->
  let w := le_value (slice 14 2 (data f)) in
  let h := le_value (slice 16 2 (data f)) in
  ((18 <= length (data f))%nat -> w <> 0 \/ h <> 0 -> fileDimensions f = (w, h))
  /\ ((18 <= length (data f))%nat -> w = 0 -> h = 0 -> fileDimensions f = (0, 0))
  /\ ((length (data f) < 18)%nat -> fileDimensions f = (0, 0)).
Proof.
  intros Hw Hh Hext w h.
  pose proof (special_not_image _ Hext) as Hnot.
  assert (Hwr : 0 <= w) by apply le_value_range.
  assert (Hhr : 0 <= h) by apply le_value_range.
  unfold fileDimensions, parseSpecialImageFormat, getUint16.
  rewrite Hw, Hh. cbn [Z.eqb andb].
  rewrite (bool_decide_eq_true_2 _ Hext), (bool_decide_eq_false_2 _ Hnot).
  split; [|split].
  - intros Hlen Hnz.
    destruct (decide (14 + 2 <= length (data f))%nat) as [_|Hn]; [|lia].
    destruct (decide (16 + 2 <= length (data f))%nat) as [_|Hn]; [|lia].
    cbn [rbind fst snd]. fold w h.
    destruct (Z.ltb_spec 0 w), (Z.ltb_spec 0 h); cbn [orb]; try reflexivity.
    exfalso. lia.
  - intros Hlen Ew Eh.
    destruct (decide (14 + 2 <= length (data f))%nat) as [_|Hn]; [|lia].
    destruct (decide (16 + 2 <= length (data f))%nat) as [_|Hn]; [|lia].
    cbn [rbind fst snd]. fold w h. rewrite Ew, Eh. reflexivity.
  - intros Hlen.
    destruct (decide (16 + 2 <= length (data f))%nat) as [Hn|_]; [lia|].
    destruct (decide (14 + 2 <= length (data f))%nat); reflexivity.
Qed.

End SpiffsDimensions.

Lemma spiffs_dimension_fields_witness :
  exists out, @SpiffsGenerator.generate exampleHost (SpiffsGenerator.added ex_inputs) = Ok out
    /\ row_width (readRow out 2) = 0 /\ row_height (readRow out 2) = 0.
Proof.
  destruct (@spiffs_dimension_fields exampleHost ex_inputs 2 ex_b_png eq_refl)
    as (out & Hgen & Hw & Hh & _).
  exists out. split; [exact Hgen|]. split; [exact Hw | exact Hh].
Defined.

Lemma spiffs_special_format_witness :
  @SpiffsGenerator.fileDimensions exampleHost ex_sjpg = (3, 2).
Proof.
  destruct (@spiffs_special_format exampleHost ex_sjpg) as (Hdims & _).
  - reflexivity.
  - reflexivity.
  - apply (bool_decide_unpack _). vm_compute. exact I.
  - apply Hdims; [cbn; lia | left; vm_compute; discriminate].
Defined.

(** ** SpiffsGenerator: [addFile] and [getStats] *)

Section SpiffsStats.
Import SpiffsGenerator.
Context `{Host}.

Lemma console_addFiles (this : t) (inputs : list (jsstring * list byte * Options)) :
  console (addFiles this inputs)
  = console this
      ++ filter (fun name => (32 < length name)%nat) (map (fun x => fst (fst x)) inputs).
Proof.
  unfold addFiles. revert this.
  induction inputs as [|[[name bytes] options] inputs IH]; intros this; cbn [foldl map fst].
  - now rewrite app_nil_r.
  - rewrite IH. cbn [addFile console]. rewrite filter_cons.
    destruct (Z.ltb_spec 32 (Z.of_nat (length name))) as [Hlt|Hge];
      destruct (decide (32 < length name)%nat) as [Hd|Hd]; try lia.
    + now rewrite <- app_assoc.
    + reflexivity.
Qed.

(** X7. [addFile] keeps every file, in the order of the calls, a name
    added twice giving two entries; and it warns about the names of more
    than 32 UTF-16 code units, and about no other. The limit of the name
    field is 32 bytes of UTF-8, so a name of at most 32 code units whose
    encoding is longer gets no warning, and its field holds the first 32
    bytes of the encoding. *)
Theorem spiffs_addFile_warnings (inputs : list (jsstring * list byte * Options)) :
  map filename (files (added inputs)) = map (fun x => fst (fst x)) inputs
  /\ map data (files (added inputs)) = map (fun x => snd (fst x)) inputs
  /\ console (added inputs)
     = filter (fun name => (32 < length name)%nat) (map (fun x => fst (fst x)) inputs)
  /\ forall name, (length name <= 32)%nat -> (32 < length (utf8_encode name))%nat ->
       (name ∉ console (added inputs))
       /\ packString name 32 = take 32 (utf8_encode name).
Proof.
  split; [|split; [|split]].
  - rewrite files_added, map_map. apply map_ext. now intros [[name bytes] options].
  - rewrite files_added, map_map. apply map_ext. now intros [[name bytes] options].
  - exact (console_addFiles new inputs).
  - intros name Hshort Hlong. split.
    + change (added inputs) with (addFiles new inputs). rewrite console_addFiles.
      cbn [console new app]. intros Hin. apply list_elem_of_filter in Hin as [Hlt _]. lia.
    + rewrite packString_eq. replace (32 - length (utf8_encode name))%nat with 0%nat by lia.
      apply app_nil_r.
Qed.

Lemma stats_loop (fs : list FileEntry) (total : nat) (types : gmap jsstring nat) :
  (forall e c, types !! e = Some c -> (1 <= c)%nat) ->
  let r := foldl (fun '(totalSize, fileTypes) file =>
                    let ext := fileType file in
                    ((totalSize + size file)%nat,
                     <[ext := (default 0%nat (fileTypes !! ext) + 1)%nat]> fileTypes))
                 (total, types) fs in
  fst r = (total + sum_list (map size fs))%nat
  /\ (forall e c, snd r !! e = Some c -> (1 <= c)%nat)
  /\ forall e, default 0%nat (snd r !! e)
               = (default 0%nat (types !! e)
                  + length (filter (fun f => fileType f = e) fs))%nat.
Proof.
  revert total types. induction fs as [|f fs IH]; intros total types Hpos; cbn [foldl].
  - cbn. repeat split; [lia | exact Hpos | intros e; lia].
  - cbv zeta.
    pose proof (IH (total + size f)%nat
                   (<[fileType f := (default 0%nat (types !! fileType f) + 1)%nat]> types))
      as IH'.
    cbv zeta in IH'. destruct IH' as (Ht & Hp & Hc).
    { intros e c. destruct (decide (fileType f = e)) as [<-|Hne].
      - rewrite lookup_insert_eq. intros [= <-]. lia.
      - rewrite lookup_insert_ne by exact Hne. apply Hpos. }
    split; [|split].
    + rewrite Ht. cbn [map sum_list sum_list_with id]. lia.
    + exact Hp.
    + intros e. rewrite Hc, filter_cons.
      destruct (decide (fileType f = e)) as [<-|Hne].
      * rewrite lookup_insert_eq. simpl. lia.
      * rewrite lookup_insert_ne by exact Hne. reflexivity.
Qed.

Lemma getStats_spec (this : t) :
  fileCount (getStats this) = length (files this)
  /\ totalSize (getStats this) = sum_list (map size (files this))
  /\ (forall e, default 0%nat (fileTypes (getStats this) !! e)
                = length (filter (fun f => fileType f = e) (files this)))
  /\ (forall e c, fileTypes (getStats this) !! e = Some c -> (1 <= c)%nat)
  /\ averageFileSize (getStats this)
     = if decide (0 < length (files this))%nat
       then round_quotient (sum_list (map size (files this))) (length (files this))
       else 0.
Proof.
  unfold getStats.
  destruct (stats_loop (files this) 0 ∅) as (Ht & Hp & Hc).
  { intros e c. rewrite lookup_empty. discriminate. }
  destruct (foldl _ _ (files this)) as [total types]. cbn [fst snd] in *.
  cbn [fileCount totalSize fileTypes averageFileSize].
  rewrite Nat.add_0_l in Ht. subst total.
  split; [reflexivity|]. split; [reflexivity|].
  split; [intros e; rewrite Hc, lookup_empty; reflexivity|].
  split; [exact Hp | reflexivity].
Qed.

Lemma round_quotient_bounds (a b : nat) :
  (0 < b)%nat ->
  2 * Z.of_nat a - Z.of_nat b < 2 * Z.of_nat b * round_quotient a b
    <= 2 * Z.of_nat a + Z.of_nat b.
Proof.
  intros Hb. unfold round_quotient.
  set (q := ((Z.of_nat a # Pos.of_nat b) + (1 # 2))%Q).
  pose proof (Qfloor_le q) as Hle. pose proof (Qlt_floor q) as Hlt.
  assert (Hp : Z.pos (Pos.of_nat b) = Z.of_nat b).
  { destruct b as [|b]; [lia|]. rewrite <- Pos.of_nat_succ. lia. }
  set (k := Qfloor q) in *.
  unfold q, Qle, Qlt, Qplus, inject_Z in Hle, Hlt. cbn [Qnum Qden] in Hle, Hlt.
  rewrite Pos2Z.inj_mul, Hp in Hle, Hlt. nia.
Qed.

Lemma count_bump (types : gmap jsstring nat) (e : jsstring) :
  map_fold (fun _ c acc => (c + acc)%nat) 0%nat
           (<[e := (default 0%nat (types !! e) + 1)%nat]> types)
  = (map_fold (fun _ c acc => (c + acc)%nat) 0%nat types + 1)%nat.
Proof.
  destruct (types !! e) as [v|] eqn:Ee; cbn [default from_option id].
  - rewrite (map_fold_delete_L _ _ e v types) by (intros; lia || exact Ee).
    rewrite <- insert_delete_eq.
    rewrite map_fold_insert_L by (intros; lia || apply lookup_delete_eq). lia.
  - rewrite map_fold_insert_L by (intros; lia || exact Ee). lia.
Qed.

Lemma stats_loop_sum (fs : list FileEntry) (total : nat) (types : gmap jsstring nat) :
  map_fold (fun _ c acc => (c + acc)%nat) 0%nat
    (snd (foldl (fun '(totalSize, fileTypes) file =>
                   let ext := fileType file in
                   ((totalSize + size file)%nat,
                    <[ext := (default 0%nat (fileTypes !! ext) + 1)%nat]> fileTypes))
                (total, types) fs))
  = (map_fold (fun _ c acc => (c + acc)%nat) 0%nat types + length fs)%nat.
Proof.
  revert total types. induction fs as [|f fs IH]; intros total types; cbn [foldl length].
  - cbn [snd]. lia.
  - cbv zeta in *. rewrite IH, count_bump. lia.
Qed.

(** X8. [getStats] counts what was added: the number of files, the sum of
    their sizes, and per file type the number of files of that type, a
    type that no file has being absent; the type of a file is what follows
    the last dot of its name, in lower case, and "unknown" when that is
    empty. The counts of the types sum up to the number of files. The
    average is the rounded quotient: twice the total differs from twice
    [count * average] by at most the count; it is 0 with no file. *)
Theorem spiffs_stats (this : t) :
  let s := getStats this in
  fileCount s = length (files this)
  /\ totalSize s = sum_list (map size (files this))
  /\ (forall e, fileTypes s !! e
                = match length (filter (fun f => fileType f = e) (files this)) with
                  | O => None
                  | S c => Some (S c)
                  end)
  /\ map_fold (fun _ c acc => (c + acc)%nat) 0%nat (fileTypes s) = fileCount s
  /\ (files this = [] -> averageFileSize s = 0)
  /\ (files this <> [] ->
      2 * Z.of_nat (totalSize s) - Z.of_nat (fileCount s)
        < 2 * Z.of_nat (fileCount s) * averageFileSize s
        <= 2 * Z.of_nat (totalSize s) + Z.of_nat (fileCount s)).
Proof.
  intros s. destruct (getStats_spec this) as (Hn & Ht & Hc & Hp & Ha). fold s in Hn, Ht, Hc, Hp, Ha.
  split; [exact Hn|]. split; [exact Ht|]. split; [|split; [|split]].
  - intros e. specialize (Hc e). specialize (Hp e).
    destruct (fileTypes s !! e) as [c|]; cbn [default] in Hc; rewrite <- Hc.
    + specialize (Hp c eq_refl). destruct c; [lia | reflexivity].
    + reflexivity.
  - rewrite Hn. unfold s, getStats.
    pose proof (stats_loop_sum (files this) 0 ∅) as Hs.
    destruct (foldl _ _ (files this)) as [total types]. cbn [snd fileTypes] in *.
    rewrite Hs, map_fold_empty. lia.
  - intros E. rewrite Ha, E. reflexivity.
  - intros Hne. rewrite Ha, Ht, Hn.
    destruct (decide (0 < length (files this))%nat) as [Hpos|Hz].
    + now apply round_quotient_bounds.
    + destruct (files this); [congruence | cbn in Hz; lia].
Qed.

(** X9. The statistics predict the container: for a generator with at
    least one file, [generate] returns [12 + 46 * fileCount + totalSize]
    bytes. *)
Theorem spiffs_stats_size (inputs : list (jsstring * list byte * Options)) :
  inputs <> [] ->
  exists out, generate (added inputs) = Ok out
    /\ length out
       = (12 + 46 * fileCount (getStats (added inputs))
          + totalSize (getStats (added inputs)))%nat.
Proof.
  intros Hne.
  destruct (generate_header (added inputs)) as (out & Hgen & Hlen & _).
  { rewrite files_added. destruct inputs; [congruence | discriminate]. }
  { apply added_size_ok. }
  exists out. split; [exact Hgen|].
  destruct (getStats_spec (added inputs)) as (Hn & Ht & _).
  rewrite Hlen, Hn, Ht.
  assert (Hs : forall fs, sum_list (map span fs) = (2 * length fs + sum_list (map size fs))%nat).
  { clear. induction fs as [|f fs IH]; [reflexivity|].
    cbn [map sum_list sum_list_with id length]. unfold span at 1. lia. }
  rewrite Hs. lia.
Qed.

End SpiffsStats.

Lemma spiffs_stats_size_witness :
  exists out, @SpiffsGenerator.generate exampleHost (SpiffsGenerator.added ex_inputs) = Ok out
    /\ length out = 155%nat.
Proof.
  apply (@spiffs_stats_size exampleHost ex_inputs). discriminate.
Defined.

(** ** WakenetModelPacker: the model map, errors and statistics *)

Section WakenetMap.
Import WakenetModelPacker.

Lemma map_get_set_eq {V} (m : jsmap V) (k : jsstring) (v : V) :
  map_get (map_set m k v) k = Some v.
Proof.
  induction m as [|[k' v'] m IH]; cbn [map_set map_get].
  - now rewrite decide_True.
  - destruct (decide (k' = k)) as [->|Hne]; cbn [map_get].
    + now rewrite decide_True.
    + now rewrite decide_False.
Qed.

Lemma map_get_set_ne {V} (m : jsmap V) (k k' : jsstring) (v : V) :
  k' <> k -> map_get (map_set m k v) k' = map_get m k'.
Proof.
  intros Hne. induction m as [|[k0 v0] m IH]; cbn [map_set map_get].
  - now rewrite decide_False by congruence.
  - destruct (decide (k0 = k)) as [->|Hk]; cbn [map_get].
    + now rewrite !decide_False by congruence.
    + destruct (decide (k0 = k')); [reflexivity | exact IH].
Qed.

Lemma map_get_None {V} (m : jsmap V) (k : jsstring) :
  map_get m k = None <-> k ∉ map fst m.
Proof.
  induction m as [|[k' v'] m IH]; cbn [map_get map fst].
  - split; [intros _ Hin; inversion Hin | reflexivity].
  - rewrite not_elem_of_cons. destruct (decide (k' = k)) as [->|Hne].
    + split; [discriminate | intros [Hk _]; congruence].
    + rewrite IH. split; [intros Hk; split; [congruence | exact Hk] | now intros [_ Hk]].
Qed.

Lemma keys_map_set {V} (m : jsmap V) (k : jsstring) (v : V) :
  map fst (map_set m k v)
  = if decide (k ∈ map fst m) then map fst m else map fst m ++ [k].
Proof.
  induction m as [|[k' v'] m IH]; cbn [map_set map fst].
  - rewrite decide_False by (intros Hin; inversion Hin). reflexivity.
  - destruct (decide (k' = k)) as [->|Hne]; cbn [map fst].
    + rewrite decide_True by apply list_elem_of_here. reflexivity.
    + rewrite IH. destruct (decide (k ∈ map fst m)) as [Hin|Hout].
      * rewrite decide_True by now apply list_elem_of_further. reflexivity.
      * rewrite decide_False; [reflexivity|].
        intros Hin. apply elem_of_cons in Hin as [->|Hin]; contradiction.
Qed.

Lemma NoDup_map_set {V} (m : jsmap V) (k : jsstring) (v : V) :
  NoDup (map fst m) -> NoDup (map fst (map_set m k v)).
Proof.
  intros Hnd. rewrite keys_map_set. destruct (decide (k ∈ map fst m)) as [Hin|Hout];
    [exact Hnd|].
  apply NoDup_app. split; [exact Hnd|]. split.
  - intros x Hx Hk. apply list_elem_of_singleton in Hk as ->. contradiction.
  - apply NoDup_singleton.
Qed.

Lemma lookupFile_add_eq (p : t) (m f : jsstring) (d : list byte) :
  lookupFile (addModelFile p m f d) m f = Some d.
Proof.
  unfold lookupFile, addModelFile. cbn [models].
  rewrite map_get_set_eq. apply map_get_set_eq.
Qed.

Lemma lookupFile_add_ne (p : t) (m f m' f' : jsstring) (d : list byte) :
  (m', f') <> (m, f) ->
  lookupFile (addModelFile p m f d) m' f' = lookupFile p m' f'.
Proof.
  intros Hne. unfold lookupFile, addModelFile. cbn [models].
  destruct (decide (m' = m)) as [->|Hm].
  - rewrite map_get_set_eq.
    assert (Hf : f' <> f) by congruence.
    rewrite map_get_set_ne by exact Hf.
    destruct (map_get (models p) m) as [fs|] eqn:Em.
    + rewrite Em. reflexivity.
    + rewrite map_get_set_eq. reflexivity.
  - rewrite map_get_set_ne by exact Hm.
    destruct (map_get (models p) m) as [fs|] eqn:Em; [reflexivity|].
    now rewrite map_get_set_ne by exact Hm.
Qed.

End WakenetMap.

Section WakenetMore.
Import WakenetModelPacker.

Lemma map_get_elem {V} (m : jsmap V) (k : jsstring) (v : V) :
  map_get m k = Some v -> (k, v) ∈ m.
Proof.
  induction m as [|[k' v'] m IH]; cbn [map_get]; [discriminate|].
  destruct (decide (k' = k)) as [->|Hne].
  - intros [= ->]. apply list_elem_of_here.
  - intros Hg. apply list_elem_of_further, IH, Hg.
Qed.

Lemma Forall_map_set {V} (P : jsstring * V -> Prop) (m : jsmap V) (k : jsstring) (v : V) :
  Forall P m -> P (k, v) -> Forall P (map_set m k v).
Proof.
  intros Hm Hv. induction Hm as [|[k' v'] m Hx Hm IH]; cbn [map_set].
  - constructor; [exact Hv | constructor].
  - destruct (decide (k' = k)); constructor; assumption.
Qed.

Lemma keys_distinct_add (p : t) (m f : jsstring) (d : list byte) :
  keys_distinct p -> keys_distinct (addModelFile p m f d).
Proof.
  intros [Hk Hf]. unfold keys_distinct, addModelFile. cbn [models].
  destruct (map_get (models p) m) as [fs|] eqn:Em.
  - split; [now apply NoDup_map_set|].
    apply Forall_map_set; [exact Hf|]. cbn [snd]. rewrite Em. cbn [default from_option id].
    apply NoDup_map_set.
    apply map_get_elem in Em. rewrite Forall_forall in Hf. exact (Hf _ Em).
  - split; [now apply NoDup_map_set, NoDup_map_set|].
    apply Forall_map_set.
    + apply Forall_map_set; [exact Hf | constructor].
    + cbn [snd]. rewrite map_get_set_eq. cbn. repeat constructor. intros Hin. inversion Hin.
Qed.

Lemma lookupFile_foldl (inputs : list (jsstring * jsstring * list byte)) (p : t)
    (m f : jsstring) :
  lookupFile (foldl (fun p '(modelName, fileName, fileData) =>
                       addModelFile p modelName fileName fileData) p inputs) m f
  = match last (filter (fun x => fst x = (m, f)) inputs) with
    | Some x => Some (snd x)
    | None => lookupFile p m f
    end.
Proof.
  revert p. induction inputs as [|[[m0 f0] d0] inputs IH]; intros p; cbn [foldl].
  - reflexivity.
  - rewrite IH, filter_cons. cbn [fst].
    destruct (decide ((m0, f0) = (m, f))) as [E|Hne].
    + injection E as -> ->. rewrite last_cons.
      destruct (last (filter _ inputs)); [reflexivity|].
      cbn [snd]. apply lookupFile_add_eq.
    + destruct (last (filter _ inputs)); [reflexivity|].
      apply lookupFile_add_ne. congruence.
Qed.

(** X10. The packer holds one entry per (model, file) pair: what
    [addModelFile] stored last under a pair is what the packer holds for it,
    an earlier file of the same name in the same model being replaced; a
    pair that was never added is absent; and no model name and, within a
    model, no file name occurs twice. *)
Theorem wakenet_last_write_wins
    (inputs : list (jsstring * jsstring * list byte)) (m f : jsstring) :
  lookupFile (added inputs) m f
  = snd <$> last (filter (fun x => fst x = (m, f)) inputs)
  /\ keys_distinct (added inputs).
Proof.
  split.
  - unfold added. rewrite lookupFile_foldl.
    destruct (last (filter _ inputs)); reflexivity.
  - unfold added.
    assert (Hg : forall p, keys_distinct p ->
              keys_distinct (foldl (fun p '(modelName, fileName, fileData) =>
                                      addModelFile p modelName fileName fileData) p inputs)).
    { induction inputs as [|[[m0 f0] d0] inputs IH]; intros p Hp; cbn [foldl]; [exact Hp|].
      apply IH, keys_distinct_add, Hp. }
    apply Hg. split; constructor.
Qed.

Context `{Host}.

Lemma getStats_spec_wn (this : t) :
  modelCount (getStats this) = length (models this)
  /\ fileCount (getStats this) = sum_list (map (fun mf => length (snd mf)) (models this))
  /\ totalSize (getStats this) = sum_list (map (fun mf => filesSize (snd mf)) (models this))
  /\ modelNames (getStats this) = map fst (models this).
Proof.
  unfold getStats.
  assert (Hg : forall (l : list (jsstring * jsmap (list byte))) a b,
    foldl (fun '(totalFiles, totalSize) fs =>
             ((totalFiles + length fs)%nat,
              foldl (fun totalSize fileData => (totalSize + length fileData)%nat)
                    totalSize (map snd fs)))
          (a, b) (map snd l)
    = ((a + sum_list (map (fun mf => length (snd mf)) l))%nat,
       (b + sum_list (map (fun mf => filesSize (snd mf)) l))%nat)).
  { induction l as [|[n fs] l IH]; intros a b; cbn [map foldl snd].
    - cbn. f_equal; lia.
    - rewrite IH. cbn [sum_list sum_list_with id].
      rewrite (foldl_add_sum length). unfold filesSize at 2. rewrite map_map.
      f_equal; lia. }
  rewrite Hg. cbn [modelCount fileCount totalSize modelNames Nat.add].
  repeat split.
Qed.

Lemma length_modelBlob (ms : list ModelData) :
  length (modelBlob ms)
  = (4 + sum_list (map modelHeaderSize ms)
     + sum_list (map (fun m => filesSize (files m)) ms))%nat.
Proof.
  unfold modelBlob. rewrite !length_app, length_le_bytes, length_modelHeaders.
  assert (Hb : length (modelBytes ms) = sum_list (map (fun m => filesSize (files m)) ms)).
  { unfold modelBytes. induction ms as [|m ms IH]; [reflexivity|].
    cbn [map concat sum_list sum_list_with id]. rewrite length_app, IH.
    now rewrite length_modelBytes_files. }
  rewrite Hb. lia.
Qed.

Lemma sizes_modelDataList (this : t) :
  sum_list (map modelHeaderSize (modelDataList this))
  = (36 * length (models this)
     + 40 * sum_list (map (fun mf => length (snd mf)) (models this)))%nat
  /\ sum_list (map (fun m => filesSize (files m)) (modelDataList this))
     = sum_list (map (fun mf => filesSize (snd mf)) (models this)).
Proof.
  assert (Hl : length (array_sort compareKeys (models this)) = length (models this))
    by now rewrite array_sort_perm.
  assert (Hs : forall g : jsstring * jsmap (list byte) -> nat,
            sum_list (map g (array_sort compareKeys (models this)))
            = sum_list (map g (models this)))
    by (intros g; now rewrite array_sort_perm).
  rewrite <- Hl, <- !Hs.
  unfold modelDataList. rewrite !map_map.
  generalize (array_sort compareKeys (models this)). intros l.
  induction l as [|[n fs] l [IH1 IH2]]; [split; reflexivity|].
  cbn [map sum_list sum_list_with id length snd files] in *.
  rewrite filesSize_sorted. unfold modelHeaderSize at 1. cbn [files].
  assert (Hfs : length (array_sort compareKeys fs) = length fs) by now rewrite array_sort_perm.
  rewrite Hfs. split; lia.
Qed.

(** X11. [packModels] fails in one case only: it throws when no model
    file was added. Otherwise it returns, and the blob is as long as the
    statistics say: 4 bytes, 36 per model, 40 per file, and the data. *)
Theorem wakenet_pack_total (inputs : list (jsstring * jsstring * list byte)) :
  let s := getStats (added inputs) in
  match packModels (added inputs) with
  | Ok out =>
    inputs <> []
    /\ length out = (4 + 36 * modelCount s + 40 * fileCount s + totalSize s)%nat
  | Err e => inputs = [] /\ e = Error "没有模型数据可打包"
  end.
Proof.
  intros s. destruct inputs as [|x inputs].
  - cbn. split; reflexivity.
  - rewrite packModels_layout by (apply added_nonempty; discriminate).
    split; [discriminate|].
    destruct (getStats_spec_wn (added (x :: inputs))) as (Hm & Hf & Ht & _).
    fold s in Hm, Hf, Ht. rewrite Hm, Hf, Ht, length_modelBlob.
    destruct (sizes_modelDataList (added (x :: inputs))) as [-> ->]. lia.
Qed.

End WakenetMore.

Lemma startsWith_spec (s prefix : jsstring) :
  startsWith s prefix = true <-> exists rest, s = prefix ++ rest.
Proof.
  revert s. induction prefix as [|p prefix IH]; intros s; cbn [startsWith].
  - split; [intros _; now exists s | reflexivity].
  - destruct s as [|c s].
    + split; [discriminate | intros [rest Hr]; discriminate].
    + rewrite andb_true_iff, Z.eqb_eq, IH. split.
      * intros [-> [rest ->]]. now exists rest.
      * intros [rest Hr]. injection Hr as -> ->. split; [reflexivity | now exists rest].
Qed.

Section WakenetModels.
Import WakenetModelPacker.

(** X12. A model name is valid for the chips esp32c3 and esp32c6 exactly
    when it starts with "wn9s_", and for every other chip exactly when it
    starts with "wn9_"; no name is valid for both families. *)
Theorem wakenet_valid_model (modelName chipModel : jsstring) :
  let small chip := bool_decide (chip ∈ [js "esp32c3"; js "esp32c6"]) in
  (isValidModel modelName chipModel = true
   <-> exists rest,
         modelName = (if small chipModel then js "wn9s_" else js "wn9_") ++ rest)
  /\ (forall other, small other <> small chipModel ->
        isValidModel modelName chipModel = true -> isValidModel modelName other = false).
Proof.
  intros small.
  assert (Hsmall : forall chip,
            bool_decide (chip = js "esp32c3") || bool_decide (chip = js "esp32c6")
            = small chip).
  { intros chip. unfold small.
    destruct (decide (chip = js "esp32c3")) as [->|H3]; [reflexivity|].
    destruct (decide (chip = js "esp32c6")) as [->|H6]; [reflexivity|].
    rewrite !bool_decide_eq_false_2; [reflexivity | | exact H6 | exact H3].
    intros Hin. apply elem_of_cons in Hin as [?|Hin]; [contradiction|].
    apply list_elem_of_singleton in Hin. contradiction. }
  assert (Hdisj : startsWith modelName (js "wn9s_") = true ->
                  startsWith modelName (js "wn9_") = true -> False).
  { rewrite !startsWith_spec. intros [r1 ->] [r2 Hr]. discriminate Hr. }
  unfold isValidModel. split.
  - rewrite Hsmall. destruct (small chipModel); apply startsWith_spec.
  - intros other Hne. rewrite !Hsmall.
    destruct (small chipModel), (small other); try congruence; intros Hv;
      destruct (startsWith modelName _) eqn:Es in |- *; try reflexivity;
      exfalso; auto.
Qed.

(** X13. [loadModelFromShare] answers true exactly when all three files
    of the model were fetched. Whatever it answers, every file that was
    fetched is in the packer afterwards, so a load that fails half-way
    leaves a partial model behind; a file that was not fetched, and every
    file of another model, is as it was before. *)
Theorem wakenet_load_from_share
    (fetch : jsstring -> option (list byte)) (this : t) (modelName : jsstring) :
  let url fileName := js "./static/wakenet_model/" ++ modelName ++ [SLASH] ++ fileName in
  let r := loadModelFromShare fetch this modelName in
  (snd r = true <-> Forall (fun fileName => is_Some (fetch (url fileName))) modelFiles)
  /\ (forall fileName, fileName ∈ modelFiles ->
        lookupFile (fst r) modelName fileName
        = match fetch (url fileName) with
          | Some fileData => Some fileData
          | None => lookupFile this modelName fileName
          end)
  /\ (forall m f, m <> modelName \/ f ∉ modelFiles ->
        lookupFile (fst r) m f = lookupFile this m f).
Proof.
  intros url r. unfold r, loadModelFromShare, modelFiles. subst url. cbv beta.
  assert (N12 : (modelName, js "_MODEL_INFO_") <> (modelName, js "wn9_data")) by (intros [=]).
  assert (N13 : (modelName, js "_MODEL_INFO_") <> (modelName, js "wn9_index")) by (intros [=]).
  assert (N21 : (modelName, js "wn9_data") <> (modelName, js "_MODEL_INFO_")) by (intros [=]).
  assert (N23 : (modelName, js "wn9_data") <> (modelName, js "wn9_index")) by (intros [=]).
  assert (N31 : (modelName, js "wn9_index") <> (modelName, js "_MODEL_INFO_")) by (intros [=]).
  assert (N32 : (modelName, js "wn9_index") <> (modelName, js "wn9_data")) by (intros [=]).
  assert (Hother : forall m f, m <> modelName
            \/ f ∉ [js "_MODEL_INFO_"; js "wn9_data"; js "wn9_index"] ->
            (m, f) <> (modelName, js "_MODEL_INFO_")
            /\ (m, f) <> (modelName, js "wn9_data")
            /\ (m, f) <> (modelName, js "wn9_index")).
  { intros m f Hmf. repeat split; intros [= -> ->];
      (destruct Hmf as [Hm|Hf]; [congruence | apply Hf; repeat constructor]). }
  cbn [foldl length].
  destruct (fetch (js "./static/wakenet_model/" ++ modelName ++ [SLASH] ++ js "_MODEL_INFO_"))
    as [d1|] eqn:E1; cbv beta iota;
  destruct (fetch (js "./static/wakenet_model/" ++ modelName ++ [SLASH] ++ js "wn9_data"))
    as [d2|] eqn:E2; cbv beta iota;
  destruct (fetch (js "./static/wakenet_model/" ++ modelName ++ [SLASH] ++ js "wn9_index"))
    as [d3|] eqn:E3; cbv beta iota; cbn [fst snd];
  (split; [|split]);
  try (rewrite !Forall_cons, Forall_nil, E1, E2, E3;
       split; [intros Hok; try discriminate Hok; repeat split; eexists; reflexivity
              | intros (H1 & H2 & H3 & _); try reflexivity;
                try (destruct H1 as [? H1]; discriminate H1);
                try (destruct H2 as [? H2]; discriminate H2);
                try (destruct H3 as [? H3]; discriminate H3)]);
  try (intros fileName Hin;
       repeat (apply elem_of_cons in Hin as [->|Hin]); [| | |inversion Hin];
       rewrite ?E1, ?E2, ?E3;
       repeat first [ rewrite lookupFile_add_eq | rewrite lookupFile_add_ne by assumption ];
       reflexivity);
  try (intros m f Hmf; destruct (Hother m f Hmf) as (M1 & M2 & M3);
       repeat rewrite lookupFile_add_ne by assumption; reflexivity).
Qed.

End WakenetModels.

(** ** CBinFont: the bit stream of a glyph bitmap *)

Section BitStream.
Import CBinFont.

Lemma length_bitsOf (n : nat) (v : Z) : length (bitsOf n v) = n.
Proof. unfold bitsOf. now rewrite length_map, length_seq. Qed.

Lemma lookup_bitsOf (n : nat) (v : Z) (i : nat) :
  (i < n)%nat -> bitsOf n v !! i = Some (Z.testbit v (Z.of_nat (n - 1 - i))).
Proof.
  intros Hi. unfold bitsOf. rewrite list_lookup_fmap, lookup_seq_lt by exact Hi.
  reflexivity.
Qed.

(** The top [t] of the low [n] bits, then the remaining low bits. *)
Lemma bitsOf_split (n t : nat) (v : Z) :
  (t <= n)%nat ->
  bitsOf n v
  = bitsOf t (Z.shiftr v (Z.of_nat (n - t)) mod 2 ^ Z.of_nat t) ++ bitsOf (n - t) v.
Proof.
  intros Ht. apply list_eq. intros i.
  destruct (decide (i < t)%nat) as [Hlt|Hge].
  - rewrite lookup_app_l by (rewrite length_bitsOf; lia).
    rewrite !lookup_bitsOf by lia. f_equal.
    rewrite Z.mod_pow2_bits_low by lia.
    rewrite Z.shiftr_spec by lia. f_equal. lia.
  - rewrite lookup_app_r by (rewrite length_bitsOf; lia). rewrite length_bitsOf.
    destruct (decide (i < n)%nat) as [Hin|Hout].
    + rewrite !lookup_bitsOf by lia. do 2 f_equal. lia.
    + rewrite !lookup_ge_None_2 by (rewrite length_bitsOf; lia). reflexivity.
Qed.

Lemma js_and_small (a b : Z) :
  - 2 ^ 31 <= a < 2 ^ 31 -> - 2 ^ 31 <= b < 2 ^ 31 -> js_and a b = Z.land a b.
Proof. intros Ha Hb. unfold js_and. now rewrite !toInt32_small by lia. Qed.

(** The value that one turn of the loop of [writeBits] stores. *)
Lemma bitValue_eq (value bits t : Z) :
  0 <= value < 2 ^ 31 -> 1 <= t <= 8 -> t <= bits < 32 ->
  js_and (js_shr value (bits - t)) (js_shl 1 t - 1)
  = Z.shiftr value (bits - t) mod 2 ^ t.
Proof.
  intros Hv Ht Hb.
  assert (Hp : 2 ^ t <= 2 ^ 8) by (apply Z.pow_le_mono_r; lia).
  assert (Hp0 : 0 < 2 ^ t) by (apply Z.pow_pos_nonneg; lia).
  rewrite js_shr_small by lia.
  rewrite js_shl_small by lia.
  rewrite Z.shiftl_1_l.
  assert (Hs : 0 <= Z.shiftr value (bits - t) < 2 ^ 31).
  { rewrite Z.shiftr_div_pow2 by lia. split.
    - apply Z.div_pos; [lia | apply Z.pow_pos_nonneg; lia].
    - apply Z.le_lt_trans with value; [|lia].
      apply Z.div_le_upper_bound; [apply Z.pow_pos_nonneg; lia|].
      assert (0 < 2 ^ (bits - t)) by (apply Z.pow_pos_nonneg; lia). nia. }
  rewrite js_and_small by lia.
  replace (2 ^ t - 1) with (Z.ones t) by (rewrite Z.ones_equiv; lia).
  apply Z.land_ones. lia.
Qed.

Lemma testbit_above (x : Z) (t i : Z) :
  0 <= x < 2 ^ t -> 0 <= t <= i -> Z.testbit x i = false.
Proof.
  intros Hx Hi. rewrite <- (Z.mod_small x (2 ^ t)) by lia.
  apply Z.mod_pow2_bits_high. lia.
Qed.

Lemma streamBit_insert_other (buf : list byte) (i k : nat) (b : byte) :
  (k / 8)%nat <> i -> streamBit (<[i := b]> buf) k = streamBit buf k.
Proof.
  intros Hne. unfold streamBit. rewrite list_lookup_insert_ne by congruence. reflexivity.
Qed.

(** One turn of the loop of [writeBits]: [t] bits, which fit the byte. *)
Lemma writeChunk_bits (bs : SimpleBitStream) (bl : list bool) (x : Z) (t : nat) :
  holdsBits bs bl ->
  (1 <= t)%nat -> bitIndex bs + Z.of_nat t <= 8 -> 0 <= x < 2 ^ Z.of_nat t ->
  (byteIndex bs < length (buffer bs))%nat ->
  forall k, streamBit (or_into (buffer bs) (byteIndex bs)
                         (js_shl x (8 - bitIndex bs - Z.of_nat t))) k
            = default false ((bl ++ bitsOf t x) !! k).
Proof.
  intros (Hlen & Hbi & Hbe & Hbits) Ht Hfit Hx Hidx k.
  unfold or_into, u8array_store.
  destruct (buffer bs !! byteIndex bs) as [old|] eqn:Eold;
    [|apply lookup_ge_None in Eold; lia].
  set (s := 8 - bitIndex bs - Z.of_nat t).
  assert (Hs : 0 <= s < 8) by (unfold s; lia).
  assert (Hps : 0 < 2 ^ s) by (apply Z.pow_pos_nonneg; lia).
  assert (Hxs : x * 2 ^ s < 2 ^ 8).
  { apply Z.lt_le_trans with (2 ^ Z.of_nat t * 2 ^ s); [nia|].
    rewrite <- Z.pow_add_r by lia. apply Z.pow_le_mono_r; lia. }
  rewrite js_shl_small by lia.
  pose proof (b2z_range old) as Hold.
  rewrite js_or_small by (rewrite ?Z.shiftl_mul_pow2 by lia; lia).
  pose proof (Nat.div_mod_eq k 8) as Hk.
  pose proof (Nat.mod_upper_bound k 8 ltac:(lia)) as Hr.
  destruct (decide ((k / 8)%nat = byteIndex bs)) as [Ek|Nk].
  - pose proof (Hbits k) as Hb. unfold streamBit in Hb |- *. rewrite Ek in Hb |- *.
    rewrite Eold in Hb. rewrite list_lookup_insert_eq by exact Hidx.
    rewrite b2z_u8. change 256 with (2 ^ 8). rewrite Z.mod_pow2_bits_low by lia.
    rewrite Z.lor_spec, Hb.
    destruct (decide (k < length bl)%nat) as [Hin|Hout].
    + rewrite lookup_app_l by exact Hin.
      rewrite Z.shiftl_spec by lia.
      rewrite (testbit_above x (Z.of_nat t)) by lia. apply orb_false_r.
    + rewrite (lookup_ge_None_2 bl k) by lia. cbn [default from_option id orb].
      rewrite lookup_app_r by lia.
      destruct (decide (k - length bl < t)%nat) as [Hlt|Hge].
      * rewrite lookup_bitsOf by exact Hlt. cbn [default from_option id].
        rewrite Z.shiftl_spec by lia. f_equal. unfold s. lia.
      * rewrite lookup_ge_None_2 by (rewrite length_bitsOf; lia).
        cbn [default from_option id].
        rewrite Z.shiftl_spec by lia. apply Z.testbit_neg_r. unfold s. lia.
  - rewrite streamBit_insert_other by exact Nk. rewrite Hbits.
    destruct (decide (k < length bl)%nat) as [Hin|Hout].
    + now rewrite lookup_app_l by exact Hin.
    + rewrite (lookup_ge_None_2 bl k) by lia.
      rewrite lookup_ge_None_2; [reflexivity|].
      rewrite length_app, length_bitsOf. lia.
Qed.

(** [writeBits] appends the low [bits] bits of [value], the most
    significant first, as long as they fit the buffer. *)
Lemma writeBits_loop_holds (fuel : nat) (bs : SimpleBitStream) (bl : list bool)
    (value bits : Z) :
  holdsBits bs bl -> 0 <= value < 2 ^ 31 -> 0 <= bits < 32 -> bits <= Z.of_nat fuel ->
  (length bl + Z.to_nat bits <= 8 * length (buffer bs))%nat ->
  holdsBits (writeBits_loop fuel bs value bits) (bl ++ bitsOf (Z.to_nat bits) value)
  /\ length (buffer (writeBits_loop fuel bs value bits)) = length (buffer bs).
Proof.
  revert bs bl bits. induction fuel as [|fuel IH]; intros bs bl bits Hh Hv Hb Hf Hcap.
  - assert (bits = 0) by lia. subst bits. cbn. now rewrite app_nil_r.
  - cbn [writeBits_loop]. destruct (Z.ltb_spec 0 bits) as [Hpos|Hz].
    2:{ assert (bits = 0) by lia. subst bits. cbn. now rewrite app_nil_r. }
    destruct Hh as (Hlen & Hbi & Hbe & Hbits).
    set (t := Z.min (8 - bitIndex bs) bits).
    assert (Ht : 1 <= t <= 8 /\ t <= bits) by (unfold t; lia).
    rewrite bitValue_eq by lia. rewrite Hbe.
    set (x := Z.shiftr value (bits - t) mod 2 ^ t).
    assert (Hx : 0 <= x < 2 ^ t) by (apply Z.mod_pos_bound, Z.pow_pos_nonneg; lia).
    assert (Hidx : (byteIndex bs < length (buffer bs))%nat) by lia.
    pose proof (writeChunk_bits bs bl x (Z.to_nat t)
                  (conj Hlen (conj Hbi (conj Hbe Hbits)))) as Hchunk.
    rewrite Z2Nat.id in Hchunk by lia.
    specialize (Hchunk ltac:(lia) ltac:(lia) Hx Hidx).
    assert (Hsplit : bl ++ bitsOf (Z.to_nat bits) value
                     = (bl ++ bitsOf (Z.to_nat t) x) ++ bitsOf (Z.to_nat (bits - t)) value).
    { rewrite (bitsOf_split (Z.to_nat bits) (Z.to_nat t) value) by lia.
      rewrite <- app_assoc. unfold x.
      replace (Z.of_nat (Z.to_nat bits - Z.to_nat t)) with (bits - t) by lia.
      rewrite Z2Nat.id by lia.
      replace (Z.to_nat bits - Z.to_nat t)%nat with (Z.to_nat (bits - t)) by lia.
      reflexivity. }
    rewrite Hsplit.
    match goal with
    | |- context [writeBits_loop fuel ?bs1 value (bits - t)] =>
      destruct (IH bs1 (bl ++ bitsOf (Z.to_nat t) x) (bits - t)) as [IH1 IH2]
    end.
    + destruct (Z.leb_spec 8 (bitIndex bs + t)) as [Hfull|Hpart];
        (split; [|split; [|split]]); cbn [byteIndex bitIndex bigEndian buffer];
        try exact Hbe; try exact Hchunk; rewrite ?length_app, ?length_bitsOf; lia.
    + exact Hv.
    + lia.
    + lia.
    + rewrite length_app, length_bitsOf.
      destruct (Z.leb_spec 8 (bitIndex bs + t)); cbn [buffer];
        unfold or_into, u8array_store; rewrite length_insert; lia.
    + split; [exact IH1|]. rewrite IH2.
      destruct (Z.leb_spec 8 (bitIndex bs + t)); cbn [buffer];
        unfold or_into, u8array_store; apply length_insert.
Qed.

Lemma foldl_concat {A B} (f : A -> B -> A) (ls : list (list B)) (a : A) :
  foldl (fun a' l => foldl f a' l) a ls = foldl f a (concat ls).
Proof.
  revert a. induction ls as [|l ls IH]; intros a; [reflexivity|].
  cbn [foldl concat]. now rewrite foldl_app, IH.
Qed.

Lemma length_concat_bits (n : nat) (vs : list Z) :
  length (concat (map (bitsOf n) vs)) = (n * length vs)%nat.
Proof.
  induction vs as [|v vs IH]; cbn [map concat length]; [lia|].
  rewrite length_app, length_bitsOf, IH. lia.
Qed.

Lemma storeValues_holds (b : Z) (vs : list Z) (bs : SimpleBitStream) (bl : list bool) :
  holdsBits bs bl -> 1 <= b <= 8 -> Forall (fun v => 0 <= v < 2 ^ 31) vs ->
  (length bl + Z.to_nat b * length vs <= 8 * length (buffer bs))%nat ->
  holdsBits (foldl (fun bs' p => writeBits bs' p b) bs vs)
            (bl ++ concat (map (bitsOf (Z.to_nat b)) vs))
  /\ length (buffer (foldl (fun bs' p => writeBits bs' p b) bs vs)) = length (buffer bs).
Proof.
  intros Hh Hb Hvs. revert bs bl Hh.
  induction Hvs as [|v vs Hv Hvs IH]; intros bs bl Hh Hcap; cbn [foldl map concat].
  - now rewrite app_nil_r.
  - cbn [length] in Hcap.
    destruct (writeBits_loop_holds (Z.to_nat b) bs bl v b Hh Hv) as [H1 H2]; [lia | lia | lia |].
    fold (writeBits bs v b) in H1, H2.
    destruct (IH (writeBits bs v b) (bl ++ bitsOf (Z.to_nat b) v) H1) as [H3 H4].
    { rewrite length_app, length_bitsOf, H2. lia. }
    rewrite app_assoc. split; [exact H3 | now rewrite H4].
Qed.

Lemma streamBit_zeros (n k : nat) : streamBit (zeros n) k = false.
Proof.
  unfold streamBit, zeros. destruct (replicate n x00 !! (k / 8)%nat) as [b|] eqn:E;
    [|reflexivity].
  apply lookup_replicate in E as [-> _]. apply Z.testbit_0_l.
Qed.

Lemma lookup_concat_rows {A B} (row : A -> list B) (w : nat) (l : list A)
    (k j : nat) (a : A) :
  (forall x, length (row x) = w) -> l !! k = Some a -> (j < w)%nat ->
  concat (map row l) !! (k * w + j)%nat = row a !! j.
Proof.
  intros Hw. revert k. induction l as [|x l IH]; intros k Hk Hj; [discriminate|].
  cbn [map concat]. destruct k as [|k].
  - injection Hk as ->. cbn [Nat.mul Nat.add]. apply lookup_app_l. now rewrite Hw.
  - cbn in Hk. rewrite lookup_app_r by (rewrite Hw; lia). rewrite Hw.
    replace (S k * w + j - w)%nat with (k * w + j)%nat by lia. now apply IH.
Qed.

Lemma mod_pow2_succ (v : Z) (m : nat) :
  v mod 2 ^ Z.of_nat (S m)
  = (if Z.testbit v (Z.of_nat m) then 2 ^ Z.of_nat m else 0) + v mod 2 ^ Z.of_nat m.
Proof.
  rewrite Nat2Z.inj_succ, Z.pow_succ_r by lia.
  assert (Hp : 0 < 2 ^ Z.of_nat m) by (apply Z.pow_pos_nonneg; lia).
  rewrite (Z.mul_comm 2), Z.rem_mul_r by lia.
  pose proof (Z.testbit_spec' v (Z.of_nat m) ltac:(lia)) as Hs.
  destruct (Z.testbit v (Z.of_nat m)); cbn [Z.b2z] in Hs; rewrite <- Hs; lia.
Qed.

(** Reading back the bits of a value gives the value. *)
Lemma readBits_spec (bytes : list byte) (pos m : nat) (v : Z) :
  (forall j, (j < m)%nat ->
     streamBit bytes (pos + j) = Z.testbit v (Z.of_nat (m - 1 - j))) ->
  readBits bytes pos m = v mod 2 ^ Z.of_nat m.
Proof.
  revert pos. induction m as [|m IH]; intros pos Hbits.
  - cbn [readBits]. now rewrite Z.mod_1_r.
  - cbn [readBits]. rewrite mod_pow2_succ.
    rewrite <- (Nat.add_0_r pos) at 1. rewrite (Hbits 0%nat) by lia.
    replace (S m - 1 - 0)%nat with m by lia.
    rewrite (IH (S pos)); [reflexivity|].
    intros j Hj. replace (S pos + j)%nat with (pos + S j)%nat by lia.
    rewrite Hbits by lia. do 2 f_equal. lia.
Qed.

End BitStream.

Section Bitmap.
Import CBinFont.

Lemma pixelValues_eq (options : Options) (g : Glyph) :
  1 <= bpp options <= 8 ->
  Forall (Forall (fun p => 0 <= p < 256)) (pixels g) ->
  pixelValues options g
  = map (fun p => Z.shiftr p (8 - bpp options)) (concat (pixels g)).
Proof.
  intros Hb Hpx. unfold pixelValues, pixelsToBpp.
  induction Hpx as [|line px Hline Hpx IH]; [reflexivity|].
  cbn [map concat]. rewrite map_app, IH. f_equal.
  clear IH Hpx. induction Hline as [|p line Hp Hline IH]; [reflexivity|].
  cbn [map]. rewrite IH. f_equal.
  unfold js_ushr. rewrite !Z.mod_small by lia. reflexivity.
Qed.

Lemma shiftr_pixel_range (b p : Z) :
  1 <= b <= 8 -> 0 <= p < 256 -> 0 <= Z.shiftr p (8 - b) < 2 ^ b.
Proof.
  intros Hb Hp. rewrite Z.shiftr_div_pow2 by lia.
  assert (H0 : 0 < 2 ^ (8 - b)) by (apply Z.pow_pos_nonneg; lia).
  split; [apply Z.div_pos; lia|].
  apply Z.div_lt_upper_bound; [exact H0|].
  rewrite <- Z.pow_add_r by lia. replace (8 - b + b) with 8 by lia. lia.
Qed.

(** X14. The bitmap of a glyph, for 1 to 8 bits per pixel and 8-bit
    pixels: each pixel is cut down to its top [bpp] bits, and the values are
    written one after the other, row by row, the most significant bit
    first, with no padding between pixels or rows; the bitmap has as many
    bytes as the bits need, the unused low bits of the last byte being 0.
    Reading [bpp] bits at bit [k * bpp] gives the value of pixel [k] back.
    The condition on the size is that the bits fit the working buffer of
    [100 + 4 * width * height] bytes, which a glyph with [width * height]
    pixels always meets. The compression options play no part. *)
Theorem cbin_bitmap_bits (options : Options) (g : Glyph) :
  let n := Z.to_nat (bpp options) in
  let count := length (concat (pixels g)) in
  1 <= bpp options <= 8 ->
  bbox_ok g ->
  Forall (Forall (fun p => 0 <= p < 256)) (pixels g) ->
  (n * count
   <= 8 * Z.to_nat (100 + bbox_width (bbox g) * bbox_height (bbox g) * 4))%nat ->
  exists bitmap, lv_bitmap options g = Ok bitmap
    /\ length bitmap = ((n * count + 7) / 8)%nat
    /\ (forall k p, concat (pixels g) !! k = Some p ->
          readBits bitmap (k * n) n = Z.shiftr p (8 - bpp options))
    /\ (forall k, (n * count <= k)%nat -> streamBit bitmap k = false).
Proof.
  intros n count Hb [Hw Hh] Hpx Hcap.
  set (N := Z.to_nat (100 + bbox_width (bbox g) * bbox_height (bbox g) * 4)) in *.
  pose proof (pixelValues_eq options g Hb Hpx) as Hvs.
  set (vs := map (fun p => Z.shiftr p (8 - bpp options)) (concat (pixels g))) in *.
  assert (Hlen : length vs = count) by (unfold vs; now rewrite length_map).
  assert (Hrange : Forall (fun v => 0 <= v < 2 ^ bpp options) vs).
  { unfold vs. apply Forall_fmap. clear -Hb Hpx.
    induction Hpx as [|line px Hline Hpx IH]; [constructor|].
    cbn [concat]. apply Forall_app. split; [|exact IH].
    eapply Forall_impl; [exact Hline|]. cbn beta. intros p Hp.
    now apply shiftr_pixel_range. }
  unfold lv_bitmap, newArrayBuffer.
  destruct (Z.ltb_spec (100 + bbox_width (bbox g) * bbox_height (bbox g) * 4) 0); [nia|].
  cbn [rbind]. fold N.
  assert (Hstore : storePixels options (newBitStream (zeros N)) (pixelsToBpp options (pixels g))
                   = foldl (fun bs' p => writeBits bs' p (bpp options))
                           (newBitStream (zeros N)) vs).
  { unfold storePixels, storePixelsCompressed, storePixelsRaw.
    destruct (getCompressionCode options =? 0); rewrite foldl_concat;
      fold (pixelValues options g); now rewrite Hvs. }
  rewrite Hstore.
  destruct (storeValues_holds (bpp options) vs (newBitStream (zeros N)) [])
    as [(Hpos & Hbi & _ & Hbits) Hbuf].
  { split; [reflexivity|]. split; [cbn; lia|]. split; [reflexivity|].
    intros k. cbn [newBitStream buffer]. rewrite streamBit_zeros. now destruct k. }
  { exact Hb. }
  { eapply Forall_impl; [exact Hrange|]. cbn beta. intros v Hv.
    assert (2 ^ bpp options <= 2 ^ 31) by (apply Z.pow_le_mono_r; lia). lia. }
  { cbn [newBitStream buffer length Nat.add]. rewrite length_zeros, Hlen. fold n. lia. }
  set (bs := foldl _ _ vs) in *.
  cbn [app] in Hpos, Hbits. cbn [newBitStream buffer] in Hbuf.
  rewrite length_zeros in Hbuf.
  rewrite length_concat_bits, Hlen in Hpos. fold n in Hpos, Hbits.
  set (used := getUsedBytes bs).
  assert (Hused : used = ((n * count + 7) / 8)%nat).
  { unfold used, getUsedBytes.
    destruct (Z.ltb_spec 0 (bitIndex bs)).
    - apply (Nat.div_unique _ 8 _ (Z.to_nat (bitIndex bs) - 1)); lia.
    - apply (Nat.div_unique _ 8 _ 7); lia. }
  assert (Hle : (used <= N)%nat).
  { unfold used, getUsedBytes. destruct (Z.ltb_spec 0 (bitIndex bs)); lia. }
  assert (Htake : length (take used (buffer bs)) = used) by (rewrite length_take; lia).
  rewrite u8array_set_fill0 by (rewrite Htake; lia).
  rewrite Htake, Nat.sub_diag. change (zeros 0) with (@nil byte). rewrite app_nil_r.
  eexists. split; [reflexivity|].
  assert (Hall : forall k, streamBit (take used (buffer bs)) k
                           = default false (concat (map (bitsOf n) vs) !! k)).
  { intros k. rewrite <- Hbits. unfold streamBit.
    destruct (decide (k / 8 < used)%nat) as [Hin|Hout].
    - now rewrite lookup_take_lt by exact Hin.
    - rewrite lookup_take_ge by lia.
      destruct (buffer bs !! (k / 8)%nat) as [b|] eqn:Eb; [|reflexivity].
      pose proof (Hbits k) as Hk. unfold streamBit in Hk. rewrite Eb in Hk. rewrite Hk.
      rewrite lookup_ge_None_2; [reflexivity|].
      rewrite length_concat_bits, Hlen.
      pose proof (Nat.div_mod_eq k 8). pose proof (Nat.div_mod_eq (n * count + 7) 8).
      pose proof (Nat.mod_upper_bound (n * count + 7) 8 ltac:(lia)). lia. }
  split; [now rewrite Htake|]. split.
  - intros k p Hk.
    assert (Hv : vs !! k = Some (Z.shiftr p (8 - bpp options))).
    { unfold vs. rewrite list_lookup_fmap, Hk. reflexivity. }
    rewrite (readBits_spec _ _ _ (Z.shiftr p (8 - bpp options))).
    + apply Z.mod_small. unfold n. rewrite Z2Nat.id by lia.
      rewrite Forall_forall in Hrange. apply Hrange.
      apply list_elem_of_lookup. now exists k.
    + intros j Hj. rewrite Hall.
      rewrite (lookup_concat_rows (bitsOf n) n vs k j _ (length_bitsOf n) Hv Hj).
      now rewrite lookup_bitsOf by exact Hj.
  - intros k Hk. rewrite Hall, lookup_ge_None_2; [reflexivity|].
    rewrite length_concat_bits, Hlen. exact Hk.
Qed.

End Bitmap.

Lemma cbin_bitmap_bits_witness :
  exists bitmap, CBinFont.lv_bitmap ex_options (ex_glyph 65) = Ok bitmap
    /\ length bitmap = 2%nat
    /\ readBits bitmap 0 4 = 15 /\ readBits bitmap 4 4 = 8
    /\ readBits bitmap 8 4 = 0 /\ readBits bitmap 12 4 = 4.
Proof.
  destruct (cbin_bitmap_bits ex_options (ex_glyph 65)) as (bitmap & Hb & Hl & Hr & _).
  - cbn. lia.
  - split; cbn; lia.
  - repeat constructor; lia.
  - cbn. lia.
  - exists bitmap. split; [exact Hb|]. split; [exact Hl|].
    repeat split.
    + exact (Hr 0%nat 255 eq_refl).
    + exact (Hr 1%nat 128 eq_refl).
    + exact (Hr 2%nat 0 eq_refl).
    + exact (Hr 3%nat 64 eq_refl).
Defined.

(** ** CBinFont: the head of the file and its sections *)

Lemma u8array_set_fill_gap (done src : list byte) (n off gap : nat) :
  off = (length done + gap)%nat -> (gap + length src <= n)%nat ->
  u8array_set (done ++ zeros n) src off
  = Ok ((done ++ zeros gap ++ src) ++ zeros (n - gap - length src)).
Proof.
  intros Hoff Hn. replace n with (gap + (n - gap))%nat at 1 by lia.
  rewrite zeros_add, app_assoc.
  rewrite u8array_set_fill by (rewrite ?length_app, ?length_zeros; lia).
  now rewrite <- !app_assoc.
Qed.

Section FontHead.
Import CBinFont.
Context `{CmapPlanner}.

(** [toCBin] returns the head, the bitmaps, the descriptors and the cmaps. *)
Lemma toCBin_layout (f : t) (bitmap_buf glyph_dsc_buf cmaps : list byte) :
  glyf_toCBin f = Ok (bitmap_buf, glyph_dsc_buf) ->
  cmap_toCBin f ptr_size = Ok cmaps ->
  toCBin f
  = Ok ((fontHead f (length bitmap_buf) (length glyph_dsc_buf)
         ++ le_bytes 2 (formatWord (Z.of_nat (getMapNumber f)) (bpp (opts f))
                                   (getCompressionCode (opts f)))
         ++ zeros 4)
        ++ bitmap_buf ++ glyph_dsc_buf ++ cmaps).
Proof.
  intros Hg Hc. unfold toCBin. rewrite Hg. cbn [rbind]. rewrite Hc. cbn [rbind].
  unfold writePTR, kern_toCBin, setInt32, setInt8, setUint32, setUint8, setUint16,
    kern_dsc_is_null, kern_scale, concatArrayBuffers.
  destruct (decide (ptr_size = 4%nat)) as [_|Hn]; [|exfalso; apply Hn; reflexivity].
  cbv delta [ptr_size]. cbn [length Nat.add Nat.mul].
  rewrite u8array_set_fill0 by (rewrite length_le_bytes; lia). cbn [rbind].
  do 7 (rewrite u8array_set_fill by (rewrite ?length_app, ?length_le_bytes; lia);
        cbn [rbind]).
  rewrite (u8array_set_fill_gap _ _ _ _ 1)
    by (rewrite ?length_app, ?length_le_bytes; lia).
  cbn [rbind].
  do 8 (rewrite u8array_set_fill by (rewrite ?length_app, ?length_zeros, ?length_le_bytes; lia);
        cbn [rbind]).
  f_equal. rewrite !length_le_bytes. cbn [concat app]. rewrite app_nil_r.
  unfold fontHead, formatWord. rewrite <- !app_assoc. reflexivity.
Qed.

(** X15. The head of a CBIN font is 60 bytes: the line height
    [ascent - descent] at byte 12, the base line [- descent] at byte 16, at
    byte 24 the offset 36 of the glyph description, and in it, relative to
    its own start, the offsets of the three sections. Followed from the
    head, they lead to the bitmaps, to the glyph descriptors and to the
    cmaps exactly as the tables produced them, in this order and with
    nothing in between; the kerning offset is 0, there is no kerning
    section. *)
Theorem cbin_head_offsets (f : t) (bitmap_buf glyph_dsc_buf cmaps : list byte) :
  glyf_toCBin f = Ok (bitmap_buf, glyph_dsc_buf) ->
  cmap_toCBin f ptr_size = Ok cmaps ->
  Z.of_nat (24 + length bitmap_buf + length glyph_dsc_buf) < 2 ^ 32 ->
  exists out, toCBin f = Ok out
    /\ length out
       = (60 + length bitmap_buf + length glyph_dsc_buf + length cmaps)%nat
    /\ slice 12 4 out = le_bytes 4 (ascent (src f) - descent (src f))
    /\ slice 16 4 out = le_bytes 4 (- descent (src f))
    /\ readU32 out 24 = 36%nat
    /\ slice (36 + readU32 out 36) (length bitmap_buf) out = bitmap_buf
    /\ slice (36 + readU32 out 40) (length glyph_dsc_buf) out = glyph_dsc_buf
    /\ drop (36 + readU32 out 44) out = cmaps
    /\ readU32 out 48 = 0%nat.
Proof.
  intros Hg Hc Hfit.
  eexists. split; [exact (toCBin_layout f _ _ _ Hg Hc)|].
  set (tail := le_bytes 2 _ ++ zeros 4).
  set (out := (fontHead f _ _ ++ tail) ++ bitmap_buf ++ glyph_dsc_buf ++ cmaps).
  assert (Hhead : length (fontHead f (length bitmap_buf) (length glyph_dsc_buf) ++ tail)
                  = 60%nat).
  { unfold fontHead, tail. rewrite !length_app, !length_le_bytes, !length_zeros. reflexivity. }
  assert (R36 : readU32 out 36 = 24%nat).
  { apply readU32_slice; [reflexivity | cbn; lia]. }
  assert (R40 : readU32 out 40 = (24 + length bitmap_buf)%nat).
  { apply readU32_slice; [reflexivity | lia]. }
  assert (R44 : readU32 out 44 = (24 + length bitmap_buf + length glyph_dsc_buf)%nat).
  { apply readU32_slice; [reflexivity | lia]. }
  rewrite R36, R40, R44.
  split; [|split; [|split; [|split; [|split; [|split; [|split]]]]]].
  - unfold out. rewrite length_app, Hhead, !length_app. lia.
  - reflexivity.
  - reflexivity.
  - apply readU32_slice; [reflexivity | cbn; lia].
  - apply (slice_at (fontHead f (length bitmap_buf) (length glyph_dsc_buf) ++ tail)
                    bitmap_buf (glyph_dsc_buf ++ cmaps)).
    + reflexivity.
    + now rewrite Hhead.
    + reflexivity.
  - apply (slice_at ((fontHead f (length bitmap_buf) (length glyph_dsc_buf) ++ tail)
                     ++ bitmap_buf) glyph_dsc_buf cmaps).
    + unfold out. now rewrite <- !app_assoc.
    + rewrite length_app, Hhead. lia.
    + reflexivity.
  - unfold out. rewrite !app_assoc. apply drop_app_length'.
    rewrite length_app in Hhead. rewrite !length_app. lia.
  - apply readU32_slice; [reflexivity | cbn; lia].
Qed.

Lemma formatWord_sum (cmap_num bpp code : Z) :
  0 <= cmap_num < 512 -> 0 <= bpp < 16 -> 0 <= code < 4 ->
  formatWord cmap_num bpp code = cmap_num + 512 * bpp + 16384 * code.
Proof.
  intros Hn Hb Hc. unfold formatWord, kern_classes.
  rewrite (js_shl_small bpp 9) by lia.
  rewrite (js_shl_small code (9 + 4 + 1)) by lia.
  change (js_shl 0 (9 + 4)) with 0.
  rewrite (js_or_small cmap_num) by (rewrite ?Z.shiftl_mul_pow2 by lia; lia).
  rewrite Z.lor_comm, lor_shiftl_small by lia.
  rewrite (js_or_small _ 0) by lia. rewrite Z.lor_0_r.
  rewrite js_or_small by (rewrite ?Z.shiftl_mul_pow2 by lia; lia).
  rewrite Z.lor_comm, lor_shiftl_small by lia. lia.
Qed.

(** X16. The last half-word of the head packs the number of cmap
    subtables (bits 0 to 8), the bits per pixel (bits 9 to 12) and the
    bitmap format (bits 14 and 15). The format is 0, for plain bitmaps,
    only when compression is switched off or the font has one bit per
    pixel; otherwise the head announces format 1 or 2, while the bitmap
    bytes are the same whatever the compression options: they depend on the
    bits per pixel alone. *)
Theorem cbin_format_word (f : t) (bitmap_buf glyph_dsc_buf cmaps : list byte) :
  glyf_toCBin f = Ok (bitmap_buf, glyph_dsc_buf) ->
  cmap_toCBin f ptr_size = Ok cmaps ->
  (getMapNumber f < 512)%nat -> 1 <= bpp (opts f) <= 8 ->
  let code := getCompressionCode (opts f) in
  exists out, toCBin f = Ok out
    /\ le_value (slice 54 2 out)
       = Z.of_nat (getMapNumber f) + 512 * bpp (opts f) + 16384 * code
    /\ (code = 0 <-> no_compress (opts f) = true \/ bpp (opts f) = 1)
    /\ (code = 0 \/ code = 1 \/ code = 2)
    /\ forall options g,
         bpp options = bpp (opts f) -> lv_bitmap options g = lv_bitmap (opts f) g.
Proof.
  intros Hg Hc Hn Hb code.
  assert (Hcode : (code = 0 <-> no_compress (opts f) = true \/ bpp (opts f) = 1)
                  /\ (code = 0 \/ code = 1 \/ code = 2)).
  { unfold code, getCompressionCode.
    destruct (no_compress (opts f)); [split; [split|]; auto|].
    destruct (Z.eqb_spec (bpp (opts f)) 1); [split; [split|]; auto|].
    destruct (no_prefilter (opts f)); (split; [split|]; [discriminate | | auto]);
      intros [?|?]; congruence. }
  destruct Hcode as [Hiff Hcases].
  eexists. split; [exact (toCBin_layout f _ _ _ Hg Hc)|].
  split; [|split; [exact Hiff | split; [exact Hcases|]]].
  - fold code. rewrite formatWord_sum by lia.
    set (w := Z.of_nat (getMapNumber f) + 512 * bpp (opts f) + 16384 * code).
    rewrite (slice_at (fontHead f (length bitmap_buf) (length glyph_dsc_buf))
                      (le_bytes 2 w) (zeros 4 ++ bitmap_buf ++ glyph_dsc_buf ++ cmaps)).
    + rewrite le_value_le_bytes. apply Z.mod_small. change (256 ^ Z.of_nat 2) with 65536.
      unfold w. lia.
    + now rewrite <- !app_assoc.
    + unfold fontHead. rewrite !length_app, !length_le_bytes, !length_zeros. reflexivity.
    + now rewrite length_le_bytes.
  - intros options g Hsame. unfold lv_bitmap, pixelsToBpp, storePixels,
      storePixelsCompressed, storePixelsRaw. rewrite Hsame.
    destruct (getCompressionCode options =? 0), (getCompressionCode (opts f) =? 0);
      reflexivity.
Qed.

End FontHead.

Lemma cbin_head_offsets_witness :
  exists out, @CBinFont.toCBin oneFormat0 (ex_font [65; 66; 67]) = Ok out
    /\ length out = 172%nat
    /\ readU32 out 24 = 36%nat
    /\ drop (36 + readU32 out 44) out
       = le_bytes 4 65 ++ le_bytes 2 3 ++ le_bytes 2 1 ++ le_bytes 4 0 ++ le_bytes 4 20
           ++ le_bytes 2 3 ++ [u8 0; u8 0] ++ [u8 0; u8 1; u8 2; u8 0].
Proof.
  edestruct (@cbin_head_offsets oneFormat0 (ex_font [65; 66; 67]))
    as (out & Ho & Hl & _ & _ & H24 & _ & _ & Hc & _).
  - vm_compute. reflexivity.
  - vm_compute. reflexivity.
  - vm_compute. reflexivity.
  - exists out. split; [exact Ho|]. split; [exact Hl|]. split; [exact H24 | exact Hc].
Defined.

Lemma cbin_format_word_witness :
  exists out, @CBinFont.toCBin oneFormat0 (ex_font [65; 66; 67]) = Ok out
    /\ le_value (slice 54 2 out) = 1 + 512 * 4 + 16384 * 0.
Proof.
  edestruct (@cbin_format_word oneFormat0 (ex_font [65; 66; 67]))
    as (out & Ho & Hw & _).
  - vm_compute. reflexivity.
  - vm_compute. reflexivity.
  - vm_compute. lia.
  - cbn. lia.
  - exists out. split; [exact Ho | exact Hw].
Defined.

(** ** CBinFont: the cmap section *)

Section Cmap.
Import CBinFont.

Lemma length_cmapRecord (s : Subtable) (off : nat) : length (cmapRecord s off) = 20%nat.
Proof.
  unfold cmapRecord. rewrite !length_app, !length_le_bytes, length_zeros. reflexivity.
Qed.

Lemma length_cmapRecords (ss : list Subtable) (off : nat) :
  length (cmapRecords ss off) = (20 * length ss)%nat.
Proof.
  revert off. induction ss as [|s ss IH]; intros off; cbn [cmapRecords length]; [lia|].
  rewrite length_app, length_cmapRecord, IH. lia.
Qed.

Lemma writeSubtable_fill (f : t) (entry : string * list Z) (s : Subtable)
    (done : list byte) (n off i : nat) (arrs : list (list byte)) :
  planSubtable f entry = Ok s -> length done = (i * 20)%nat ->
  writeSubtable f {| cmaps_buf := done ++ zeros (20 + n); arr_list := arrs;
                     total_data_offset := off; idx := i |} entry
  = Ok {| cmaps_buf := (done ++ cmapRecord s off) ++ zeros n;
          arr_list := arrs ++ [st_unicode s; st_glyph s];
          total_data_offset := (off + length (subtableData s))%nat;
          idx := S i |}.
Proof.
  intros Hplan Hdone. destruct entry as [format codepoints].
  unfold planSubtable in Hplan. unfold writeSubtable.
  destruct codepoints as [|min_code rest]; [discriminate|].
  destruct (glyphByCode f min_code) as [g|]; [|discriminate].
  destruct (subtablePayload f format (min_code :: rest) min_code _ _)
    as [[[[[u gp] cnt] hc] hi]|e]; [|discriminate].
  cbn [rbind] in Hplan |- *. injection Hplan as <-.
  cbn [cmaps_buf arr_list total_data_offset idx st_unicode st_glyph].
  unfold writePTR, setUint32, setUint16, setUint8, cmap_size.
  destruct (decide (ptr_size = 4%nat)) as [_|Hn]; [|exfalso; apply Hn; reflexivity].
  cbv delta [ptr_size].
  do 7 (rewrite u8array_set_fill by (rewrite ?length_app, ?length_le_bytes; lia);
        cbn [rbind]).
  rewrite !length_le_bytes. unfold subtableData, cmapRecord.
  cbn [st_min st_range st_start st_unicode st_glyph st_count st_has_codes st_has_ids st_type].
  replace (20 + n - 4 - 2 - 2 - 4 - 4 - 2 - 1)%nat with (1 + n)%nat by lia.
  rewrite zeros_add. rewrite length_app. f_equal. f_equal; [|lia].
  now rewrite <- !app_assoc.
Qed.

Lemma writeSubtable_error (f : t) (entry : string * list Z) (e : error) (st : CmapState) :
  planSubtable f entry = Err e -> writeSubtable f st entry = Err e.
Proof.
  destruct entry as [format codepoints]. unfold planSubtable, writeSubtable.
  destruct codepoints as [|min_code rest]; [now intros [= <-]|].
  destruct (glyphByCode f min_code) as [g|]; [|now intros [= <-]].
  destruct (subtablePayload f format (min_code :: rest) min_code _ _)
    as [[[[[u gp] cnt] hc] hi]|e']; [discriminate|].
  cbn [rbind]. now intros [= <-].
Qed.

Lemma subtable_loop (f : t) (plan : list (string * list Z)) (done : list byte)
    (n off i : nat) (arrs : list (list byte)) :
  length done = (i * 20)%nat ->
  for_each (writeSubtable f) plan
    {| cmaps_buf := done ++ zeros (20 * length plan + n); arr_list := arrs;
       total_data_offset := off; idx := i |}
  = (ss <-- planSubtables f plan ;;
     Ok {| cmaps_buf := (done ++ cmapRecords ss off) ++ zeros n;
           arr_list := arrs ++ concat (map (fun s => [st_unicode s; st_glyph s]) ss);
           total_data_offset := (off + length (concat (map subtableData ss)))%nat;
           idx := (i + length ss)%nat |}).
Proof.
  revert done off i arrs. induction plan as [|entry plan IH]; intros done off i arrs Hdone.
  - cbn. rewrite !app_nil_r, !Nat.add_0_r. reflexivity.
  - cbn [for_each planSubtables length].
    destruct (planSubtable f entry) as [s|e] eqn:Es.
    + replace (20 * S (length plan) + n)%nat with (20 + (20 * length plan + n))%nat by lia.
      rewrite (writeSubtable_fill f entry s) by assumption. cbn [rbind].
      rewrite IH by (rewrite length_app, length_cmapRecord; lia).
      destruct (planSubtables f plan) as [ss|e]; cbn [rbind]; [|reflexivity].
      cbn [cmapRecords map concat length]. f_equal. f_equal.
      * now rewrite <- !app_assoc.
      * now rewrite <- !app_assoc.
      * rewrite length_app. lia.
      * lia.
    + cbn [rbind]. now rewrite (writeSubtable_error f entry e).
Qed.

Lemma concat_pairs (ss : list Subtable) :
  concat (concat (map (fun s => [st_unicode s; st_glyph s]) ss))
  = concat (map subtableData ss).
Proof.
  induction ss as [|s ss IH]; [reflexivity|].
  cbn [map concat]. rewrite concat_app, IH. cbn [concat]. unfold subtableData.
  now rewrite app_nil_r, <- app_assoc.
Qed.

Context `{CmapPlanner}.

(** [CmapTable.toCBin] returns the records and then the data arrays, or
    the first error of the plan. *)
Lemma cmap_toCBin_layout (f : t) (g0 : Glyph) (gs : list Glyph) :
  glyphs (src f) = Some (g0 :: gs) ->
  cmap_toCBin f ptr_size
  = (ss <-- planSubtables f (subtables_plan f) ;;
     Ok (cmapRecords ss (20 * length (subtables_plan f))
         ++ concat (map subtableData ss))).
Proof.
  intros Hgs. unfold cmap_toCBin. rewrite Hgs.
  change (cmap_size ptr_size) with 20%nat. rewrite length_zeros.
  pose proof (subtable_loop f (subtables_plan f) [] 0
                (length (subtables_plan f) * 20) 0 [] eq_refl) as Hloop.
  cbn [app] in Hloop.
  replace (20 * length (subtables_plan f) + 0)%nat
    with (length (subtables_plan f) * 20)%nat in Hloop by lia.
  rewrite Hloop.
  destruct (planSubtables f (subtables_plan f)) as [ss|e]; cbn [rbind]; [|reflexivity].
  cbn [cmaps_buf arr_list]. unfold concatArrayBuffers. cbn [concat].
  change (zeros 0) with (@nil byte). rewrite app_nil_r, concat_pairs.
  do 3 f_equal. lia.
Qed.

Lemma planSubtables_Forall2 (f : t) (plan : list (string * list Z)) (ss : list Subtable) :
  planSubtables f plan = Ok ss ->
  Forall2 (fun entry s => planSubtable f entry = Ok s) plan ss.
Proof.
  revert ss. induction plan as [|entry plan IH]; intros ss; cbn [planSubtables].
  - intros [= <-]. constructor.
  - destruct (planSubtable f entry) as [s|e] eqn:Es; [|discriminate]. cbn [rbind].
    destruct (planSubtables f plan) as [ss'|e]; [|discriminate]. cbn [rbind].
    intros [= <-]. constructor; [exact Es | now apply IH].
Qed.

Lemma cmapRecords_lookup (ss : list Subtable) (off i : nat) (s : Subtable) (rest : list byte) :
  ss !! i = Some s ->
  slice (20 * i) 20 (cmapRecords ss off ++ rest)
  = cmapRecord s (off + length (concat (map subtableData (take i ss)))).
Proof.
  revert off i. induction ss as [|s0 ss IH]; intros off i Hi; [discriminate|].
  destruct i as [|i].
  - injection Hi as ->. rewrite take_0. cbn [map concat length cmapRecords].
    rewrite Nat.add_0_r, <- app_assoc. apply slice_0. now rewrite length_cmapRecord.
  - cbn in Hi. cbn [cmapRecords take map concat]. rewrite <- app_assoc.
    unfold slice. rewrite drop_app_ge by (rewrite length_cmapRecord; lia).
    rewrite length_cmapRecord.
    replace (20 * S i - 20)%nat with (20 * i)%nat by lia.
    fold (slice (20 * i) 20 (cmapRecords ss (off + length (subtableData s0)) ++ rest)).
    rewrite (IH _ i Hi). f_equal. rewrite length_app. lia.
Qed.

Lemma subtableData_lookup (ss : list Subtable) (i : nat) (s : Subtable) :
  ss !! i = Some s ->
  concat (map subtableData ss)
  = concat (map subtableData (take i ss)) ++ st_unicode s ++ st_glyph s
      ++ concat (map subtableData (drop (S i) ss)).
Proof.
  intros Hi. rewrite <- (take_drop_middle ss i s Hi) at 1.
  rewrite map_app, concat_app. cbn [map concat]. unfold subtableData at 2.
  now rewrite <- !app_assoc.
Qed.

(** X17. The cmap section of a font with glyphs: one 20-byte record per
    subtable of the plan, in plan order, and after all the records the data
    arrays. A record holds the first code point, the length of the code
    range, the glyph id of the first code point, the number of entries and
    the format number; its two pointers, counted from the start of the
    section, lead to the code point list and to the glyph id list of the
    subtable, exactly as they were collected, and a list that the format
    does not have has pointer 0. *)
Theorem cbin_cmap_records (f : t) (g0 : Glyph) (gs : list Glyph) (out : list byte) :
  glyphs (src f) = Some (g0 :: gs) ->
  cmap_toCBin f ptr_size = Ok out ->
  Z.of_nat (length out) < 2 ^ 32 ->
  exists ss,
    Forall2 (fun entry s => planSubtable f entry = Ok s) (subtables_plan f) ss
    /\ length out = (20 * length ss + length (concat (map subtableData ss)))%nat
    /\ forall i s, ss !! i = Some s ->
         let record := slice (20 * i) 20 out in
         slice 0 4 record = le_bytes 4 (st_min s)
         /\ slice 4 2 record = le_bytes 2 (st_range s)
         /\ slice 6 2 record = le_bytes 2 (st_start s)
         /\ slice 16 2 record = le_bytes 2 (Z.of_nat (st_count s))
         /\ slice 18 2 record = [u8 (st_type s); x00]
         /\ (if st_has_codes s
             then slice (readU32 record 8) (length (st_unicode s)) out = st_unicode s
             else readU32 record 8 = 0%nat)
         /\ (if st_has_ids s
             then slice (readU32 record 12) (length (st_glyph s)) out = st_glyph s
             else readU32 record 12 = 0%nat).
Proof.
  intros Hgs Hout Hfit. rewrite (cmap_toCBin_layout f g0 gs Hgs) in Hout.
  destruct (planSubtables f (subtables_plan f)) as [ss|e] eqn:Ep; [|discriminate].
  cbn [rbind] in Hout. injection Hout as <-.
  pose proof (planSubtables_Forall2 f _ ss Ep) as Hall.
  pose proof (Forall2_length _ _ _ Hall) as Hlen.
  exists ss. split; [exact Hall|]. rewrite Hlen in *.
  rewrite length_app, length_cmapRecords in Hfit |- *.
  split; [reflexivity|].
  intros i s Hi. cbv zeta. rewrite (cmapRecords_lookup ss _ i s _ Hi).
  set (off := (20 * length ss + length (concat (map subtableData (take i ss))))%nat).
  pose proof (subtableData_lookup ss i s Hi) as Hdata.
  assert (Hbound : (off + length (st_unicode s) + length (st_glyph s)
                    <= 20 * length ss + length (concat (map subtableData ss)))%nat).
  { rewrite Hdata, !length_app. unfold off. lia. }
  split; [reflexivity|]. split; [reflexivity|]. split; [reflexivity|].
  split; [reflexivity|]. split; [reflexivity|].
  split.
  - destruct (st_has_codes s) eqn:Ec.
    + rewrite (readU32_slice _ 8 off); [| unfold cmapRecord; rewrite Ec; reflexivity | lia].
      apply (slice_at (cmapRecords ss (20 * length ss)
                       ++ concat (map subtableData (take i ss)))
                      (st_unicode s)
                      (st_glyph s ++ concat (map subtableData (drop (S i) ss)))).
      * rewrite Hdata. now rewrite <- !app_assoc.
      * rewrite length_app, length_cmapRecords. reflexivity.
      * reflexivity.
    + apply readU32_slice; [unfold cmapRecord; rewrite Ec; reflexivity | cbn; lia].
  - destruct (st_has_ids s) eqn:Ec.
    + rewrite (readU32_slice _ 12 (off + length (st_unicode s)));
        [| unfold cmapRecord; rewrite Ec; reflexivity | lia].
      apply (slice_at (cmapRecords ss (20 * length ss)
                       ++ concat (map subtableData (take i ss)) ++ st_unicode s)
                      (st_glyph s)
                      (concat (map subtableData (drop (S i) ss)))).
      * rewrite Hdata. now rewrite <- !app_assoc.
      * rewrite !length_app, length_cmapRecords. unfold off. lia.
      * reflexivity.
    + apply readU32_slice; [unfold cmapRecord; rewrite Ec; reflexivity | cbn; lia].
Qed.

End Cmap.

Lemma cbin_cmap_records_witness :
  exists ss,
    Forall2 (fun entry s => planSubtable (ex_font [65; 66; 67]) entry = Ok s)
            (@CBinFont.subtables_plan oneFormat0 (ex_font [65; 66; 67])) ss
    /\ length ss = 1%nat.
Proof.
  edestruct (@cbin_cmap_records oneFormat0 (ex_font [65; 66; 67])) as (ss & Hall & _).
  - reflexivity.
  - vm_compute. reflexivity.
  - vm_compute. reflexivity.
  - exists ss. split; [exact Hall|].
    apply Forall2_length in Hall. rewrite <- Hall. reflexivity.
Defined.

(** ** CBinFont: a font without glyphs, a plan that does not fit, alignment *)

Section CmapEdges.
Import CBinFont.
Context `{CmapPlanner}.

Lemma planSubtables_stops (f : t) (pre post : list (string * list Z))
    (entry : string * list Z) (ss : list Subtable) (e : error) :
  planSubtables f pre = Ok ss -> planSubtable f entry = Err e ->
  planSubtables f (pre ++ entry :: post) = Err e.
Proof.
  revert ss. induction pre as [|x pre IH]; intros ss Hpre He; cbn [app planSubtables].
  - now rewrite He.
  - cbn [planSubtables] in Hpre. destruct (planSubtable f x) as [s|e']; [|discriminate].
    cbn [rbind] in Hpre |- *.
    destruct (planSubtables f pre) as [ss'|e'] eqn:Ep; [|discriminate].
    now rewrite (IH ss' eq_refl He).
Qed.

(** X18. A font without glyphs has an empty cmap section and no subtable,
    whatever the planner would say. With glyphs, the number of subtables is
    the length of the plan, and the section is written only if the plan
    fits the font: a subtable without code points, or one whose first code
    point is not the code of any glyph, makes [toCBin] throw a TypeError as
    soon as the subtables before it have been written. *)
Theorem cbin_cmap_edges (f : t) :
  (glyphs (src f) = None \/ glyphs (src f) = Some [] ->
   cmap_toCBin f ptr_size = Ok [] /\ getMapNumber f = 0%nat)
  /\ (forall g0 gs, glyphs (src f) = Some (g0 :: gs) ->
      getMapNumber f = length (subtables_plan f)
      /\ forall pre format cps post ss,
           subtables_plan f = pre ++ (format, cps) :: post ->
           planSubtables f pre = Ok ss ->
           cps = [] \/ (exists c rest, cps = c :: rest
                                       /\ c ∉ map code (g0 :: gs)) ->
           cmap_toCBin f ptr_size = Err TypeError
           /\ forall bitmaps, glyf_toCBin f = Ok bitmaps -> toCBin f = Err TypeError).
Proof.
  split.
  - intros [Hg|Hg]; unfold cmap_toCBin, getMapNumber; rewrite Hg; split; reflexivity.
  - intros g0 gs Hgs. split; [unfold getMapNumber; now rewrite Hgs|].
    intros pre format cps post ss Hplan Hpre Hbad.
    assert (Hentry : planSubtable f (format, cps) = Err TypeError).
    { unfold planSubtable. destruct Hbad as [->|(c & rest & -> & Hc)]; [reflexivity|].
      assert (Hnone : glyphByCode f c = None).
      { unfold glyphByCode. rewrite Hgs.
        destruct (find _ (g0 :: gs)) as [g|] eqn:Ef; [|reflexivity].
        exfalso. apply Hc.
        apply find_some in Ef as [Hin Heq]. apply bool_decide_eq_true in Heq. subst c.
        apply list_elem_of_fmap. exists g. split; [reflexivity|].
        now apply list_elem_of_In. }
      now rewrite Hnone. }
    assert (Hcmap : cmap_toCBin f ptr_size = Err TypeError).
    { rewrite (cmap_toCBin_layout f g0 gs Hgs), Hplan.
      now rewrite (planSubtables_stops f pre post _ ss TypeError Hpre Hentry). }
    split; [exact Hcmap|].
    intros [b d] Hglyf. unfold toCBin. rewrite Hglyf. cbn [rbind].
    now rewrite Hcmap.
Qed.

Lemma length_balign4 (buf : list byte) : (length (balign4 buf) mod 4 = 0)%nat.
Proof.
  unfold balign4, concatArrayBuffers.
  destruct (decide (length buf mod 4 = 0)%nat) as [Hz|Hnz]; [exact Hz|].
  cbn [concat]. rewrite app_nil_r, length_app, length_zeros.
  pose proof (Nat.div_mod_eq (length buf) 4) as Hd.
  pose proof (Nat.mod_upper_bound (length buf) 4 ltac:(lia)) as Hr.
  replace (length buf + (4 - length buf mod 4))%nat
    with ((length buf / 4 + 1) * 4)%nat by lia.
  apply Nat.Div0.mod_mul.
Qed.

Lemma u8array_set_length (target src : list byte) (off : nat) (r : list byte) :
  u8array_set target src off = Ok r -> length r = length target.
Proof.
  unfold u8array_set. destruct (decide _) as [Hfit|]; [|discriminate].
  intros [= <-]. rewrite !length_app, length_take, length_drop. lia.
Qed.

Lemma writeGlyphDsc_length (st st' : list byte * nat) (d : LvData) :
  writeGlyphDsc st d = Ok st' -> length (fst st') = length (fst st).
Proof.
  destruct st as [view i]. unfold writeGlyphDsc, setUint32, setInt16, setUint16.
  destruct (u8array_set view _ _) as [v1|] eqn:E1; [|discriminate]. cbn [rbind].
  destruct (u8array_set v1 _ _) as [v2|] eqn:E2; [|discriminate]. cbn [rbind].
  destruct (u8array_set v2 _ _) as [v3|] eqn:E3; [|discriminate]. cbn [rbind].
  destruct (u8array_set v3 _ _) as [v4|] eqn:E4; [|discriminate]. cbn [rbind].
  destruct (u8array_set v4 _ _) as [v5|] eqn:E5; [|discriminate]. cbn [rbind].
  destruct (u8array_set v5 _ _) as [v6|] eqn:E6; [|discriminate]. cbn [rbind].
  intros [= <-]. cbn [fst].
  apply u8array_set_length in E1, E2, E3, E4, E5, E6. congruence.
Qed.

Lemma glyphDsc_loop_length (ds : list LvData) (st st' : list byte * nat) :
  for_each writeGlyphDsc ds st = Ok st' -> length (fst st') = length (fst st).
Proof.
  revert st. induction ds as [|d ds IH]; intros st; cbn [for_each].
  - now intros [= <-].
  - destruct (writeGlyphDsc st d) as [st1|] eqn:E1; [|discriminate]. cbn [rbind].
    intros Hrest. rewrite (IH st1 Hrest). now apply writeGlyphDsc_length in E1.
Qed.

Lemma subtablePayload_aligned (f : t) (format : string) (cps : list Z) (a b : Z)
    (start : option Z) (u gp : list byte) (cnt : nat) (hc hi : bool) :
  subtablePayload f format cps a b start = Ok (u, gp, cnt, hc, hi) ->
  (length u mod 4 = 0)%nat /\ (length gp mod 4 = 0)%nat.
Proof.
  unfold subtablePayload, align4.
  destruct (String.eqb format "format0_tiny"); [intros [= <- <- _ _ _]; split; reflexivity|].
  destruct (String.eqb format "format0");
    [intros [= <- <- _ _ _]; split; [reflexivity | apply length_balign4]|].
  destruct (String.eqb format "sparse_tiny");
    destruct (collect_sparse_data f cps start) as [d|]; try discriminate; cbn [rbind];
    intros [= <- <- _ _ _]; split; try reflexivity; apply length_balign4.
Qed.

Lemma planSubtables_aligned (f : t) (plan : list (string * list Z)) (ss : list Subtable) :
  planSubtables f plan = Ok ss -> (length (concat (map subtableData ss)) mod 4 = 0)%nat.
Proof.
  intros Hp. apply planSubtables_Forall2 in Hp.
  induction Hp as [|entry s plan ss Hs Hp IH]; [reflexivity|].
  cbn [map concat]. rewrite length_app.
  assert (Hd : (length (subtableData s) mod 4 = 0)%nat).
  { destruct entry as [format cps]. unfold planSubtable in Hs.
    destruct cps as [|c rest]; [discriminate|].
    destruct (glyphByCode f c); [|discriminate].
    destruct (subtablePayload f format (c :: rest) c _ _)
      as [[[[[u gp] cnt] hc] hi]|] eqn:Ep; [|discriminate].
    cbn [rbind] in Hs. injection Hs as <-. unfold subtableData. cbn [st_unicode st_glyph].
    destruct (subtablePayload_aligned _ _ _ _ _ _ _ _ _ _ _ Ep) as [Hu Hg].
    rewrite length_app. rewrite Nat.Div0.add_mod, Hu, Hg. reflexivity. }
  rewrite Nat.Div0.add_mod, Hd, IH. reflexivity.
Qed.

(** X19. Every section of a CBIN font starts on a 4-byte boundary: the
    head is 60 bytes, the bitmap section is padded to a multiple of 4, the
    descriptor section is a multiple of 16 bytes long, and the cmap section,
    whose records are 20 bytes each and whose data arrays are each padded
    to a multiple of 4, is a multiple of 4 bytes long; so is the file. *)
Theorem cbin_alignment (f : t) (bitmap_buf glyph_dsc_buf cmaps : list byte) :
  glyf_toCBin f = Ok (bitmap_buf, glyph_dsc_buf) ->
  cmap_toCBin f ptr_size = Ok cmaps ->
  exists out, toCBin f = Ok out
    /\ (length bitmap_buf mod 4 = 0)%nat
    /\ (length glyph_dsc_buf mod 16 = 0)%nat
    /\ (length cmaps mod 4 = 0)%nat
    /\ (length out mod 4 = 0)%nat
    /\ length out = (60 + length bitmap_buf + length glyph_dsc_buf + length cmaps)%nat.
Proof.
  intros Hg Hc.
  assert (Hb : (length bitmap_buf mod 4 = 0)%nat).
  { unfold glyf_toCBin in Hg. destruct (lv_compile f) as [lv|]; [|discriminate].
    cbn [rbind] in Hg. destruct (for_each writeGlyphDsc _ _) as [st|]; [|discriminate].
    cbn [rbind] in Hg. injection Hg as <- _. apply length_balign4. }
  assert (Hd : (length glyph_dsc_buf mod 16 = 0)%nat).
  { unfold glyf_toCBin in Hg. destruct (lv_compile f) as [lv|]; [|discriminate].
    cbn [rbind] in Hg.
    destruct (for_each writeGlyphDsc _ _) as [st|] eqn:Est; [|discriminate].
    cbn [rbind] in Hg. injection Hg as _ <-.
    rewrite (glyphDsc_loop_length _ _ _ Est). cbn [fst]. rewrite length_zeros.
    replace (length lv * 16 + 16)%nat with ((length lv + 1) * 16)%nat by lia.
    apply Nat.Div0.mod_mul. }
  assert (Hm : (length cmaps mod 4 = 0)%nat).
  { destruct (glyphs (src f)) as [[|g0 gs]|] eqn:Hgs.
    - unfold cmap_toCBin in Hc. rewrite Hgs in Hc. now injection Hc as <-.
    - rewrite (cmap_toCBin_layout f g0 gs Hgs) in Hc.
      destruct (planSubtables f (subtables_plan f)) as [ss|] eqn:Ep; [|discriminate].
      cbn [rbind] in Hc. injection Hc as <-.
      rewrite length_app, length_cmapRecords.
      rewrite Nat.Div0.add_mod, (planSubtables_aligned f _ ss Ep).
      replace (20 * length ss)%nat with (5 * length ss * 4)%nat by lia.
      rewrite Nat.Div0.mod_mul. reflexivity.
    - unfold cmap_toCBin in Hc. rewrite Hgs in Hc. now injection Hc as <-. }
  eexists. split; [exact (toCBin_layout f _ _ _ Hg Hc)|].
  assert (Hlen : forall (a : Z) (b c : list byte),
            length ((fontHead f (length bitmap_buf) (length glyph_dsc_buf)
                     ++ le_bytes 2 a ++ zeros 4) ++ b ++ c ++ cmaps)
            = (60 + length b + length c + length cmaps)%nat).
  { intros a b c. unfold fontHead.
    rewrite !length_app, !length_le_bytes, !length_zeros. lia. }
  rewrite Hlen.
  repeat split; try assumption.
  pose proof (Nat.div_mod_eq (length bitmap_buf) 4).
  pose proof (Nat.div_mod_eq (length glyph_dsc_buf) 16).
  pose proof (Nat.div_mod_eq (length cmaps) 4).
  replace (60 + length bitmap_buf + length glyph_dsc_buf + length cmaps)%nat
    with ((15 + length bitmap_buf / 4 + 4 * (length glyph_dsc_buf / 16)
           + length cmaps / 4) * 4)%nat by lia.
  apply Nat.Div0.mod_mul.
Qed.

End CmapEdges.

Lemma cbin_alignment_witness :
  exists out, @CBinFont.toCBin oneFormat0 (ex_font [65; 66; 67]) = Ok out
    /\ (length out mod 4 = 0)%nat /\ length out = 172%nat.
Proof.
  edestruct (@cbin_alignment oneFormat0 (ex_font [65; 66; 67]))
    as (out & Ho & _ & _ & _ & Ha & Hl).
  - vm_compute. reflexivity.
  - vm_compute. reflexivity.
  - exists out. split; [exact Ho|]. split; [exact Ha | exact Hl].
Defined.

(** ** AssetsBuilder: the package plan *)

Section AssetsPlan.
Import AssetsBuilder.
Context `{Host}.

Lemma Ok_eq {A : Type} (a b : A) : Ok a = Ok b -> a = b.
Proof. now intros [= ->]. Qed.

Lemma wakeword_name_truthy (config : option Config) (info : WakewordInfo) :
  getWakewordModelInfo config = Some info ->
  ww_name info <> [] /\ ww_filename info = js "srmodels.bin".
Proof.
  unfold getWakewordModelInfo. destruct config as [c|]; [|discriminate].
  destruct (cfg_chip c); [|discriminate]. destruct (cfg_theme c) as [t|]; [|discriminate].
  destruct (theme_wakeword t) as [[|x r]|]; try discriminate.
  intros [= <-]. split; [discriminate|reflexivity].
Qed.

Lemma addEmojiFile_step (seen : gset jsstring) (fs : list Resource) (e : EmojiItem) :
  addEmojiFile (seen, fs) e =
  match truthyHash e with
  | Some h =>
    if bool_decide (h ∈ seen) then (seen, fs)
    else ({[ h ]} ∪ seen, fs ++ [EmojiResource e])
  | None => (seen, fs ++ [EmojiResource e])
  end.
Proof. unfold addEmojiFile, truthyHash. destruct (item_fileHash e) as [[|]|]; reflexivity. Qed.

Lemma foldl_addEmojiFile (coll : list EmojiItem) (seen : gset jsstring) (fs : list Resource) :
  (foldl addEmojiFile (seen, fs) coll).2 = fs ++ map EmojiResource (uniqueEmojis seen coll).
Proof.
  revert seen fs. induction coll as [|e coll IH]; intros seen fs; cbn [foldl uniqueEmojis].
  - cbn. now rewrite app_nil_r.
  - rewrite addEmojiFile_step. destruct (truthyHash e) as [h|].
    + case_bool_decide.
      * apply IH.
      * rewrite IH. cbn [map]. now rewrite <- app_assoc.
    + rewrite IH. cbn [map]. now rewrite <- app_assoc.
Qed.

Lemma uniqueEmojis_sub (coll : list EmojiItem) (seen : gset jsstring) (e : EmojiItem) :
  e ∈ uniqueEmojis seen coll -> e ∈ coll.
Proof.
  revert seen. induction coll as [|e0 coll IH]; intros seen; cbn [uniqueEmojis]; [easy|].
  destruct (truthyHash e0) as [h|].
  - case_bool_decide.
    + intros He. right. eapply IH, He.
    + intros [->|He]%elem_of_cons; [left|right; eapply IH, He].
  - intros [->|He]%elem_of_cons; [left|right; eapply IH, He].
Qed.

Lemma uniqueEmojis_keeps (coll : list EmojiItem) (seen : gset jsstring) (e : EmojiItem) :
  e ∈ coll -> truthyHash e = None -> e ∈ uniqueEmojis seen coll.
Proof.
  revert seen. induction coll as [|e0 coll IH]; intros seen Hin Hn; [inversion Hin|].
  cbn [uniqueEmojis]. apply elem_of_cons in Hin as [->|Hin].
  - rewrite Hn. left.
  - destruct (truthyHash e0) as [h|].
    + case_bool_decide; [|right]; now apply IH.
    + right. now apply IH.
Qed.

Lemma truthyHash_Some (e : EmojiItem) (h : jsstring) :
  h <> [] -> (item_fileHash e = Some h <-> truthyHash e = Some h).
Proof.
  intros Hh. unfold truthyHash. destruct (item_fileHash e) as [[|c r]|]; split; intros E;
    try discriminate; try exact E; try (injection E as <-; contradiction).
Qed.

Lemma truthyHash_nonempty (e : EmojiItem) (h : jsstring) :
  truthyHash e = Some h -> h <> [] /\ item_fileHash e = Some h.
Proof.
  unfold truthyHash. destruct (item_fileHash e) as [[|c r]|]; intros [= <-]. now split.
Qed.

(** Of the emoji that carry one hash the plan keeps the first. *)
Lemma uniqueEmojis_filter (h : jsstring) (coll : list EmojiItem) (seen : gset jsstring) :
  h <> [] ->
  filter (fun e => item_fileHash e = Some h) (uniqueEmojis seen coll) =
  if bool_decide (h ∈ seen) then []
  else take 1 (filter (fun e => item_fileHash e = Some h) coll).
Proof.
  intros Hh. revert seen. induction coll as [|e coll IH]; intros seen; cbn [uniqueEmojis].
  - now case_bool_decide.
  - destruct (truthyHash e) as [h'|] eqn:Et.
    + apply truthyHash_nonempty in Et as [Hne Eh].
      destruct (decide (h' = h)) as [->|Hd].
      * case_bool_decide as Hs.
        -- rewrite IH. now rewrite bool_decide_eq_true_2.
        -- rewrite !filter_cons. destruct (decide (item_fileHash e = Some h)); [|contradiction].
           rewrite IH.
           rewrite bool_decide_eq_true_2 by (apply elem_of_union_l, elem_of_singleton; reflexivity).
           reflexivity.
      * assert (Hno : item_fileHash e <> Some h) by congruence.
        case_bool_decide as Hs.
        -- rewrite IH. rewrite (filter_cons _ e). destruct (decide (item_fileHash e = Some h)); [contradiction|].
           reflexivity.
        -- rewrite !filter_cons. destruct (decide (item_fileHash e = Some h)); [contradiction|].
           rewrite IH. apply (f_equal (fun b : bool => if b then _ else _)).
           apply bool_decide_ext. rewrite elem_of_union, elem_of_singleton.
           split; [intros [E|Hin]; [congruence | exact Hin] | now right].
    + assert (Hno : item_fileHash e <> Some h).
      { intros E. apply truthyHash_Some in E; [congruence|exact Hh]. }
      rewrite !filter_cons. destruct (decide (item_fileHash e = Some h)); [contradiction|].
      apply IH.
Qed.

(** The loop of [getEmojiCollectionInfo] in closed form: the map from hash
    to file name holds for every hash the name made of that hash and its
    file, so that every emotion gets the name of its own hash. *)
Lemma collectEmotion_step (fm : gmap jsstring (option File)) (sz : Size)
    (m : gmap jsstring jsstring) (c : list EmojiItem) (entry : jsstring * jsstring) :
  (forall h n, m !! h = Some n -> exists f, fm !! h = Some (Some f) /\ n = sharedFilename h f) ->
  exists m',
    collectEmotion fm sz (m, c) entry = (m', c ++ option_list (emotionItem fm sz entry))
    /\ (forall h n, m' !! h = Some n ->
          exists f, fm !! h = Some (Some f) /\ n = sharedFilename h f).
Proof.
  intros Hm. destruct entry as [name h]. unfold collectEmotion, emotionItem. cbn [fst snd].
  destruct (fm !! h) as [[f|]|] eqn:Ef.
  - destruct (m !! h) as [n|] eqn:Emh.
    + exists m. split; [|exact Hm]. rewrite Emh.
      destruct (Hm h n Emh) as (f' & Ef' & ->). replace f' with f by congruence. reflexivity.
    + exists (<[h := sharedFilename h f]> m). split.
      * rewrite lookup_insert_eq. reflexivity.
      * intros h' n'. destruct (decide (h' = h)) as [->|Hd].
        -- rewrite lookup_insert_eq. intros [= <-]. eauto.
        -- rewrite lookup_insert_ne by congruence. apply Hm.
  - exists m. cbn [option_list]. rewrite app_nil_r. now split.
  - exists m. cbn [option_list]. rewrite app_nil_r. now split.
Qed.

Lemma collect_spec (fm : gmap jsstring (option File)) (sz : Size)
    (em : list (jsstring * jsstring)) (m : gmap jsstring jsstring) (c : list EmojiItem) :
  (forall h n, m !! h = Some n -> exists f, fm !! h = Some (Some f) /\ n = sharedFilename h f) ->
  (foldl (collectEmotion fm sz) (m, c) em).2 = c ++ omap (emotionItem fm sz) em.
Proof.
  revert m c. induction em as [|entry em IH]; intros m c Hm; cbn [foldl omap list_omap].
  - now rewrite app_nil_r.
  - destruct (collectEmotion_step fm sz m c entry Hm) as (m' & -> & Hm').
    rewrite IH by exact Hm'. rewrite <- app_assoc. f_equal.
    destruct (emotionItem fm sz entry); reflexivity.
Qed.


(** Two emoji of a collection that carry the same hash have the same file
    name. *)
Lemma emoji_collection_shared (config : option Config) (coll : list EmojiItem)
    (e1 e2 : EmojiItem) (h : jsstring) :
  getEmojiCollectionInfo config = Ok coll ->
  e1 ∈ coll -> e2 ∈ coll ->
  item_fileHash e1 = Some h -> item_fileHash e2 = Some h ->
  item_file e1 = item_file e2.
Proof.
  unfold getEmojiCollectionInfo.
  destruct (theme ← config ≫= cfg_theme; theme_emoji theme) as [emoji|];
    [|intros <-%Ok_eq Hin; inversion Hin].
  case_bool_decide.
  { intros <-%Ok_eq Hin. apply list_elem_of_In, in_map_iff in Hin.
    destruct Hin as (x & <- & _). discriminate. }
  case_bool_decide; [|intros <-%Ok_eq Hin; inversion Hin].
  destruct (emoji_custom emoji) as [custom|]; [|discriminate].
  destruct (_ || _); [discriminate|]. intros <-%Ok_eq.
  rewrite collect_spec by (intros h0 n; rewrite lookup_empty; discriminate).
  cbn [app]. intros (x1 & _ & E1)%list_elem_of_omap (x2 & _ & E2)%list_elem_of_omap.
  unfold emotionItem in E1, E2.
  destruct (ec_fileMap custom !! x1.2) as [[f1|]|] eqn:Ef1; try discriminate.
  destruct (ec_fileMap custom !! x2.2) as [[f2|]|] eqn:Ef2; try discriminate.
  injection E1 as <-. injection E2 as <-. cbn. intros [= E1] [= E2].
  rewrite E1, E2 in *. congruence.
Qed.

Lemma unique_names (coll : list EmojiItem) :
  (forall e1 e2 h, e1 ∈ coll -> e2 ∈ coll ->
     item_fileHash e1 = Some h -> item_fileHash e2 = Some h -> item_file e1 = item_file e2) ->
  forall x, x ∈ map item_file (uniqueEmojis ∅ coll) <-> x ∈ map item_file coll.
Proof.
  intros Hshared x. split.
  - intros (e & <- & He)%list_elem_of_In%in_map_iff. apply list_elem_of_In, in_map_iff.
    exists e. split; [reflexivity|]. apply list_elem_of_In in He.
    eapply list_elem_of_In, uniqueEmojis_sub, He.
  - intros (e & <- & He%list_elem_of_In)%list_elem_of_In%in_map_iff.
    apply list_elem_of_In, in_map_iff.
    destruct (truthyHash e) as [h|] eqn:Et.
    + apply truthyHash_nonempty in Et as [Hne Eh].
      pose proof (uniqueEmojis_filter h coll ∅ Hne) as Hf.
      rewrite bool_decide_eq_false_2 in Hf by apply not_elem_of_empty.
      assert (Hin : e ∈ filter (fun e => item_fileHash e = Some h) coll)
        by (apply list_elem_of_filter; now split).
      destruct (filter _ coll) as [|e' rest] eqn:Efl; [inversion Hin|].
      assert (He' : e' ∈ filter (fun e => item_fileHash e = Some h) coll)
        by (rewrite Efl; left).
      apply list_elem_of_filter in He' as [Eh' Hc'].
      assert (Hu : e' ∈ filter (fun e => item_fileHash e = Some h) (uniqueEmojis ∅ coll))
        by (rewrite Hf; cbn; left).
      apply list_elem_of_filter in Hu as [_ Hu].
      exists e'. split; [|now apply list_elem_of_In]. eapply Hshared; eauto.
    + exists e. split; [reflexivity|]. now apply list_elem_of_In, uniqueEmojis_keeps.
Qed.

(** The files of a plan, given the font and the emoji collection. *)
Lemma prepare_inv (config : option Config) (r : Resources) :
  preparePackageResources config = Ok r ->
  exists c chip display fontInfo coll,
    config = Some c /\ cfg_chip c = Some chip /\ chip_display chip = Some display
    /\ getFontInfo config = Ok fontInfo
    /\ getEmojiCollectionInfo config = Ok coll
    /\ res_files r =
         match getWakewordModelInfo config with
         | Some info => [WakewordResource (ww_name info) (ww_filename info) (ww_type info)]
         | None => []
         end
         ++ map FontResource (option_list fontInfo)
         ++ map EmojiResource (uniqueEmojis ∅ coll)
         ++ backgroundFile ((cfg_theme c ≫= theme_skin) ≫= skin_light)
              (js "background_light.raw") (js "light")
         ++ backgroundFile ((cfg_theme c ≫= theme_skin) ≫= skin_dark)
              (js "background_dark.raw") (js "dark")
    /\ ij_chip_model (res_indexJson r) = chip_model chip
    /\ ij_display_width (res_indexJson r) = dsp_width display
    /\ ij_display_height (res_indexJson r) = dsp_height display
    /\ ij_srmodels (res_indexJson r) = ww_filename <$> getWakewordModelInfo config
    /\ ij_text_font (res_indexJson r) = fontInfo_filename <$> fontInfo
    /\ default [] (ij_emoji_collection (res_indexJson r))
       = map (fun emoji => (item_name emoji, item_file emoji)) coll
    /\ (ij_emoji_collection (res_indexJson r) = None <-> coll = [])
    /\ (forall s, ij_skin (res_indexJson r) = Some s -> s = getSkinInfo config)
    /\ (ij_skin (res_indexJson r) = None ->
        info_light (getSkinInfo config) = None /\ info_dark (getSkinInfo config) = None).
Proof.
  unfold preparePackageResources, generateIndexJson.
  destruct config as [c|]; [|discriminate].
  destruct (cfg_chip c) as [chip|] eqn:Echip; [|discriminate].
  destruct (chip_display chip) as [display|] eqn:Edisplay; [|discriminate].
  destruct (getFontInfo (Some c)) as [fontInfo|] eqn:Efont; [|discriminate].
  destruct (getEmojiCollectionInfo (Some c)) as [coll|] eqn:Ecoll; [|discriminate].
  cbn [rbind]. intros <-%Ok_eq. cbn [res_files res_indexJson].
  exists c, chip, display, fontInfo, coll. rewrite foldl_addEmojiFile.
  repeat match goal with |- _ /\ _ => split end; try reflexivity; try assumption.
  - assert (Hww : match getWakewordModelInfo (Some c) with
                  | Some info =>
                    match ww_name info with
                    | _ :: _ =>
                      [WakewordResource (ww_name info) (ww_filename info) (ww_type info)]
                    | [] => []
                    end
                  | None => []
                  end
                  = match getWakewordModelInfo (Some c) with
                    | Some info =>
                      [WakewordResource (ww_name info) (ww_filename info) (ww_type info)]
                    | None => []
                    end).
    { destruct (getWakewordModelInfo (Some c)) as [info|] eqn:Eww; [|reflexivity].
      apply wakeword_name_truthy in Eww as [Hne _].
      destruct (ww_name info) eqn:En; [contradiction|reflexivity]. }
    destruct fontInfo; rewrite Hww; cbn [option_list map]; rewrite <- ?app_assoc; reflexivity.
  - cbn. now destruct coll.
  - cbn. destruct coll; split; congruence.
  - cbn. destruct (info_light (getSkinInfo (Some c))), (info_dark (getSkinInfo (Some c)));
      congruence.
  - cbn. destruct (info_light (getSkinInfo (Some c))), (info_dark (getSkinInfo (Some c)));
      try discriminate. now split.
Qed.

Lemma skin_files (c : Config) :
  map resource_filename
      (backgroundFile ((cfg_theme c ≫= theme_skin) ≫= skin_light)
         (js "background_light.raw") (js "light"))
  = modeFiles (info_light (getSkinInfo (Some c)))
  /\ map resource_filename
         (backgroundFile ((cfg_theme c ≫= theme_skin) ≫= skin_dark)
            (js "background_dark.raw") (js "dark"))
     = modeFiles (info_dark (getSkinInfo (Some c))).
Proof.
  unfold getSkinInfo, backgroundFile, modeFiles, hasBackgroundImage.
  cbn [mbind option_bind]. destruct (cfg_theme c) as [t|]; [|now split].
  cbn [mbind option_bind]. destruct (theme_skin t) as [s|]; [|now split].
  cbn [mbind option_bind info_light info_dark]. split.
  - destruct (skin_light s) as [m|]; [|reflexivity].
    cbn [mbind option_bind background_image].
    case_bool_decide; [|reflexivity]. destruct (mode_backgroundImage m); reflexivity.
  - destruct (skin_dark s) as [m|]; [|reflexivity].
    cbn [mbind option_bind background_image].
    case_bool_decide; [|reflexivity]. destruct (mode_backgroundImage m); reflexivity.
Qed.

(** X20. The files of the package plan are the files that its index.json
    names: the model file, the font, the file of every emotion and the
    background images. An emotion whose image was left out as a duplicate
    is named with the file that was kept. *)
Theorem plan_files_named_by_index (config : option Config) (r : Resources) :
  preparePackageResources config = Ok r ->
  forall name,
    name ∈ map resource_filename (res_files r) <-> name ∈ indexFiles (res_indexJson r).
Proof.
  intros Hr name.
  destruct (prepare_inv config r Hr)
    as (c & chip & display & fontInfo & coll & -> & _ & _ & _ & Hcoll & Hfiles & _ & _ & _
        & Hsr & Hfont & Hem & _ & Hskin & Hnoskin).
  rewrite Hfiles. unfold indexFiles. rewrite Hsr, Hfont, Hem.
  rewrite !map_app, !elem_of_app.
  assert (H1 : map resource_filename
                 match getWakewordModelInfo (Some c) with
                 | Some info =>
                   [WakewordResource (ww_name info) (ww_filename info) (ww_type info)]
                 | None => []
                 end
               = option_list (ww_filename <$> getWakewordModelInfo (Some c)))
    by (destruct (getWakewordModelInfo (Some c)); reflexivity).
  assert (H2 : map resource_filename (map FontResource (option_list fontInfo))
               = option_list (fontInfo_filename <$> fontInfo))
    by (destruct fontInfo; reflexivity).
  assert (H3 : name ∈ map resource_filename (map EmojiResource (uniqueEmojis ∅ coll))
               <-> name ∈ map snd (map (fun emoji => (item_name emoji, item_file emoji)) coll)).
  { rewrite !map_map. cbn [resource_filename snd].
    apply unique_names. intros e1 e2 h. now apply emoji_collection_shared with (config := Some c). }
  destruct (skin_files c) as [HL HD].
  assert (H4 : name ∈ map resource_filename
                   (backgroundFile ((cfg_theme c ≫= theme_skin) ≫= skin_light)
                      (js "background_light.raw") (js "light"))
               \/ name ∈ map resource_filename
                      (backgroundFile ((cfg_theme c ≫= theme_skin) ≫= skin_dark)
                         (js "background_dark.raw") (js "dark"))
               <-> name ∈ match ij_skin (res_indexJson r) with
                          | Some s => modeFiles (info_light s) ++ modeFiles (info_dark s)
                          | None => []
                          end).
  { rewrite HL, HD. destruct (ij_skin (res_indexJson r)) as [s|] eqn:Es.
    - rewrite (Hskin s eq_refl). now rewrite elem_of_app.
    - destruct (Hnoskin eq_refl) as [-> ->]. cbn. rewrite elem_of_nil. tauto. }
  rewrite H1, H2, H3, H4. reflexivity.
Qed.




Lemma validateConfig_inv (c : Config) :
  validateConfig (Some c) = true ->
  exists chip display,
    cfg_chip c = Some chip /\ chip_display chip = Some display
    /\ truthy_str (chip_model chip) = true
    /\ truthy_num (dsp_width display) = true
    /\ truthy_num (dsp_height display) = true
    /\ forall font, cfg_theme c ≫= theme_font = Some font ->
         (font_type font = Some (js "preset") -> truthy_str (font_preset font) = true)
         /\ (font_type font = Some (js "custom") ->
             exists custom file, font_custom font = Some custom /\ cf_file custom = Some file).
Proof.
  unfold validateConfig. cbn [mbind option_bind].
  destruct (cfg_chip c) as [chip|]; [|discriminate]. cbn [mbind option_bind].
  destruct (truthy_str (chip_model chip)) eqn:Em; [|discriminate]. cbn [negb].
  destruct (chip_display chip) as [display|] eqn:Ed; [|discriminate]. cbn [mbind option_bind].
  destruct (truthy_num (dsp_width display)) eqn:Ew; [|discriminate].
  destruct (truthy_num (dsp_height display)) eqn:Eh; [|discriminate]. cbn [negb orb].
  change (theme ← cfg_theme c; theme_font theme) with (cfg_theme c ≫= theme_font).
  intros Hv. exists chip, display.
  split; [reflexivity|]. split; [exact Ed|]. split; [exact Em|]. split; [exact Ew|].
  split; [exact Eh|]. intros font Hf. rewrite Hf in Hv. cbn [mbind option_bind] in Hv.
  split.
  - intros Hp. rewrite Hp in Hv. rewrite bool_decide_eq_true_2 in Hv by reflexivity.
    now destruct (truthy_str (font_preset font)).
  - intros Hc. rewrite Hc in Hv.
    rewrite bool_decide_eq_false_2 in Hv by discriminate.
    rewrite bool_decide_eq_true_2 in Hv by reflexivity. cbn [andb] in Hv.
    destruct (font_custom font) as [custom|]; cbn [mbind option_bind] in Hv.
    + destruct (cf_file custom) as [file|] eqn:Efile; [eauto|].
      rewrite bool_decide_eq_false_2 in Hv by (intros [x Hx]; discriminate). discriminate.
    + rewrite bool_decide_eq_false_2 in Hv by (intros [x Hx]; discriminate). discriminate.
Qed.

Lemma font_after_validation (c : Config) :
  validateConfig (Some c) = true ->
  exists fontInfo,
    getFontInfo (Some c) = Ok fontInfo
    /\ (is_Some fontInfo <->
        (cfg_theme c ≫= theme_font) ≫= font_type = Some (js "preset")
        \/ (cfg_theme c ≫= theme_font) ≫= font_type = Some (js "custom")).
Proof.
  intros (chip & display & _ & _ & _ & _ & _ & Hfont)%validateConfig_inv.
  unfold getFontInfo. cbn [mbind option_bind].
  change (theme ← cfg_theme c; theme_font theme) with (cfg_theme c ≫= theme_font).
  destruct (cfg_theme c ≫= theme_font) as [font|] eqn:Ef; cbn [mbind option_bind].
  2:{ eexists. split; [reflexivity|]. split; [intros [x Hx]; discriminate|intros [|]; discriminate]. }
  destruct (Hfont font eq_refl) as [_ Hcustom].
  case_bool_decide as Hp.
  { eexists. split; [reflexivity|]. split; [now left|eauto]. }
  case_bool_decide as Hc.
  - destruct (Hcustom Hc) as (custom & file & -> & ->).
    eexists. split; [reflexivity|]. split; [now right|eauto].
  - eexists. split; [reflexivity|]. split; [intros [x Hx]; discriminate|intros [|]; contradiction].
Qed.

(** X22. A configuration that [validateConfig] accepts is stored by
    [setConfig] in strict mode, and preparing its package plan can fail in
    the emoji section only: it fails exactly when [getEmojiCollectionInfo]
    fails, with that error. Otherwise the plan exists, its index carries a
    chip model and a display size that are not empty or zero, and it names
    a font exactly when the font type is 'preset' or 'custom'. *)
Theorem validated_config_plan (c : Config) :
  validateConfig (Some c) = true ->
  setConfig (Some c) true = Ok c /\
  match getEmojiCollectionInfo (Some c) with
  | Ok _ =>
    exists r,
      preparePackageResources (Some c) = Ok r
      /\ truthy_str (ij_chip_model (res_indexJson r)) = true
      /\ truthy_num (ij_display_width (res_indexJson r)) = true
      /\ truthy_num (ij_display_height (res_indexJson r)) = true
      /\ (is_Some (ij_text_font (res_indexJson r)) <->
          (cfg_theme c ≫= theme_font) ≫= font_type = Some (js "preset")
          \/ (cfg_theme c ≫= theme_font) ≫= font_type = Some (js "custom"))
  | Err e => preparePackageResources (Some c) = Err e
  end.
Proof.
  intros Hv. split; [unfold setConfig; now rewrite Hv|].
  destruct (font_after_validation c Hv) as (fontInfo & Hfont & Hsome).
  destruct (validateConfig_inv c Hv) as (chip & display & Hchip & Hdisplay & Hm & Hw & Hh & _).
  unfold preparePackageResources, generateIndexJson.
  rewrite Hchip, Hdisplay, Hfont. cbn [rbind].
  destruct (getEmojiCollectionInfo (Some c)) as [coll|e]; cbn [rbind]; [|reflexivity].
  eexists. split; [reflexivity|]. cbn [res_indexJson ij_chip_model ij_display_width
                                        ij_display_height ij_text_font].
  repeat split; try assumption.
  - intros [x Hx]. apply Hsome. destruct fontInfo; [eauto|discriminate].
  - intros Ht. apply Hsome in Ht as [x ->]. eauto.
Qed.

Lemma replace_bin_suffix_app (s : jsstring) : replace_bin_suffix (s ++ js ".bin") = s.
Proof.
  unfold replace_bin_suffix. rewrite length_app.
  change (length (js ".bin")) with 4%nat.
  replace (length s + 4 - 4)%nat with (length s) by lia.
  rewrite drop_app_length, take_app_length.
  rewrite bool_decide_eq_true_2 by reflexivity.
  destruct (4 <=? length s + 4)%nat eqn:E; [reflexivity|].
  apply Nat.leb_gt in E. lia.
Qed.

(** X23. The request that [preprocessCustomFonts] makes to the font
    converter for a custom font that has not been converted yet: the font
    file, its size, depth and character set, the name
    font_custom_<size>_<bpp> of the packaged file without its extension,
    and no compression. The symbols and the range of the request are always
    empty, whatever the configuration holds for them. *)
Theorem custom_font_request (c : Config) (font : Font) (custom : CustomFont) (file : File)
    (converted : gset jsstring) :
  cfg_theme c ≫= theme_font = Some font ->
  font_type font = Some (js "custom") ->
  font_custom font = Some custom ->
  cf_file custom = Some file ->
  js "font_custom_" ++ num_of (cf_size custom) ++ js "_" ++ num_of (cf_bpp custom)
    ++ js ".bin" ∉ converted ->
  exists o,
    convertOptions (Some c) converted = Ok (Some o)
    /\ co_fontFile o = file
    /\ co_fontName o
       = js "font_custom_" ++ num_of (cf_size custom) ++ js "_" ++ num_of (cf_bpp custom)
    /\ co_fontSize o = cf_size custom
    /\ co_bpp o = cf_bpp custom
    /\ co_charset o = cf_charset custom
    /\ co_symbols o = []
    /\ co_range o = []
    /\ co_compression o = false.
Proof.
  intros Hfont Htype Hcustom Hfile Hnew.
  unfold convertOptions, getFontInfo. cbn [mbind option_bind].
  change (theme ← cfg_theme c; theme_font theme) with (cfg_theme c ≫= theme_font).
  rewrite Hfont, Htype, Hcustom, Hfile.
  rewrite bool_decide_eq_false_2 by discriminate.
  rewrite bool_decide_eq_true_2 by reflexivity. cbn [rbind].
  rewrite bool_decide_eq_false_2 by exact Hnew.
  eexists. split; [reflexivity|]. cbn [co_fontFile co_fontName co_fontSize co_bpp co_charset
                                        co_symbols co_range co_compression].
  repeat split.
  rewrite <- (replace_bin_suffix_app
                (js "font_custom_" ++ num_of (cf_size custom) ++ js "_"
                   ++ num_of (cf_bpp custom))).
  now rewrite <- !app_assoc.
Qed.

End AssetsPlan.

Lemma plan_files_named_by_index_witness :
  exists r,
    @AssetsBuilder.preparePackageResources exampleHost (Some ex_config) = Ok r
    /\ (js "emoji_01234567.png"
          ∈ map AssetsBuilder.resource_filename (AssetsBuilder.res_files r)
        <-> js "emoji_01234567.png" ∈ indexFiles (AssetsBuilder.res_indexJson r)).
Proof.
  eexists. split; [vm_compute; reflexivity|].
  apply (@plan_files_named_by_index exampleHost (Some ex_config)).
  vm_compute. reflexivity.
Defined.


Lemma validated_config_plan_witness :
  AssetsBuilder.setConfig (Some ex_config) true = Ok ex_config /\
  match @AssetsBuilder.getEmojiCollectionInfo exampleHost (Some ex_config) with
  | Ok _ =>
    exists r,
      @AssetsBuilder.preparePackageResources exampleHost (Some ex_config) = Ok r
      /\ AssetsBuilder.truthy_str
           (AssetsBuilder.ij_chip_model (AssetsBuilder.res_indexJson r)) = true
      /\ AssetsBuilder.truthy_num
           (AssetsBuilder.ij_display_width (AssetsBuilder.res_indexJson r)) = true
      /\ AssetsBuilder.truthy_num
           (AssetsBuilder.ij_display_height (AssetsBuilder.res_indexJson r)) = true
      /\ (is_Some (AssetsBuilder.ij_text_font (AssetsBuilder.res_indexJson r)) <->
          (AssetsBuilder.cfg_theme ex_config ≫= AssetsBuilder.theme_font)
            ≫= AssetsBuilder.font_type = Some (js "preset")
          \/ (AssetsBuilder.cfg_theme ex_config ≫= AssetsBuilder.theme_font)
               ≫= AssetsBuilder.font_type = Some (js "custom"))
  | Err e => @AssetsBuilder.preparePackageResources exampleHost (Some ex_config) = Err e
  end.
Proof.
  apply (@validated_config_plan exampleHost ex_config). vm_compute. reflexivity.
Defined.

Lemma custom_font_request_witness :
  exists o,
    AssetsBuilder.convertOptions (Some ex_config) ∅ = Ok (Some o)
    /\ AssetsBuilder.co_fontName o = js "font_custom_20_4"
    /\ AssetsBuilder.co_symbols o = []
    /\ AssetsBuilder.co_range o = [].
Proof.
  edestruct (custom_font_request ex_config ex_fontConfig ex_customFont
               (ex_file "Sans.ttf" 3) ∅)
    as (o & Ho & _ & Hname & _ & _ & _ & Hsym & Hrange & _).
  - reflexivity.
  - reflexivity.
  - reflexivity.
  - reflexivity.
  - apply not_elem_of_empty.
  - exists o. split; [exact Ho|]. split; [|split; assumption].
    rewrite Hname. vm_compute. reflexivity.
Defined.
